(** * A queue on a circular doubly linked list (queue.c)

    The store holds every [struct list_head] object (the sentinels and the
    [list] member of every [element_t]) and the payload buffer of every
    element.  An element is named by the address of its embedded [list]
    member, which is what [list_entry] recovers by a constant offset. *)

From stdpp Require Import gmap list fin_maps strings.
From Stdlib Require Import ZArith Lia.
From Stdlib.Strings Require Import Byte.

Local Open Scope Z_scope.

(** ** Data model *)

Abbreviation loc := Z.

Definition NULL : loc := 0.

(** A [char] of a string, and its value as [unsigned char]. *)
Abbreviation byte := Byte.byte.

Definition NUL : byte := Byte.x00.

Definition uchar (c : byte) : Z := Z.of_N (Byte.to_N c).

(** [struct list_head { struct list_head *prev, *next; }] *)
Record list_head := ListHead { prev : loc; next : loc }.

(** [links] maps the address of a live [struct list_head] to its two fields;
    [vals] maps an element to the bytes of the buffer its [value] owns. *)
Record heap := Heap { links : gmap Z list_head; vals : gmap Z (list byte) }.

(** [p->next] and [p->prev] as reads; a read through a dead pointer has no
    result. *)
Definition nxt (h : heap) (p : loc) : option loc := next <$> links h !! p.
Definition prv (h : heap) (p : loc) : option loc := prev <$> links h !! p.

(** [p->next = v] and [p->prev = v]. *)
Definition set_next (p v : loc) (h : heap) : option heap :=
  n ← links h !! p;
  Some (Heap (<[p := ListHead (prev n) v]> (links h)) (vals h)).

Definition set_prev (p v : loc) (h : heap) : option heap :=
  n ← links h !! p;
  Some (Heap (<[p := ListHead v (next n)]> (links h)) (vals h)).

(** Integer types of the LP64 target: [int] is 32 bits, [size_t] 64 bits. *)
Definition INT_MAX : Z := 2147483647.
Definition SIZE_MAX : Z := 18446744073709551615.

(** Conversion to [int]: wrap-around into [-2^31, 2^31). *)
Definition to_int (z : Z) : Z := (z + 2 ^ 31) mod 2 ^ 32 - 2 ^ 31.

(** Conversion to [size_t]: reduction modulo [2^64]. *)
Definition to_size_t (z : Z) : Z := z mod 2 ^ 64.

(** ** The list primitives (list.h) *)

(** Modelled from the spec: [INIT_LIST_HEAD] of list.h, "init (ring of one =
    sentinel pointing to itself)". *)
Definition INIT_LIST_HEAD (head : loc) (h : heap) : option heap :=
  h ← set_next head head h;
  set_prev head head h.

(** Modelled from the spec: [list_empty] of list.h, "emptiness is defined as
    the head's successor being itself". *)
Definition list_empty (head : loc) (h : heap) : option bool :=
  n ← nxt h head; Some (n =? head).

(** Modelled from the spec: [list_add] of list.h, "insert-after(node, head)". *)
Definition list_add (node head : loc) (h : heap) : option heap :=
  nx ← nxt h head;
  h ← set_prev nx node h;
  h ← set_next node nx h;
  h ← set_prev node head h;
  set_next head node h.

(** Modelled from the spec: [list_add_tail] of list.h, "insert-before". *)
Definition list_add_tail (node head : loc) (h : heap) : option heap :=
  pv ← prv h head;
  h ← set_next pv node h;
  h ← set_next node head h;
  h ← set_prev node pv h;
  set_prev head node h.

(** Modelled from the spec: [list_del] of list.h, "unlink(node) (re-links
    node's neighbors to each other, leaves the unlinked node's own links in an
    undefined/overwritable state)"; here the node's own links are left as they
    were. *)
Definition list_del (node : loc) (h : heap) : option heap :=
  nx ← nxt h node;
  pv ← prv h node;
  h ← set_prev nx pv h;
  set_next pv nx h.

(** Modelled from the spec: [list_move_tail] of list.h, unlink followed by
    insert-before ("moves the smaller ... to the tail of an accumulator"). *)
Definition list_move_tail (node head : loc) (h : heap) : option heap :=
  h ← list_del node h;
  list_add_tail node head h.

(** Modelled from the spec: [list_splice] of list.h, "splice(src,
    dest-position) (moves an entire ring's contents into another ring at a
    given position, leaving src empty)"; the position is right after [head]. *)
Definition list_splice (src head : loc) (h : heap) : option heap :=
  head_first ← nxt h head;
  list_first ← nxt h src;
  list_last ← prv h src;
  e ← list_empty src h;
  if (e : bool) then Some h else
  h ← set_next head list_first h;
  h ← set_prev list_first head h;
  h ← set_next list_last head_first h;
  h ← set_prev head_first list_last h;
  INIT_LIST_HEAD src h.

(** Modelled from the spec: [list_splice_tail_init] of list.h, the splice
    whose position is right before [head] (the tail), "leaving src empty". *)
Definition list_splice_tail_init (src head : loc) (h : heap) : option heap :=
  head_last ← prv h head;
  list_first ← nxt h src;
  list_last ← prv h src;
  e ← list_empty src h;
  h ← (if (e : bool) then Some h else
         h ← set_prev head list_last h;
         h ← set_next list_last head h;
         h ← set_prev list_first head_last h;
         set_next head_last list_first h);
  INIT_LIST_HEAD src h.

(** Modelled from the spec: [list_cut_position] of list.h,
    "cut-position(new-head, old-head, pivot) (splits a ring into two rings at
    a pivot node: elements from the original head up to and including pivot
    move into new-head; remainder stays)". *)
Definition list_cut_position (head_to head_from node : loc) (h : heap)
  : option heap :=
  head_from_first ← nxt h head_from;
  e ← list_empty head_from h;
  if (e : bool) then Some h else
  if head_from =? node then INIT_LIST_HEAD head_to h else
  nn ← nxt h node;
  h ← set_next head_from nn h;
  h ← set_prev nn head_from h;
  h ← set_prev head_to node h;
  h ← set_next node head_to h;
  h ← set_next head_to head_from_first h;
  set_prev head_from_first head_to h.

(** Modelled from the spec: the [LIST_HEAD(name)] declaration of list.h, a
    sentinel in automatic storage whose two links point to itself.  The
    address is one that names no live object. *)
Definition fresh_loc (h : heap) : loc :=
  fresh ({[NULL]} ∪ dom (links h) ∪ dom (vals h)).

Definition LIST_HEAD (h : heap) : loc * heap :=
  let p := fresh_loc h in
  (p, Heap (<[p := ListHead p p]> (links h)) (vals h)).

(** The end of the lifetime of a [LIST_HEAD] object, and [free] of an
    element's node. *)
Definition free_head (p : loc) (h : heap) : heap :=
  Heap (delete p (links h)) (vals h).

(** ** Strings *)

(** [strlen]: the index of the first NUL of the buffer; none when the buffer
    holds no terminator. *)
Fixpoint strlen (s : list byte) : option Z :=
  match s with
  | [] => None
  | c :: s' => if uchar c =? 0 then Some 0 else n ← strlen s'; Some (n + 1)
  end.

(** The bytes before the terminator.  A buffer that holds no terminator is
    read up to its end. *)
Fixpoint cstr (s : list byte) : list byte :=
  match s with
  | [] => []
  | c :: s' => if uchar c =? 0 then [] else c :: cstr s'
  end.

(** [strcmp]: the difference of the first two bytes that differ (as
    [unsigned char]), zero when both strings end together. *)
Fixpoint strcmp (a b : list byte) : Z :=
  match a, b with
  | [], [] => 0
  | [], y :: _ => 0 - uchar y
  | x :: _, [] => uchar x
  | x :: a', y :: b' =>
      if uchar x =? uchar y
      then (if uchar x =? 0 then 0 else strcmp a' b')
      else uchar x - uchar y
  end.

(** ** The queue operations (queue.c) *)

(** [cmp(e1, e2)]: [strcmp] of the two payloads. *)
Definition cmp (e1 e2 : loc) (h : heap) : option Z :=
  a ← vals h !! e1;
  b ← vals h !! e2;
  Some (strcmp a b).

Fixpoint q_mid_loop (fuel : nat) (head slow fast : loc) (h : heap)
  : option loc :=
  match fuel with
  | O => None
  | S fuel =>
      if fast =? NULL then Some slow else
      if fast =? head then Some slow else
      fn ← nxt h fast;
      if fn =? head then Some slow else
      fast' ← nxt h fn;
      slow' ← nxt h slow;
      q_mid_loop fuel head slow' fast' h
  end.

Definition q_mid (fuel : nat) (head : loc) (h : heap) : option loc :=
  if head =? NULL then Some head else
  e ← list_empty head h;
  if (e : bool) then Some head else
  slow ← nxt h head;
  fast ← nxt h slow;
  q_mid_loop fuel head slow fast h.

(** [malloc]: whether an allocation succeeds is the environment's choice
    (the flag); a successful one returns an address that names no live
    object.  The links of a fresh element are not yet initialised. *)
Definition malloc_node (h : heap) : loc * heap :=
  let p := fresh_loc h in
  (p, Heap (<[p := ListHead NULL NULL]> (links h)) (vals h)).

(** [strncpy(dst, src, n)] writes exactly [n] bytes: the bytes of [src]
    before its terminator, then NULs.  The write is guarded by the size of
    [dst]. *)
Definition strncpy (dst src : list byte) (n : Z) : option (list byte) :=
  if Z.of_nat (length dst) <? n then None
  else Some (take (Z.to_nat n) (cstr src ++ replicate (Z.to_nat n) NUL)
             ++ drop (Z.to_nat n) dst).

(** [buf[i] = c], guarded by the bounds of [buf]. *)
Definition store_byte (buf : list byte) (i : Z) (c : byte)
  : option (list byte) :=
  if (0 <=? i) && (i <? Z.of_nat (length buf))
  then Some (<[Z.to_nat i := c]> buf) else None.

Definition q_new (ok : bool) (h : heap) : option (loc * heap) :=
  if negb ok then Some (NULL, h) else
  let '(head, h) := malloc_node h in
  h ← INIT_LIST_HEAD head h;
  Some (head, h).

(** [free(e->value); free(e);] *)
Definition q_release_element (e : loc) (h : heap) : option heap :=
  _ ← vals h !! e;
  _ ← links h !! e;
  Some (Heap (delete e (links h)) (delete e (vals h))).

Fixpoint q_free_loop (fuel : nat) (l entry safe : loc) (h : heap)
  : option heap :=
  match fuel with
  | O => None
  | S fuel =>
      if entry =? l then Some h else
      h ← list_del entry h;
      h ← q_release_element entry h;
      safe' ← nxt h safe;
      q_free_loop fuel l safe safe' h
  end.

Definition q_free (fuel : nat) (l : loc) (h : heap) : option heap :=
  if l =? NULL then Some h else
  entry ← nxt h l;
  safe ← nxt h entry;
  h ← q_free_loop fuel l entry safe h;
  _ ← links h !! l;
  Some (free_head l h).

(** The caller's string [s] is the buffer it points into; the result carries
    the buffer as the call leaves it. *)
Definition create_element (ok_elem ok_value : bool) (s : list byte)
    (h : heap) : option (loc * list byte * heap) :=
  if negb ok_elem then Some (NULL, s, h) else
  let '(elem, h) := malloc_node h in
  n ← strlen s;
  let length := to_int (to_size_t (n + 1)) in
  if negb ok_value then Some (NULL, s, free_head elem h) else
  value ← strncpy (replicate (Z.to_nat (to_size_t length)) NUL) s
                  (to_size_t length);
  s ← store_byte s (length - 1) NUL;
  Some (elem, s, Heap (links h) (<[elem := value]> (vals h))).

Definition q_insert_head (ok_elem ok_value : bool) (head : loc)
    (s : list byte) (h : heap) : option (bool * list byte * heap) :=
  if head =? NULL then Some (false, s, h) else
  '(elem, s, h) ← create_element ok_elem ok_value s h;
  if elem =? NULL then Some (false, s, h) else
  h ← list_add elem head h;
  Some (true, s, h).

Definition q_insert_tail (ok_elem ok_value : bool) (head : loc)
    (s : list byte) (h : heap) : option (bool * list byte * heap) :=
  if head =? NULL then Some (false, s, h) else
  '(elem, s, h) ← create_element ok_elem ok_value s h;
  if elem =? NULL then Some (false, s, h) else
  h ← list_add_tail elem head h;
  Some (true, s, h).

(** The output buffer [sp] is absent ([NULL]) or the bytes it points to; its
    capacity is the length of that list, and [bufsize] is what the caller
    claims. *)
Definition copy_out (sp : option (list byte)) (elem : loc) (bufsize : Z)
    (h : heap) : option (option (list byte)) :=
  match sp with
  | None => Some None
  | Some buf =>
      v ← vals h !! elem;
      buf ← strncpy buf v bufsize;
      buf ← store_byte buf (to_size_t (bufsize - 1)) NUL;
      Some (Some buf)
  end.

Definition q_remove_head (head : loc) (sp : option (list byte))
    (bufsize : Z) (h : heap) : option (loc * option (list byte) * heap) :=
  if head =? NULL then Some (NULL, sp, h) else
  e ← list_empty head h;
  if (e : bool) then Some (NULL, sp, h) else
  elem ← nxt h head;
  sp ← copy_out sp elem bufsize h;
  first ← nxt h head;
  h ← list_del first h;
  Some (elem, sp, h).

Definition q_remove_tail (head : loc) (sp : option (list byte))
    (bufsize : Z) (h : heap) : option (loc * option (list byte) * heap) :=
  if head =? NULL then Some (NULL, sp, h) else
  e ← list_empty head h;
  if (e : bool) then Some (NULL, sp, h) else
  elem ← prv h head;
  sp ← copy_out sp elem bufsize h;
  last ← prv h head;
  h ← list_del last h;
  Some (elem, sp, h).

(** [size++] on an [int] that holds [INT_MAX] has no defined result. *)
Fixpoint q_size_loop (fuel : nat) (head node : loc) (size : Z) (h : heap)
  : option Z :=
  match fuel with
  | O => None
  | S fuel =>
      if node =? head then Some size else
      if INT_MAX <=? size then None else
      node' ← nxt h node;
      q_size_loop fuel head node' (size + 1) h
  end.

Definition q_size (fuel : nat) (head : loc) (h : heap) : option Z :=
  if head =? NULL then Some 0 else
  node ← nxt h head;
  q_size_loop fuel head node 0 h.

Definition q_delete_mid (fuel : nat) (head : loc) (h : heap)
  : option (bool * heap) :=
  if head =? NULL then Some (false, h) else
  e ← list_empty head h;
  if (e : bool) then Some (false, h) else
  mid ← q_mid fuel head h;
  h ← list_del mid h;
  h ← q_release_element mid h;
  Some (true, h).

Fixpoint q_delete_dup_loop (fuel : nat) (head node safe cur : loc) (h : heap)
  : option heap :=
  match fuel with
  | O => None
  | S fuel =>
      if node =? head then Some h else
      '(cur, h) ←
        (if cur =? NULL then Some (node, h) else
         c ← cmp cur node h;
         if c =? 0 then
           h ← list_del node h;
           h ← q_release_element node h;
           Some (cur, h)
         else Some (node, h));
      safe' ← nxt h safe;
      q_delete_dup_loop fuel head safe safe' cur h
  end.

Definition q_delete_dup (fuel : nat) (head : loc) (h : heap)
  : option (bool * heap) :=
  if head =? NULL then Some (false, h) else
  e ← list_empty head h;
  if (e : bool) then Some (true, h) else
  node ← nxt h head;
  safe ← nxt h node;
  h ← q_delete_dup_loop fuel head node safe NULL h;
  Some (true, h).

(** [e->value = v]: the element takes ownership of the buffer. *)
Definition set_value (e : loc) (v : list byte) (h : heap) : option heap :=
  _ ← vals h !! e;
  Some (Heap (links h) (<[e := v]> (vals h))).

Fixpoint q_swap_loop (fuel : nat) (head entry : loc) (h : heap)
  : option heap :=
  match fuel with
  | O => None
  | S fuel =>
      if entry =? head then Some h else
      next_entry ← nxt h entry;
      if negb (next_entry =? head) then
        temp ← vals h !! entry;
        v ← vals h !! next_entry;
        h ← set_value entry v h;
        h ← set_value next_entry temp h;
        entry' ← nxt h next_entry;
        q_swap_loop fuel head entry' h
      else Some h
  end.

Definition q_swap (fuel : nat) (head : loc) (h : heap) : option heap :=
  if head =? NULL then Some h else
  e ← list_empty head h;
  if (e : bool) then Some h else
  entry ← nxt h head;
  q_swap_loop fuel head entry h.

Fixpoint q_reverse_loop (fuel : nat) (head node safe : loc) (h : heap)
  : option heap :=
  match fuel with
  | O => None
  | S fuel =>
      if node =? head then Some h else
      pv ← prv h node;
      nx ← nxt h node;
      h ← set_prev node nx h;
      h ← set_next node pv h;
      safe' ← nxt h safe;
      q_reverse_loop fuel head safe safe' h
  end.

Definition q_reverse (fuel : nat) (head : loc) (h : heap) : option heap :=
  if head =? NULL then Some h else
  e ← list_empty head h;
  if (e : bool) then Some h else
  node ← nxt h head;
  safe ← nxt h node;
  h ← q_reverse_loop fuel head node safe h;
  head_next ← nxt h head;
  head_prev ← prv h head;
  h ← set_next head head_prev h;
  set_prev head head_next h.

Fixpoint merge_loop (fuel : nat) (a b dummy : loc) (h : heap) : option heap :=
  match fuel with
  | O => None
  | S fuel =>
      ea ← list_empty a h;
      if (ea : bool) then Some h else
      eb ← list_empty b h;
      if (eb : bool) then Some h else
      fa ← nxt h a;
      fb ← nxt h b;
      c ← cmp fa fb h;
      if c <? 0 then
        h ← list_move_tail fa dummy h;
        merge_loop fuel a b dummy h
      else
        h ← list_move_tail fb dummy h;
        merge_loop fuel a b dummy h
  end.

Definition merge (fuel : nat) (a b : loc) (h : heap) : option heap :=
  let '(dummy, h) := LIST_HEAD h in
  h ← INIT_LIST_HEAD dummy h;
  h ← merge_loop fuel a b dummy h;
  ea ← list_empty a h;
  h ← (if (ea : bool) then Some h else list_splice_tail_init a dummy h);
  eb ← list_empty b h;
  h ← (if (eb : bool) then Some h else list_splice_tail_init b dummy h);
  h ← list_splice dummy a h;
  Some (free_head dummy h).

Fixpoint q_sort (fuel : nat) (head : loc) (h : heap) : option heap :=
  match fuel with
  | O => None
  | S fuel =>
      if head =? NULL then Some h else
      e ← list_empty head h;
      if (e : bool) then Some h else
      hp ← prv h head;
      hn ← nxt h head;
      if hp =? hn then Some h else
      mid ← q_mid fuel head h;
      let '(new_head, h) := LIST_HEAD h in
      h ← INIT_LIST_HEAD new_head h;
      h ← list_cut_position new_head head mid h;
      h ← q_sort fuel head h;
      h ← q_sort fuel new_head h;
      h ← merge fuel head new_head h;
      Some (free_head new_head h)
  end.

(** ** Reading and writing links *)

Lemma nxt_set_next p v h h' q :
  set_next p v h = Some h' →
  nxt h' q = if decide (q = p) then Some v else nxt h q.
Proof.
  unfold set_next, nxt. destruct (links h !! p) eqn:E; simpl; [|done].
  intros [= <-]. simpl. destruct (decide (q = p)) as [->|].
  - by rewrite lookup_insert_eq.
  - by rewrite lookup_insert_ne.
Qed.

Lemma prv_set_next p v h h' q :
  set_next p v h = Some h' → prv h' q = prv h q.
Proof.
  unfold set_next, prv. destruct (links h !! p) eqn:E; simpl; [|done].
  intros [= <-]. simpl. destruct (decide (q = p)) as [->|].
  - by rewrite lookup_insert_eq, E.
  - by rewrite lookup_insert_ne.
Qed.

Lemma prv_set_prev p v h h' q :
  set_prev p v h = Some h' →
  prv h' q = if decide (q = p) then Some v else prv h q.
Proof.
  unfold set_prev, prv. destruct (links h !! p) eqn:E; simpl; [|done].
  intros [= <-]. simpl. destruct (decide (q = p)) as [->|].
  - by rewrite lookup_insert_eq.
  - by rewrite lookup_insert_ne.
Qed.

Lemma nxt_set_prev p v h h' q :
  set_prev p v h = Some h' → nxt h' q = nxt h q.
Proof.
  unfold set_prev, nxt. destruct (links h !! p) eqn:E; simpl; [|done].
  intros [= <-]. simpl. destruct (decide (q = p)) as [->|].
  - by rewrite lookup_insert_eq, E.
  - by rewrite lookup_insert_ne.
Qed.

Lemma vals_set_next p v h h' : set_next p v h = Some h' → vals h' = vals h.
Proof.
  unfold set_next. destruct (links h !! p); simpl; [|done]. by intros [= <-].
Qed.

Lemma vals_set_prev p v h h' : set_prev p v h = Some h' → vals h' = vals h.
Proof.
  unfold set_prev. destruct (links h !! p); simpl; [|done]. by intros [= <-].
Qed.

(** A live [struct list_head]: both fields can be read. *)
Definition alive (h : heap) (p : loc) : Prop := is_Some (links h !! p).

Lemma alive_nxt h p : alive h p ↔ is_Some (nxt h p).
Proof. unfold alive, nxt. by rewrite fmap_is_Some. Qed.

Lemma alive_prv h p : alive h p ↔ is_Some (prv h p).
Proof. unfold alive, prv. by rewrite fmap_is_Some. Qed.

Lemma nxt_alive h p q : nxt h p = Some q → alive h p.
Proof. intros E. apply alive_nxt. eauto. Qed.

Lemma prv_alive h p q : prv h p = Some q → alive h p.
Proof. intros E. apply alive_prv. eauto. Qed.

Lemma set_next_Some p v h : alive h p → ∃ h', set_next p v h = Some h'.
Proof. intros [n E]. unfold set_next. rewrite E. simpl. eauto. Qed.

Lemma set_prev_Some p v h : alive h p → ∃ h', set_prev p v h = Some h'.
Proof. intros [n E]. unfold set_prev. rewrite E. simpl. eauto. Qed.

Lemma alive_set_next p v h h' q :
  set_next p v h = Some h' → alive h' q ↔ alive h q.
Proof. intros E. by rewrite !alive_prv, (prv_set_next _ _ _ _ _ E). Qed.

Lemma alive_set_prev p v h h' q :
  set_prev p v h = Some h' → alive h' q ↔ alive h q.
Proof. intros E. by rewrite !alive_nxt, (nxt_set_prev _ _ _ _ _ E). Qed.

(** ** Rings *)

(** [x] and [y] are neighbours: [x->next == y] and [y->prev == x]. *)
Definition edge (h : heap) (x y : loc) : Prop :=
  nxt h x = Some y ∧ prv h y = Some x.

(** The nodes [x :: l] are linked in this order. *)
Fixpoint path (h : heap) (x : loc) (l : list loc) : Prop :=
  match l with
  | [] => True
  | y :: l' => edge h x y ∧ path h y l'
  end.

(** The nodes that a path leaves through. *)
Fixpoint srcs (x : loc) (l : list loc) : list loc :=
  match l with
  | [] => []
  | y :: l' => x :: srcs y l'
  end.

(** [head] is the sentinel of a ring whose elements are, in traversal order
    along [next], the nodes [l]. *)
Definition ring (h : heap) (head : loc) (l : list loc) : Prop :=
  (NULL ∉ head :: l) ∧ NoDup (head :: l) ∧ path h head (l ++ [head]).

Lemma last_cons {A} (x y : A) (l : list A) :
  List.last (y :: l) x = List.last l y.
Proof.
  revert x y. induction l as [|z l IH]; intros x y; [done|].
  change (List.last (z :: l) x = List.last (z :: l) y). by rewrite !IH.
Qed.

Lemma path_app h x l1 l2 :
  path h x (l1 ++ l2) ↔ path h x l1 ∧ path h (List.last l1 x) l2.
Proof.
  revert x. induction l1 as [|y l1 IH]; intros x; [simpl; tauto|].
  rewrite last_cons. simpl. rewrite IH. tauto.
Qed.

Lemma srcs_app x l1 l2 :
  srcs x (l1 ++ l2) = srcs x l1 ++ srcs (List.last l1 x) l2.
Proof.
  revert x. induction l1 as [|y l1 IH]; intros x; [done|].
  rewrite last_cons. simpl. by rewrite IH.
Qed.

Lemma srcs_snoc x l y : srcs x (l ++ [y]) = x :: l.
Proof.
  revert x. induction l as [|z l IH]; intros x; simpl; [done|].
  by rewrite IH.
Qed.

Lemma last_cons_snoc {A} (x : A) (l : list A) :
  ∃ l' y, x :: l = l' ++ [y] ∧ List.last l x = y.
Proof.
  revert x. induction l as [|z l IH]; intros x.
  - by exists [], x.
  - destruct (IH z) as (l' & y & E & L). exists (x :: l'), y.
    split; [by rewrite E|]. by rewrite last_cons.
Qed.

Lemma last_snoc_def {A} (l : list A) (x d : A) : List.last (l ++ [x]) d = x.
Proof. apply List.last_last. Qed.

Lemma last_elem_of {A} (l : list A) (d : A) : List.last l d ∈ d :: l.
Proof.
  revert d. induction l as [|x l IH]; intros d; [set_solver|].
  rewrite last_cons. specialize (IH x). set_solver.
Qed.

Lemma srcs_subseteq x l : srcs x l ⊆ x :: l.
Proof.
  revert x. induction l as [|y l IH]; intros x; simpl; [set_solver|].
  specialize (IH y). set_solver.
Qed.

Lemma last_not_srcs x l : NoDup (x :: l) → List.last l x ∉ srcs x l.
Proof.
  destruct (last_cons_snoc x l) as (l' & y & E & ->).
  rewrite E. intros ND.
  assert (srcs x l = l') as ->.
  { destruct l' as [|z l']; simpl in E.
    - destruct l; [done|]. by destruct l.
    - injection E as -> ->. apply srcs_snoc. }
  apply NoDup_app in ND as (_ & ND & _). intros Hin. apply (ND y Hin).
  set_solver.
Qed.

(** A path depends only on the [next] of its sources and the [prev] of its
    targets. *)
Lemma path_ext h h' x l :
  path h x l →
  (∀ a, a ∈ srcs x l → nxt h' a = nxt h a) →
  (∀ b, b ∈ l → prv h' b = prv h b) →
  path h' x l.
Proof.
  revert x. induction l as [|y l IH]; intros x; simpl; [done|].
  intros [[E1 E2] P] Hs Ht. split.
  - split; [rewrite Hs|rewrite Ht]; set_solver.
  - apply IH; [done|intros; apply Hs|intros; apply Ht]; set_solver.
Qed.

Lemma path_lookup h x l i a b :
  path h x l → (x :: l) !! i = Some a → l !! i = Some b → edge h a b.
Proof.
  revert x i. induction l as [|y l IH]; intros x i; simpl; [done|].
  intros [E P]. destruct i as [|i]; simpl.
  - by intros [= <-] [= <-].
  - apply IH, P.
Qed.

Lemma ring_edge h head l i a b :
  ring h head l →
  (head :: l) !! i = Some a → (l ++ [head]) !! i = Some b → edge h a b.
Proof.
  intros (_ & _ & P) Ha Hb. apply (path_lookup _ _ _ i _ _ P); [|done].
  change (((head :: l) ++ [head]) !! i = Some a).
  rewrite lookup_app_l; [done|]. by eapply lookup_lt_Some.
Qed.

Lemma ring_NoDup h head l : ring h head l → NoDup (head :: l).
Proof. by intros (_ & ? & _). Qed.

Lemma ring_not_NULL h head l x : ring h head l → x ∈ head :: l → x ≠ NULL.
Proof. intros (N & _ & _) Hin ->. done. Qed.

Lemma ring_nxt h head l i a b :
  ring h head l →
  (head :: l) !! i = Some a → (l ++ [head]) !! i = Some b → nxt h a = Some b.
Proof.
  intros R Ha Hb. by destruct (ring_edge _ _ _ _ _ _ R Ha Hb).
Qed.

Lemma ring_prv h head l i a b :
  ring h head l →
  (head :: l) !! i = Some a → (l ++ [head]) !! i = Some b → prv h b = Some a.
Proof.
  intros R Ha Hb. by destruct (ring_edge _ _ _ _ _ _ R Ha Hb).
Qed.

Lemma ring_nxt_head h head l :
  ring h head l → nxt h head = Some (hd head l).
Proof.
  intros R. apply (ring_nxt _ _ _ 0%nat _ _ R); [done|]. by destruct l.
Qed.

Lemma ring_prv_head h head l :
  ring h head l → prv h head = Some (List.last l head).
Proof.
  intros (_ & _ & P). apply path_app in P as [_ [[_ P] _]]. done.
Qed.

Lemma ring_alive h head l x : ring h head l → x ∈ head :: l → alive h x.
Proof.
  intros R Hin. apply list_elem_of_lookup in Hin as [i Hi].
  assert (is_Some ((l ++ [head]) !! i)) as [b Hb].
  { apply lookup_lt_is_Some. apply lookup_lt_Some in Hi.
    rewrite length_app. simpl in *. lia. }
  eapply nxt_alive, ring_nxt; eauto.
Qed.

Lemma list_empty_ring h head l :
  ring h head l → list_empty head h = Some (bool_decide (l = [])).
Proof.
  intros R. unfold list_empty. rewrite (ring_nxt_head _ _ _ R).
  destruct l as [|x l]; simpl.
  - by rewrite Z.eqb_refl.
  - apply ring_NoDup, NoDup_cons in R as [R _].
    f_equal. apply Z.eqb_neq. set_solver.
Qed.

(** Successors along the traversal [l ++ [head]]. *)
Lemma ring_next_at h head l i a b :
  ring h head l →
  (l ++ [head]) !! i = Some a → (l ++ [head]) !! S i = Some b →
  nxt h a = Some b.
Proof.
  intros R Ha Hb. apply (ring_nxt _ _ _ (S i) _ _ R); [|done]. simpl.
  apply lookup_lt_Some in Hb as Hlt. rewrite length_app in Hlt. simpl in Hlt.
  rewrite lookup_app_l in Ha by lia. done.
Qed.

Lemma ring_lookup_head h head l i :
  ring h head l → (l ++ [head]) !! i = Some head → i = length l.
Proof.
  intros R Hi. apply ring_NoDup in R.
  destruct (decide (i < length l)%nat) as [Hlt|Hge].
  - rewrite lookup_app_l in Hi by done. apply list_elem_of_lookup_2 in Hi.
    apply NoDup_cons in R as [R _]. done.
  - apply lookup_lt_Some in Hi. rewrite length_app in Hi. simpl in Hi. lia.
Qed.

Lemma ring_lookup_not_head h head l i x :
  ring h head l → (l ++ [head]) !! i = Some x → x ≠ head → l !! i = Some x.
Proof.
  intros R Hi Hne. destruct (decide (i < length l)%nat) as [Hlt|Hge].
  - by rewrite lookup_app_l in Hi.
  - rewrite lookup_app_r in Hi by lia.
    destruct (i - length l)%nat; simpl in Hi; [|done]. congruence.
Qed.

Lemma q_mid_loop_spec h head l mid :
  ring h head l →
  l !! ((length l - 1) / 2)%nat = Some mid →
  ∀ fuel i slow fast,
    l !! i = Some slow →
    (l ++ [head]) !! (2 * i + 1)%nat = Some fast →
    q_mid_loop fuel head slow fast h = Some mid ∨
    (q_mid_loop fuel head slow fast h = None ∧ (fuel + i < length l)%nat).
Proof.
  intros R Hmid fuel. induction fuel as [|fuel IH]; intros i slow fast Hs Hf.
  { right. split; [done|]. apply lookup_lt_Some in Hs. lia. }
  simpl.
  assert (fast ≠ NULL) as HN.
  { apply (ring_not_NULL _ _ _ _ R). apply list_elem_of_lookup_2 in Hf.
    set_solver. }
  rewrite (proj2 (Z.eqb_neq _ _) HN).
  destruct (Z.eqb_spec fast head) as [->|Hfh].
  { left. apply (ring_lookup_head _ _ _ _ R) in Hf.
    replace ((length l - 1) / 2)%nat with i in Hmid; [congruence|].
    rewrite <- Hf. replace (2 * i + 1 - 1)%nat with (i * 2)%nat by lia.
    by rewrite Nat.div_mul. }
  pose proof (ring_lookup_not_head _ _ _ _ _ R Hf Hfh) as Hf'.
  assert (is_Some ((l ++ [head]) !! S (2 * i + 1))) as [fn Hfn].
  { apply lookup_lt_is_Some. apply lookup_lt_Some in Hf'.
    rewrite length_app. simpl. lia. }
  rewrite (ring_next_at _ _ _ _ _ _ R Hf Hfn). simpl.
  destruct (Z.eqb_spec fn head) as [->|Hnh].
  { left. apply (ring_lookup_head _ _ _ _ R) in Hfn.
    replace ((length l - 1) / 2)%nat with i in Hmid; [congruence|].
    rewrite <- Hfn. replace (S (2 * i + 1) - 1)%nat with (1 + i * 2)%nat by lia.
    rewrite Nat.div_add by lia. done. }
  pose proof (ring_lookup_not_head _ _ _ _ _ R Hfn Hnh) as Hfn'.
  assert (is_Some ((l ++ [head]) !! S (S (2 * i + 1)))) as [fast' Hfast'].
  { apply lookup_lt_is_Some. apply lookup_lt_Some in Hfn'.
    rewrite length_app. simpl. lia. }
  rewrite (ring_next_at _ _ _ _ _ _ R Hfn Hfast'). simpl.
  assert (is_Some (l !! S i)) as [slow' Hslow'].
  { apply lookup_lt_is_Some. apply lookup_lt_Some in Hfn'. lia. }
  assert (nxt h slow = Some slow') as ->.
  { apply (ring_next_at _ _ _ i _ _ R).
    - rewrite lookup_app_l; [done|]. by eapply lookup_lt_Some.
    - rewrite lookup_app_l; [done|]. by eapply lookup_lt_Some. }
  simpl.
  destruct (IH (S i) slow' fast' Hslow') as [?|[? ?]]; [|by left|right].
  - replace (2 * S i + 1)%nat with (S (S (2 * i + 1))) by lia. done.
  - split; [done|lia].
Qed.

(** [q_mid] returns the element at index [(n - 1) / 2] of a ring of [n >= 1]
    elements, whenever the fuel covers the walk. *)
Lemma q_mid_spec h head l mid fuel :
  ring h head l →
  l !! ((length l - 1) / 2)%nat = Some mid →
  q_mid fuel head h = Some mid ∨
  (q_mid fuel head h = None ∧ (fuel < length l)%nat).
Proof.
  intros R Hmid. unfold q_mid.
  assert (head ≠ NULL) as HN by (apply (ring_not_NULL _ _ _ _ R); set_solver).
  rewrite (proj2 (Z.eqb_neq _ _) HN).
  rewrite (list_empty_ring _ _ _ R).
  destruct l as [|x l]; [done|]. simpl.
  rewrite (ring_nxt_head _ _ _ R). simpl.
  assert (is_Some ((x :: l ++ [head]) !! 1%nat)) as [fast Hfast].
  { apply lookup_lt_is_Some. simpl. rewrite length_app. simpl. lia. }
  rewrite (ring_next_at _ _ _ 0%nat x fast R); [|done|done]. simpl.
  destruct (q_mid_loop_spec _ _ _ _ R Hmid fuel 0%nat x fast) as [?|[? ?]];
    [done|done|by left|right].
  split; [done|]. simpl in *. lia.
Qed.

(** ** Symbolic execution of link updates *)

(** What is left unchanged between two stores: the payloads, and the links of
    every node outside [F]. *)
Definition frame (F : list loc) (h h' : heap) : Prop :=
  vals h' = vals h ∧
  ∀ q, q ∉ F → nxt h' q = nxt h q ∧ prv h' q = prv h q.

Lemma frame_refl F h : frame F h h.
Proof. by split. Qed.

Lemma frame_trans F h1 h2 h3 : frame F h1 h2 → frame F h2 h3 → frame F h1 h3.
Proof.
  intros [V1 L1] [V2 L2]. split; [congruence|]. intros q Hq.
  destruct (L1 q Hq), (L2 q Hq). split; congruence.
Qed.

Lemma frame_weaken F G h h' : frame F h h' → F ⊆ G → frame G h h'.
Proof. intros [V L] HFG. split; [done|]. intros q Hq. apply L. set_solver. Qed.

Lemma frame_alive F h h' q : frame F h h' → q ∉ F → alive h' q ↔ alive h q.
Proof. intros [_ L] Hq. destruct (L q Hq) as [E _]. by rewrite !alive_nxt, E. Qed.

Lemma ring_frame F h h' head l :
  ring h head l → frame F h h' → (∀ x, x ∈ head :: l → x ∉ F) → ring h' head l.
Proof.
  intros (N & ND & P) [_ L] HF. split; [done|]. split; [done|].
  apply (path_ext _ _ _ _ P).
  - intros a Ha. apply L, HF. rewrite srcs_snoc in Ha. done.
  - intros b Hb. apply L, HF. set_solver.
Qed.

Ltac exec_set :=
  match goal with
  | |- context [set_next ?p ?v ?h] =>
      let h' := fresh "h" in
      let E := fresh "E" in
      assert (∃ h', set_next p v h = Some h') as [h' E];
      [apply set_next_Some|rewrite E; simpl]
  | |- context [set_prev ?p ?v ?h] =>
      let h' := fresh "h" in
      let E := fresh "E" in
      assert (∃ h', set_prev p v h = Some h') as [h' E];
      [apply set_prev_Some|rewrite E; simpl]
  end.

Ltac links_simpl :=
  repeat match goal with
  | E : set_next _ _ _ = Some ?h' |- context [nxt ?h' ?q] =>
      rewrite (nxt_set_next _ _ _ _ q E)
  | E : set_next _ _ _ = Some ?h' |- context [prv ?h' ?q] =>
      rewrite (prv_set_next _ _ _ _ q E)
  | E : set_prev _ _ _ = Some ?h' |- context [nxt ?h' ?q] =>
      rewrite (nxt_set_prev _ _ _ _ q E)
  | E : set_prev _ _ _ = Some ?h' |- context [prv ?h' ?q] =>
      rewrite (prv_set_prev _ _ _ _ q E)
  | E : set_next _ _ _ = Some ?h' |- context [vals ?h'] =>
      rewrite (vals_set_next _ _ _ _ E)
  | E : set_prev _ _ _ = Some ?h' |- context [vals ?h'] =>
      rewrite (vals_set_prev _ _ _ _ E)
  | E : set_next _ _ _ = Some ?h' |- context [alive ?h' ?q] =>
      rewrite (alive_set_next _ _ _ _ q E)
  | E : set_prev _ _ _ = Some ?h' |- context [alive ?h' ?q] =>
      rewrite (alive_set_prev _ _ _ _ q E)
  end.

(** Decomposition of the no-duplication and membership facts of a proof
    state into facts that [set_solver] reads. *)
Ltac nodup_split :=
  repeat match goal with
  | H : NoDup (_ :: _) |- _ => apply NoDup_cons in H as [? ?]
  | H : NoDup (_ ++ _) |- _ => apply NoDup_app in H as (? & ? & ?)
  | H : NoDup [] |- _ => clear H
  end.

(** Membership goals are decided from the list facts alone. *)
Ltac clear_heap :=
  repeat match goal with
  | H : context [path _ _ _] |- _ => clear H
  | H : context [ring _ _ _] |- _ => clear H
  | H : context [nxt _ _] |- _ => clear H
  | H : context [prv _ _] |- _ => clear H
  | H : context [set_next _ _ _] |- _ => clear H
  | H : context [set_prev _ _ _] |- _ => clear H
  | H : context [alive _ _] |- _ => clear H
  | H : context [frame _ _ _] |- _ => clear H
  | H : _ ++ _ = _ |- _ => clear H
  | H : srcs _ _ = _ |- _ => clear H
  | H : List.last _ _ = _ |- _ => clear H
  | x := _ |- _ => clearbody x
  end.

Ltac lsolve := clear_heap; timeout 10 set_solver.

(** The same for goals that start with a quantified element: the facts
    about all elements are used at that element. *)
Ltac zsolve :=
  let z := fresh "z" in
  intros z;
  repeat match goal with H : ∀ _ : Z, _ |- _ => specialize (H z) end;
  timeout 10 set_solver.

Ltac decide_links :=
  repeat match goal with
  | |- context [decide (?a = ?b)] =>
      first [ rewrite (decide_True (P := a = b)) by (done || congruence)
            | rewrite (decide_False (P := a = b)) by lsolve ]
  end.

Lemma ring_list_del h head l1 x l2 :
  ring h head (l1 ++ x :: l2) →
  ∃ h', list_del x h = Some h' ∧ ring h' head (l1 ++ l2) ∧
        frame (head :: l1 ++ l2) h h'.
Proof.
  intros R. pose proof R as (N & ND & P).
  rewrite <- app_assoc in P. apply path_app in P as [P1 P2].
  simpl in P2. destruct P2 as [[Ep1 Ep2] P2].
  set (p := List.last l1 head) in *.
  assert (Hp : p ∈ head :: l1) by apply last_elem_of.
  assert (Hps : p ∉ srcs head l1).
  { apply last_not_srcs. change (NoDup ((head :: l1) ++ x :: l2)) in ND.
    by apply NoDup_app in ND as (? & _ & _). }
  assert (∃ n r, l2 ++ [head] = n :: r ∧ n ∈ head :: l2 ∧ n ∉ r
                 ∧ r ⊆ head :: l2 ∧ srcs n r ⊆ l2)
    as (n & r & Er & Hn & Hnr & Hr & Hsr).
  { destruct l2 as [|n l2]; simpl.
    - exists head, []. lsolve.
    - exists n, (l2 ++ [head]). rewrite srcs_snoc. nodup_split.
      repeat split; lsolve. }
  rewrite Er in P2. simpl in P2. destruct P2 as [[En1 En2] P2].
  unfold list_del. rewrite En1, Ep2. simpl.
  exec_set; [by eapply prv_alive|].
  exec_set; [links_simpl; by eapply nxt_alive|].
  eexists. split; [done|]. nodup_split. split.
  - split; [lsolve|]. split.
    { apply NoDup_cons. split; [lsolve|]. apply NoDup_app. lsolve. }
    rewrite <- app_assoc, Er. apply path_app. split.
    + apply (path_ext _ _ _ _ P1).
      * intros a Ha. links_simpl. rewrite decide_False; [done|].
        by intros ->.
      * intros b Hb. links_simpl. rewrite decide_False; [done|]. lsolve.
    + fold p. simpl. split.
      * split; links_simpl; by rewrite decide_True.
      * apply (path_ext _ _ _ _ P2).
        -- intros a Ha. links_simpl. rewrite decide_False; [done|]. lsolve.
        -- intros b Hb. links_simpl. rewrite decide_False; [done|]. lsolve.
  - split; [by links_simpl|]. intros q Hq. links_simpl.
    rewrite !decide_False; [done| |]; lsolve.
Qed.

(** A traversal [l ++ [z]] seen from its first node. *)
Lemma snoc_as_cons (l : list loc) (z : loc) :
  NoDup (l ++ [z]) →
  ∃ f r, l ++ [z] = f :: r ∧ f = hd z l ∧ srcs f r = l ∧ List.last r f = z
         ∧ f ∈ l ++ [z] ∧ f ∉ r ∧ r ⊆ l ++ [z] ∧ NoDup r.
Proof.
  intros ND. destruct l as [|f l]; simpl.
  - exists z, []. repeat split; [set_solver..|constructor].
  - exists f, (l ++ [z]). simpl in ND. apply NoDup_cons in ND as [? ?].
    rewrite srcs_snoc, last_snoc_def. repeat split; [set_solver..|done].
Qed.

Lemma ring_NoDup_snoc h head l : ring h head l → NoDup (l ++ [head]).
Proof.
  intros R. apply ring_NoDup in R. apply NoDup_cons in R as [? ?].
  apply NoDup_app. repeat split; [done|set_solver|apply NoDup_singleton].
Qed.

Ltac alive_solve :=
  links_simpl;
  first [assumption | by eapply nxt_alive | by eapply prv_alive].

Ltac frame_solve :=
  split; [by links_simpl|]; intros ? ?; links_simpl; decide_links; done.

Ltac ext_solve P :=
  apply (path_ext _ _ _ _ P); intros ? ?; links_simpl; decide_links; done.

Ltac edge_solve := split; links_simpl; decide_links; done.

Lemma ring_INIT h d :
  alive h d → d ≠ NULL →
  ∃ h', INIT_LIST_HEAD d h = Some h' ∧ ring h' d [] ∧ frame [d] h h'.
Proof.
  intros A N. unfold INIT_LIST_HEAD.
  exec_set; [done|]. exec_set; [by links_simpl|].
  eexists. split; [done|]. split.
  - split; [set_solver|]. split; [apply NoDup_singleton|].
    simpl. split; [|done]. edge_solve.
  - frame_solve.
Qed.

Lemma ring_list_add_tail h head l x :
  ring h head l → alive h x → x ∉ head :: l → x ≠ NULL →
  ∃ h', list_add_tail x head h = Some h' ∧ ring h' head (l ++ [x]) ∧
        frame (x :: head :: l) h h'.
Proof.
  intros R A Hx N. pose proof R as (N' & ND & P).
  apply path_app in P as [P1 [[Ep1 Ep2] _]].
  set (p := List.last l head) in *.
  assert (Hp : p ∈ head :: l) by apply last_elem_of.
  assert (Hps : p ∉ srcs head l) by by apply last_not_srcs.
  pose proof (srcs_subseteq head l) as Hs.
  unfold list_add_tail. rewrite Ep2. simpl.
  exec_set; [by eapply nxt_alive|].
  exec_set; [by links_simpl|].
  exec_set; [by links_simpl|].
  exec_set; [links_simpl; by eapply prv_alive|].
  eexists. split; [done|]. nodup_split. split.
  - split; [lsolve|]. split.
    { apply NoDup_cons. split; [lsolve|]. apply NoDup_app.
      repeat split; [done|lsolve|apply NoDup_singleton]. }
    rewrite <- app_assoc. apply path_app. split; [ext_solve P1|].
    fold p. simpl. repeat split; links_simpl; decide_links; done.
  - frame_solve.
Qed.

Lemma ring_list_add h head l x :
  ring h head l → alive h x → x ∉ head :: l → x ≠ NULL →
  ∃ h', list_add x head h = Some h' ∧ ring h' head (x :: l) ∧
        frame (x :: head :: l) h h'.
Proof.
  intros R A Hx N. pose proof R as (N' & ND & P).
  destruct (snoc_as_cons l head (ring_NoDup_snoc _ _ _ R))
    as (n & r & Er & _ & Hsr & _ & Hn & Hnr & Hr & _).
  rewrite Er in P. destruct P as [[En1 En2] P].
  unfold list_add. rewrite En1. simpl.
  exec_set; [by eapply prv_alive|].
  exec_set; [by links_simpl|].
  exec_set; [by links_simpl|].
  exec_set; [links_simpl; by eapply nxt_alive|].
  eexists. split; [done|]. nodup_split. split.
  - split; [lsolve|]. split.
    { apply NoDup_cons. split; [lsolve|]. apply NoDup_cons. lsolve. }
    simpl. rewrite Er. simpl. split; [edge_solve|]. split; [edge_solve|].
    rewrite <- Hsr in *. ext_solve P.
  - frame_solve.
Qed.

Lemma ring_list_move_tail h a l1 x l2 d acc :
  ring h a (l1 ++ x :: l2) → ring h d acc →
  (a :: l1 ++ x :: l2) ## (d :: acc) →
  ∃ h', list_move_tail x d h = Some h' ∧
        ring h' a (l1 ++ l2) ∧ ring h' d (acc ++ [x]) ∧
        frame ((a :: l1 ++ x :: l2) ++ d :: acc) h h'.
Proof.
  intros Ra Rd D.
  destruct (ring_list_del _ _ _ _ _ Ra) as (h1 & E1 & Ra1 & F1).
  pose proof (ring_NoDup _ _ _ Ra) as ND.
  assert (Hx : x ∉ a :: l1 ++ l2).
  { change (NoDup ((a :: l1) ++ x :: l2)) in ND.
    apply NoDup_app in ND as (_ & ND1 & ND2).
    apply NoDup_cons in ND2 as [? _]. set_solver. }
  assert (Rd1 : ring h1 d acc).
  { apply (ring_frame _ _ _ _ _ Rd F1). lsolve. }
  assert (A : alive h1 x).
  { apply (frame_alive _ _ _ _ F1 Hx).
    apply (ring_alive _ _ _ _ Ra). set_solver. }
  destruct (ring_list_add_tail _ _ _ x Rd1 A) as (h2 & E2 & Rd2 & F2).
  { lsolve. }
  { apply (ring_not_NULL _ _ _ _ Ra). set_solver. }
  exists h2. unfold list_move_tail. rewrite E1. simpl. split; [done|].
  split; [|split; [done|]].
  - apply (ring_frame _ _ _ _ _ Ra1 F2). lsolve.
  - eapply frame_trans; eapply frame_weaken; eauto; set_solver.
Qed.

Lemma ring_list_splice_tail_init h src ls head l :
  ring h src ls → ring h head l → (src :: ls) ## (head :: l) →
  ∃ h', list_splice_tail_init src head h = Some h' ∧
        ring h' src [] ∧ ring h' head (l ++ ls) ∧
        frame ((src :: ls) ++ head :: l) h h'.
Proof.
  intros Rs Rh D. unfold list_splice_tail_init.
  rewrite (ring_prv_head _ _ _ Rh), (ring_nxt_head _ _ _ Rs),
    (ring_prv_head _ _ _ Rs), (list_empty_ring _ _ _ Rs).
  assert (Ns : src ≠ NULL) by (apply (ring_not_NULL _ _ _ _ Rs); set_solver).
  assert (As : alive h src) by (apply (ring_alive _ _ _ _ Rs); set_solver).
  destruct ls as [|f ls].
  { simpl. destruct (ring_INIT _ _ As Ns) as (h' & E & R' & F).
    exists h'. split; [done|]. split; [done|]. rewrite app_nil_r. split.
    - apply (ring_frame _ _ _ _ _ Rh F). lsolve.
    - eapply frame_weaken; [done|set_solver]. }
  pose proof Rs as (N1 & ND1 & P1). pose proof Rh as (N2 & ND2 & P2).
  simpl in P1. destruct P1 as [[Ef1 Ef2] P1].
  apply path_app in P1 as [P1 [[Et1 Et2] _]].
  apply path_app in P2 as [P2 [[Ep1 Ep2] _]].
  rewrite last_cons. cbn [hd mbind option_bind bool_decide decide_rel].
  set (p := List.last l head) in *. set (t := List.last ls f) in *.
  assert (Hp : p ∈ head :: l) by apply last_elem_of.
  assert (Ht : t ∈ f :: ls) by apply last_elem_of.
  assert (Hps : p ∉ srcs head l) by by apply last_not_srcs.
  assert (Hts : t ∉ srcs f ls).
  { apply last_not_srcs. by apply NoDup_cons in ND1 as [_ ?]. }
  pose proof (srcs_subseteq head l) as Hs1.
  pose proof (srcs_subseteq f ls) as Hs2.
  unfold INIT_LIST_HEAD. rewrite bool_decide_eq_false_2 by done.
  do 6 (exec_set; [alive_solve|]).
  eexists. split; [done|]. nodup_split. split; [|split].
  - split; [lsolve|]. split; [apply NoDup_singleton|].
    simpl. split; [edge_solve|done].
  - split; [lsolve|]. split.
    { apply NoDup_cons. split; [lsolve|]. apply NoDup_app.
      split; [done|]. split; [lsolve|]. apply NoDup_cons. done. }
    rewrite <- app_assoc. apply path_app. split; [ext_solve P2|].
    fold p. simpl. split; [edge_solve|].
    apply path_app. split; [ext_solve P1|].
    fold t. simpl. split; [edge_solve|done].
  - frame_solve.
Qed.

Lemma ring_list_splice h src ls head l :
  ring h src ls → ring h head l → (src :: ls) ## (head :: l) →
  ∃ h', list_splice src head h = Some h' ∧
        ring h' src [] ∧ ring h' head (ls ++ l) ∧
        frame ((src :: ls) ++ head :: l) h h'.
Proof.
  intros Rs Rh D. unfold list_splice.
  rewrite (ring_nxt_head _ _ _ Rh), (ring_nxt_head _ _ _ Rs),
    (ring_prv_head _ _ _ Rs), (list_empty_ring _ _ _ Rs).
  destruct ls as [|f ls].
  { simpl. exists h. split; [done|]. split; [done|]. split; [done|].
    apply frame_refl. }
  pose proof Rs as (N1 & ND1 & P1). pose proof Rh as (N2 & ND2 & P2).
  destruct (snoc_as_cons l head (ring_NoDup_snoc _ _ _ Rh))
    as (n & r & Er & <- & Hsr & _ & Hn & Hnr & Hr & NDr).
  simpl in P1. destruct P1 as [[Ef1 Ef2] P1].
  apply path_app in P1 as [P1 [[Et1 Et2] _]].
  rewrite Er in P2. destruct P2 as [[En1 En2] P2].
  rewrite last_cons. cbn [hd mbind option_bind].
  set (t := List.last ls f) in *.
  assert (Ht : t ∈ f :: ls) by apply last_elem_of.
  assert (Hts : t ∉ srcs f ls).
  { apply last_not_srcs. by apply NoDup_cons in ND1 as [_ ?]. }
  pose proof (srcs_subseteq f ls) as Hs2.
  unfold INIT_LIST_HEAD. rewrite bool_decide_eq_false_2 by done.
  do 6 (exec_set; [alive_solve|]).
  eexists. split; [done|]. nodup_split. split; [|split].
  - split; [lsolve|]. split; [apply NoDup_singleton|].
    simpl. split; [edge_solve|done].
  - split; [lsolve|]. split.
    { apply NoDup_cons. split; [lsolve|]. apply NoDup_cons.
      split; [lsolve|]. apply NoDup_app. split; [done|].
      split; [lsolve|done]. }
    simpl. rewrite <- app_assoc, Er. split; [edge_solve|].
    apply path_app. split; [ext_solve P1|].
    fold t. simpl. split; [edge_solve|]. rewrite <- Hsr in *. ext_solve P2.
  - frame_solve.
Qed.

Lemma ring_list_cut_position h new head l1 mid l2 :
  ring h head (l1 ++ mid :: l2) → ring h new [] →
  new ∉ head :: l1 ++ mid :: l2 →
  ∃ h', list_cut_position new head mid h = Some h' ∧
        ring h' new (l1 ++ [mid]) ∧ ring h' head l2 ∧
        frame (new :: head :: l1 ++ mid :: l2) h h'.
Proof.
  intros Rh Rn D. unfold list_cut_position.
  rewrite (ring_nxt_head _ _ _ Rh), (list_empty_ring _ _ _ Rh).
  pose proof Rh as (N1 & ND1 & P1). pose proof Rn as (N2 & _ & P2).
  assert (An : alive h new) by (apply (ring_alive _ _ _ _ Rn); set_solver).
  assert (NoDup (l1 ++ [mid]) ∧ NoDup (l2 ++ [head])) as [NDa NDb].
  { nodup_split. split; apply NoDup_app; repeat split;
      try done; try apply NoDup_singleton; lsolve. }
  destruct (snoc_as_cons l1 mid NDa)
    as (f & r1 & Er1 & Ef & Hsr1 & Hl1 & Hf & Hfr & Hr1 & NDr1).
  destruct (snoc_as_cons l2 head NDb)
    as (n & r2 & Er2 & _ & Hsr2 & _ & Hn & Hnr & Hr2 & NDr2).
  assert (Ehd : hd head (l1 ++ mid :: l2) = f).
  { rewrite Ef. by destruct l1. }
  clear Ef. rewrite Ehd. clear Ehd. cbn [mbind option_bind].
  rewrite bool_decide_eq_false_2 by (by destruct l1).
  assert (Hhm : head ≠ mid) by (nodup_split; lsolve).
  rewrite (proj2 (Z.eqb_neq _ _) Hhm).
  replace ((l1 ++ mid :: l2) ++ [head]) with ((l1 ++ [mid]) ++ (l2 ++ [head]))
    in P1 by (by rewrite <- !app_assoc).
  rewrite Er1, Er2 in P1. simpl in P1. destruct P1 as [[Ef1 Ef2] P1].
  apply path_app in P1 as [P1 P3]. rewrite Hl1 in P3.
  destruct P3 as [[En1 En2] P3].
  rewrite En1. cbn [mbind option_bind].
  do 6 (exec_set; [alive_solve|]).
  eexists. split; [done|]. nodup_split. split; [|split].
  - split; [lsolve|]. split.
    { apply NoDup_cons. split; [lsolve|]. rewrite Er1.
      by apply NoDup_cons. }
    rewrite Er1. simpl. split; [edge_solve|].
    apply path_app. split; [rewrite <- Hsr1 in *; ext_solve P1|].
    rewrite Hl1. simpl. split; [edge_solve|done].
  - split; [lsolve|]. split.
    { apply NoDup_cons. split; [lsolve|done]. }
    rewrite Er2. simpl.
    split; [edge_solve|].
    rewrite <- Hsr2 in *. ext_solve P3.
  - frame_solve.
Qed.

(** ** Runs with fuel

    [ensures o low Post]: the run [o] either returns a result that satisfies
    [Post], or it stops without one and then only because the fuel was
    [low]. *)
Definition ensures {A} (o : option A) (low : Prop) (Post : A → Prop) : Prop :=
  (∃ r, o = Some r ∧ Post r) ∨ (o = None ∧ low).

Lemma ensures_Some {A} (r : A) (low : Prop) (Post : A → Prop) :
  Post r → ensures (Some r) low Post.
Proof. intros. left. eauto. Qed.

Lemma ensures_bind {A B} (m : option A) (k : A → option B) low low' P Q :
  ensures m low P →
  (∀ r, P r → ensures (k r) low' Q) →
  (low → low') →
  ensures (m ≫= k) low' Q.
Proof.
  intros [(r & -> & HP)|[-> Hl]] Hk Hll; simpl.
  - by apply Hk.
  - right. auto.
Qed.

Lemma ensures_weaken {A} (o : option A) low low' (P Q : A → Prop) :
  ensures o low P → (low → low') → (∀ r, P r → Q r) → ensures o low' Q.
Proof.
  intros [(r & -> & HP)|[-> Hl]] Hll HPQ.
  - left. eauto.
  - right. auto.
Qed.

Lemma ensures_total {A} (o : option A) low (P : A → Prop) :
  ensures o low P → ¬ low → ∃ r, o = Some r ∧ P r.
Proof. intros [?|[_ ?]] ?; [done|tauto]. Qed.

Lemma ensures_partial {A} (o : option A) low (P : A → Prop) r :
  ensures o low P → o = Some r → P r.
Proof. intros [(r' & -> & HP)|[-> _]]; [by intros [= <-]|done]. Qed.

Lemma q_mid_ensures h head l mid fuel :
  ring h head l →
  l !! ((length l - 1) / 2)%nat = Some mid →
  ensures (q_mid fuel head h) (fuel < length l)%nat (λ r, r = mid).
Proof.
  intros R Hm. destruct (q_mid_spec _ _ _ _ fuel R Hm) as [E|[E ?]].
  - left. eauto.
  - by right.
Qed.

(** The links of a node in the middle of a ring. *)
Lemma ring_mid_links h head l1 x l2 :
  ring h head (l1 ++ x :: l2) →
  nxt h x = Some (hd head l2) ∧ prv h x = Some (List.last l1 head).
Proof.
  intros (_ & _ & P). rewrite <- app_assoc in P.
  apply path_app in P as [_ [[_ Ep] P]]. split; [|done].
  destruct l2; simpl in P; by destruct P as [[? _] _].
Qed.

Lemma links_ext (h h' : heap) :
  vals h' = vals h →
  (∀ q, nxt h' q = nxt h q ∧ prv h' q = prv h q) →
  h' = h.
Proof.
  destruct h as [m v], h' as [m' v']. simpl. intros -> H. f_equal.
  apply map_eq. intros q. destruct (H q) as [Hn Hp].
  unfold nxt, prv in *. simpl in *.
  destruct (m' !! q) as [[p1 n1]|], (m !! q) as [[p2 n2]|];
    simpl in *; congruence.
Qed.

(** ** Reversal *)

(** The nodes of [S] have their two links exchanged; nothing else differs. *)
Definition swapped (S : list loc) (h0 h : heap) : Prop :=
  vals h = vals h0 ∧
  ∀ q, (q ∈ S → nxt h q = prv h0 q ∧ prv h q = nxt h0 q) ∧
       (q ∉ S → nxt h q = nxt h0 q ∧ prv h q = prv h0 q).

Lemma path_swapped h h' x l z :
  path h x (l ++ [z]) →
  (∀ q, q ∈ x :: l ++ [z] → nxt h' q = prv h q ∧ prv h' q = nxt h q) →
  path h' z (rev l ++ [x]).
Proof.
  revert x. induction l as [|y l IH]; intros x P Hs.
  - simpl in *. destruct P as [[E1 E2] _]. split; [|done]. split.
    + destruct (Hs z) as [-> _]; [set_solver|done].
    + destruct (Hs x) as [_ ->]; [set_solver|done].
  - simpl in P. destruct P as [[E1 E2] P]. simpl.
    apply path_app. split.
    + apply (IH y P). intros q Hq. apply Hs. set_solver.
    + rewrite last_snoc_def. simpl. split; [|done]. split.
      * destruct (Hs y) as [-> _]; [set_solver|done].
      * destruct (Hs x) as [_ ->]; [set_solver|done].
Qed.

Lemma elem_of_rev {A} (x : A) (l : list A) : x ∈ rev l ↔ x ∈ l.
Proof. rewrite !list_elem_of_In. symmetry. apply in_rev. Qed.

Lemma NoDup_rev_2 {A} (l : list A) : NoDup l → NoDup (rev l).
Proof. rewrite !NoDup_ListNoDup. apply List.NoDup_rev. Qed.

Lemma ring_swapped h h' head l :
  ring h head l → swapped (head :: l) h h' → ring h' head (rev l).
Proof.
  intros (N & ND & P) [_ Hs]. split; [|split].
  - rewrite not_elem_of_cons in *. by rewrite elem_of_rev.
  - apply NoDup_cons in ND as [? ?]. apply NoDup_cons.
    rewrite elem_of_rev. split; [done|]. by apply NoDup_rev_2.
  - apply (path_swapped _ _ _ _ _ P). intros q Hq. apply Hs. set_solver.
Qed.

Lemma q_reverse_loop_spec h0 head l :
  ring h0 head l →
  ∀ fuel l1 l2 h node safe,
    l = l1 ++ l2 → swapped l1 h0 h →
    node = hd head l2 → nxt h0 node = Some safe →
    ensures (q_reverse_loop fuel head node safe h) (fuel ≤ length l2)%nat
            (λ h', swapped l h0 h').
Proof.
  intros R fuel. induction fuel as [|fuel IH];
    intros l1 l2 h node safe El S0 -> Hsafe.
  { right. split; [done|lia]. }
  simpl. destruct l2 as [|y l2]; simpl.
  { rewrite Z.eqb_refl. apply ensures_Some. by rewrite El, app_nil_r. }
  subst l. pose proof (ring_NoDup _ _ _ R) as ND.
  destruct (ring_mid_links _ _ _ _ _ R) as [En Ep].
  simpl in Hsafe. rewrite En in Hsafe. injection Hsafe as <-.
  assert (Hyh : y ≠ head) by (nodup_split; lsolve).
  rewrite (proj2 (Z.eqb_neq _ _) Hyh).
  destruct S0 as [V0 S0].
  assert (Hy1 : y ∉ l1) by (nodup_split; lsolve).
  destruct (proj2 (S0 y) Hy1) as [En' Ep']. rewrite Ep', Ep, En', En. simpl.
  assert (Ay : alive h y) by (apply alive_nxt; rewrite En', En; eauto).
  do 2 (exec_set; [alive_solve|]).
  set (safe := hd head l2) in *.
  assert (Hs1 : safe ∉ l1 ++ [y]).
  { subst safe. nodup_split. destruct l2; simpl; lsolve. }
  assert (is_Some (nxt h0 safe)) as [safe' Hsafe'].
  { apply alive_nxt, (ring_alive _ _ _ _ R).
    subst safe. destruct l2; simpl; set_solver. }
  assert (nxt h2 safe = Some safe') as ->.
  { links_simpl. rewrite decide_False by set_solver.
    destruct (proj2 (S0 safe)) as [-> _]; [set_solver|done]. }
  simpl. eapply ensures_weaken.
  - apply (IH (l1 ++ [y]) l2 h2 safe safe'); [by rewrite <- app_assoc| |done..].
    split; [by links_simpl|]. intros q. split; intros Hq.
    + links_simpl. destruct (decide (q = y)) as [->|Hne]; [done|].
      apply S0. set_solver.
    + links_simpl. rewrite !decide_False by set_solver.
      apply S0. set_solver.
  - simpl. lia.
  - done.
Qed.

Lemma q_reverse_spec h head l fuel :
  ring h head l →
  ensures (q_reverse fuel head h) (fuel ≤ length l)%nat
          (λ h', ring h' head (rev l) ∧ swapped (head :: l) h h').
Proof.
  intros R. unfold q_reverse.
  assert (head ≠ NULL) as HN by (apply (ring_not_NULL _ _ _ _ R); set_solver).
  rewrite (proj2 (Z.eqb_neq _ _) HN), (list_empty_ring _ _ _ R). simpl.
  destruct l as [|x l].
  { simpl. apply ensures_Some. split; [done|]. split; [done|].
    intros q. split; [|done]. intros ->%list_elem_of_singleton.
    destruct R as (_ & _ & [[-> ->] _]). done. }
  rewrite bool_decide_eq_false_2 by done.
  rewrite (ring_nxt_head _ _ _ R). simpl.
  destruct (ring_mid_links _ _ [] x l R) as [En _]. rewrite En. simpl.
  eapply ensures_bind.
  - apply (q_reverse_loop_spec _ _ _ R fuel [] (x :: l)); try done.
    split; [done|]. intros q. split; [set_solver|done].
  - intros h1 [V1 S1]. simpl.
    pose proof (ring_NoDup _ _ _ R) as ND.
    assert (Hh : head ∉ x :: l) by (nodup_split; lsolve).
    destruct (proj2 (S1 head) Hh) as [-> ->].
    rewrite (ring_nxt_head _ _ _ R), (ring_prv_head _ _ _ R). simpl.
    assert (Ah : alive h1 head).
    { apply alive_nxt. destruct (proj2 (S1 head) Hh) as [-> _].
      rewrite (ring_nxt_head _ _ _ R). eauto. }
    do 2 (exec_set; [alive_solve|]).
    apply ensures_Some.
    assert (swapped (head :: x :: l) h h2) as Sw.
    { split; [by links_simpl|]. intros q. split; intros Hq.
      - links_simpl. destruct (decide (q = head)) as [->|Hne].
        + by rewrite (ring_nxt_head _ _ _ R), (ring_prv_head _ _ _ R).
        + apply S1. set_solver.
      - links_simpl. rewrite !decide_False by set_solver.
        apply S1. set_solver. }
    split; [|done]. by apply (ring_swapped _ _ _ _ R).
  - done.
Qed.

(** ** Payloads *)

(** Every element of [l] owns a payload buffer. *)
Definition has_vals (h : heap) (l : list loc) : Prop :=
  ∀ x, x ∈ l → is_Some (vals h !! x).

(** The payload of an element. *)
Definition key (h : heap) (x : loc) : list byte := default [] (vals h !! x).

(** The comparison [cmp] computes on two elements that own payloads. *)
Definition cmpk (h : heap) (x y : loc) : Z := strcmp (key h x) (key h y).

Lemma cmp_cmpk h x y :
  is_Some (vals h !! x) → is_Some (vals h !! y) →
  cmp x y h = Some (cmpk h x y).
Proof.
  intros [a Ha] [b Hb]. unfold cmp, cmpk, key. by rewrite Ha, Hb.
Qed.

Lemma ring_links_eq h h' head l :
  links h' = links h → ring h head l → ring h' head l.
Proof.
  intros E (N & ND & P). split; [done|]. split; [done|].
  apply (path_ext _ _ _ _ P); intros; unfold nxt, prv; by rewrite E.
Qed.

Lemma set_value_Some e v h v0 :
  vals h !! e = Some v0 →
  set_value e v h = Some (Heap (links h) (<[e:=v]> (vals h))).
Proof. intros E. unfold set_value. by rewrite E. Qed.

(** ** Pairwise swap *)

(** Exchange of the members of each adjacent pair; an odd last member
    stays. *)
Fixpoint swap_pairs {A} (l : list A) : list A :=
  match l with
  | x :: y :: l' => y :: x :: swap_pairs l'
  | _ => l
  end.

Lemma q_swap_loop_spec head :
  ∀ fuel h l1 l2,
    ring h head (l1 ++ l2) → has_vals h l2 →
    ensures (q_swap_loop fuel head (hd head l2) h) (fuel ≤ length l2)%nat
      (λ h', links h' = links h ∧
             key h' <$> l2 = swap_pairs (key h <$> l2) ∧
             has_vals h' l2 ∧
             ∀ x, x ∉ l2 → vals h' !! x = vals h !! x).
Proof.
  intros fuel. induction fuel as [|fuel IH]; intros h l1 l2 R V.
  { right. split; [done|lia]. }
  simpl. destruct l2 as [|x l2]; simpl.
  { rewrite Z.eqb_refl. by apply ensures_Some. }
  pose proof (ring_NoDup _ _ _ R) as ND.
  assert (Hxh : x ≠ head) by (nodup_split; lsolve).
  rewrite (proj2 (Z.eqb_neq _ _) Hxh).
  destruct (ring_mid_links _ _ _ _ _ R) as [En _]. rewrite En. simpl.
  destruct l2 as [|y l2]; simpl.
  { rewrite Z.eqb_refl. simpl. by apply ensures_Some. }
  assert (Hyh : y ≠ head) by (nodup_split; lsolve).
  rewrite (proj2 (Z.eqb_neq _ _) Hyh). simpl.
  destruct (V x) as [vx Hx]; [set_solver|].
  destruct (V y) as [vy Hy]; [set_solver|].
  assert (Hxy : x ≠ y) by (nodup_split; lsolve).
  rewrite Hx, Hy. simpl. rewrite (set_value_Some _ vy _ _ Hx). simpl.
  rewrite (set_value_Some y vx _ vy);
    [|simpl; by rewrite lookup_insert_ne]. simpl.
  set (h1 := Heap (links h) (<[y:=vx]> (<[x:=vy]> (vals h)))).
  assert (R1 : ring h1 head ((l1 ++ [x; y]) ++ l2)).
  { rewrite <- app_assoc. by apply (ring_links_eq h). }
  destruct (ring_mid_links h head (l1 ++ [x]) y l2) as [En2 _].
  { by rewrite <- app_assoc. }
  change (nxt h1 y) with (nxt h y). rewrite En2. simpl.
  assert (Hx2 : x ∉ l2) by (nodup_split; lsolve).
  assert (Hy2 : y ∉ l2) by (nodup_split; lsolve).
  assert (V1 : has_vals h1 l2).
  { intros z Hz. simpl. rewrite !lookup_insert_ne by set_solver.
    apply V. set_solver. }
  eapply ensures_weaken; [apply (IH h1 _ l2 R1 V1)|simpl; lia|].
  intros h' (EL & EK & V' & EV). simpl in *. split; [done|].
  assert (Kx : key h' x = vy).
  { unfold key. rewrite (EV x Hx2). simpl.
    by rewrite lookup_insert_ne, lookup_insert_eq. }
  assert (Ky : key h' y = vx).
  { unfold key. rewrite (EV y Hy2). simpl. by rewrite lookup_insert_eq. }
  split; [|split].
  - rewrite Kx, Ky.
    change (vy :: vx :: (key h' <$> l2)
            = key h y :: key h x :: swap_pairs (key h <$> l2)).
    rewrite EK. unfold key at 2 3. rewrite Hx, Hy. simpl.
    do 2 f_equal. f_equal. apply list_fmap_ext. intros i z Hz.
    apply list_elem_of_lookup_2 in Hz. unfold key. simpl.
    rewrite !lookup_insert_ne; [done|set_solver..].
  - intros z Hz. unfold has_vals in V'.
    apply elem_of_cons in Hz as [->|Hz].
    { rewrite (EV x Hx2). simpl.
      rewrite lookup_insert_ne, lookup_insert_eq by done. eauto. }
    apply elem_of_cons in Hz as [->|Hz]; [|by apply V'].
    rewrite (EV y Hy2). simpl. rewrite lookup_insert_eq. eauto.
  - intros z Hz. rewrite EV by set_solver. simpl.
    rewrite !lookup_insert_ne; [done|set_solver..].
Qed.

Lemma q_swap_spec h head l fuel :
  ring h head l → has_vals h l →
  ensures (q_swap fuel head h) (fuel ≤ length l)%nat
    (λ h', links h' = links h ∧
           key h' <$> l = swap_pairs (key h <$> l) ∧
           has_vals h' l ∧
           ∀ x, x ∉ l → vals h' !! x = vals h !! x).
Proof.
  intros R V. unfold q_swap.
  assert (head ≠ NULL) as HN by (apply (ring_not_NULL _ _ _ _ R); set_solver).
  rewrite (proj2 (Z.eqb_neq _ _) HN), (list_empty_ring _ _ _ R). simpl.
  destruct l as [|x l].
  { simpl. by apply ensures_Some. }
  rewrite bool_decide_eq_false_2 by done.
  rewrite (ring_nxt_head _ _ _ R).
  apply (q_swap_loop_spec head fuel h [] (x :: l) R V).
Qed.

(** ** Removal at both ends *)

Lemma q_remove_head_ring h head x l sp bufsize :
  ring h head (x :: l) →
  ∃ h1, ring h1 head l ∧ frame (head :: l) h h1 ∧
        q_remove_head head sp bufsize h
        = (sp' ← copy_out sp x bufsize h; Some (x, sp', h1)).
Proof.
  intros R. destruct (ring_list_del h head [] x l R) as (h1 & E & R1 & F).
  exists h1. split; [done|]. split; [done|]. unfold q_remove_head.
  assert (head ≠ NULL) as HN by (apply (ring_not_NULL _ _ _ _ R); set_solver).
  rewrite (proj2 (Z.eqb_neq _ _) HN), (list_empty_ring _ _ _ R). simpl.
  rewrite (ring_nxt_head _ _ _ R). simpl.
  destruct (copy_out sp x bufsize h); simpl; [|done]. by rewrite E.
Qed.

Lemma q_remove_tail_ring h head x l sp bufsize :
  ring h head (l ++ [x]) →
  ∃ h1, ring h1 head l ∧ frame (head :: l) h h1 ∧
        q_remove_tail head sp bufsize h
        = (sp' ← copy_out sp x bufsize h; Some (x, sp', h1)).
Proof.
  intros R. destruct (ring_list_del h head l x [] R) as (h1 & E & R1 & F).
  rewrite app_nil_r in *.
  exists h1. split; [done|]. split; [done|]. unfold q_remove_tail.
  assert (head ≠ NULL) as HN by (apply (ring_not_NULL _ _ _ _ R); set_solver).
  rewrite (proj2 (Z.eqb_neq _ _) HN), (list_empty_ring _ _ _ R).
  rewrite bool_decide_eq_false_2 by (by destruct l).
  rewrite (ring_prv_head _ _ _ R), last_snoc_def. simpl.
  destruct (copy_out sp x bufsize h); simpl; [|done]. by rewrite E.
Qed.

Lemma q_remove_head_absent head sp bufsize h l :
  head = NULL ∨ (ring h head l ∧ l = []) →
  q_remove_head head sp bufsize h = Some (NULL, sp, h).
Proof.
  unfold q_remove_head. intros [->|[R ->]]; [done|].
  assert (head ≠ NULL) as HN by (apply (ring_not_NULL _ _ _ _ R); set_solver).
  by rewrite (proj2 (Z.eqb_neq _ _) HN), (list_empty_ring _ _ _ R).
Qed.

Lemma q_remove_tail_absent head sp bufsize h l :
  head = NULL ∨ (ring h head l ∧ l = []) →
  q_remove_tail head sp bufsize h = Some (NULL, sp, h).
Proof.
  unfold q_remove_tail. intros [->|[R ->]]; [done|].
  assert (head ≠ NULL) as HN by (apply (ring_not_NULL _ _ _ _ R); set_solver).
  by rewrite (proj2 (Z.eqb_neq _ _) HN), (list_empty_ring _ _ _ R).
Qed.

(** ** Buffers *)

Lemma strncpy_length dst src n b :
  0 ≤ n → strncpy dst src n = Some b → length b = length dst.
Proof.
  intros Hn. unfold strncpy. destruct (Z.ltb_spec (Z.of_nat (length dst)) n);
    [done|]. intros [= <-].
  rewrite length_app, length_take, length_app, length_replicate, length_drop.
  lia.
Qed.

Lemma strncpy_is_Some dst src n :
  is_Some (strncpy dst src n) ↔ n ≤ Z.of_nat (length dst).
Proof.
  unfold strncpy. destruct (Z.ltb_spec (Z.of_nat (length dst)) n).
  - split; [by intros [? ?]|lia].
  - split; [done|eauto].
Qed.

Lemma store_byte_is_Some buf i c :
  is_Some (store_byte buf i c) ↔ 0 ≤ i < Z.of_nat (length buf).
Proof.
  unfold store_byte.
  destruct (Z.leb_spec 0 i), (Z.ltb_spec i (Z.of_nat (length buf))); simpl;
    (split; [intros [? ?]; (done || lia)|intros; (eauto || lia)]).
Qed.

(** With an output buffer that holds at least [bufsize] bytes, copying out
    succeeds exactly when [bufsize] is not zero. *)
Lemma copy_out_is_Some buf x bufsize h :
  is_Some (vals h !! x) →
  0 ≤ bufsize ≤ Z.of_nat (length buf) → Z.of_nat (length buf) ≤ SIZE_MAX →
  is_Some (copy_out (Some buf) x bufsize h) ↔ 1 ≤ bufsize.
Proof.
  intros [v Hv] Hb Hc. unfold copy_out. rewrite Hv. simpl.
  destruct (proj2 (strncpy_is_Some buf v bufsize)) as [b Eb]; [lia|].
  rewrite Eb. simpl. pose proof (strncpy_length _ _ _ _ (proj1 Hb) Eb) as Hl.
  destruct (store_byte b (to_size_t (bufsize - 1)) NUL) eqn:Es; simpl.
  - split; [intros _|eauto].
    assert (is_Some (store_byte b (to_size_t (bufsize - 1)) NUL)) as Hs
      by eauto.
    apply store_byte_is_Some in Hs. unfold to_size_t, SIZE_MAX in *.
    destruct (decide (bufsize = 0)) as [->|]; [|lia].
    change ((0 - 1) mod 2 ^ 64) with 18446744073709551615 in Hs. lia.
  - split; [by intros [? ?]|]. intros H1.
    assert (is_Some (store_byte b (to_size_t (bufsize - 1)) NUL)) as [? ?];
      [|congruence].
    apply store_byte_is_Some. unfold to_size_t, SIZE_MAX in *.
    rewrite Z.mod_small; lia.
Qed.

(** ** Strings *)

Lemma uchar_inj c1 c2 : uchar c1 = uchar c2 → c1 = c2.
Proof.
  unfold uchar. intros E%N2Z.inj.
  pose proof (Byte.of_to_N c1) as E1. rewrite E, Byte.of_to_N in E1.
  congruence.
Qed.

Lemma uchar_nonneg c : 0 ≤ uchar c.
Proof. unfold uchar. lia. Qed.

Lemma strlen_Some s n :
  strlen s = Some n →
  0 ≤ n < Z.of_nat (length s) ∧ s !! Z.to_nat n = Some NUL ∧
  Z.of_nat (length (cstr s)) = n.
Proof.
  revert n. induction s as [|c s IH]; intros n; simpl; [done|].
  destruct (Z.eqb_spec (uchar c) 0) as [Hc|Hc].
  - intros [= <-]. simpl. apply (uchar_inj c NUL) in Hc as ->.
    repeat split; lia.
  - destruct (strlen s) as [m|]; simpl; [|done]. intros [= <-].
    destruct (IH m eq_refl) as (Hm & Hl & Hc'). split; [lia|].
    split; [|simpl; lia].
    replace (Z.to_nat (m + 1)) with (S (Z.to_nat m)) by lia. done.
Qed.

Lemma to_int_small z : - 2 ^ 31 ≤ z < 2 ^ 31 → to_int z = z.
Proof. intros H. unfold to_int. rewrite Z.mod_small; lia. Qed.

Lemma to_size_t_small z : 0 ≤ z < 2 ^ 64 → to_size_t z = z.
Proof. intros H. unfold to_size_t. by rewrite Z.mod_small. Qed.

(** ** Allocation and insertion *)

Lemma fresh_loc_spec h :
  fresh_loc h ≠ NULL ∧ links h !! fresh_loc h = None ∧
  vals h !! fresh_loc h = None.
Proof.
  unfold fresh_loc.
  pose proof (is_fresh ({[NULL]} ∪ dom (links h) ∪ dom (vals h))) as Hf.
  repeat split.
  - set_solver.
  - apply not_elem_of_dom. set_solver.
  - apply not_elem_of_dom. set_solver.
Qed.

Lemma ring_ext h h' head l :
  ring h head l →
  (∀ q, q ∈ head :: l → nxt h' q = nxt h q ∧ prv h' q = prv h q) →
  ring h' head l.
Proof.
  intros (N & ND & P) L. split; [done|]. split; [done|].
  apply (path_ext _ _ _ _ P).
  - intros a Ha. apply L. rewrite srcs_snoc in Ha. done.
  - intros b Hb. apply L. set_solver.
Qed.

Lemma ring_not_fresh h head l x :
  ring h head l → x ∈ head :: l → x ≠ fresh_loc h.
Proof.
  intros R Hx ->. destruct (ring_alive _ _ _ _ R Hx) as [n Hn].
  destruct (fresh_loc_spec h) as (_ & E & _). congruence.
Qed.

(** Whatever the string, a call of [create_element] that returns either
    reports failure and leaves the store as it was, or returns a fresh
    element that owns a buffer. *)
Lemma create_element_inv ok_elem ok_value s h e s' h' :
  create_element ok_elem ok_value s h = Some (e, s', h') →
  (e = NULL ∧ h' = h) ∨
  (e = fresh_loc h ∧
   links h' = <[e := ListHead NULL NULL]> (links h) ∧
   ∃ v, vals h' = <[e := v]> (vals h)).
Proof.
  unfold create_element, malloc_node.
  destruct ok_elem; simpl; [|intros [= <- <- <-]; by left].
  destruct (strlen s) as [n|]; simpl; [|done].
  destruct ok_value; simpl.
  - destruct (strncpy _ _ _) as [v|]; simpl; [|done].
    destruct (store_byte _ _ _) as [s1|]; simpl; [|done].
    intros [= <- <- <-]. right. simpl. eauto.
  - intros [= <- <- <-]. left. split; [done|]. unfold free_head. simpl.
    destruct h as [m v]. simpl. f_equal.
    apply delete_insert_id.
    by destruct (fresh_loc_spec (Heap m v)) as (_ & E & _).
Qed.

(** For a string whose length, terminator included, fits an [int], the call
    leaves the string as it was and stores a copy of it. *)
Lemma create_element_small s n h :
  strlen s = Some n → n + 1 ≤ INT_MAX →
  (∀ ok_elem ok_value e s' h',
     create_element ok_elem ok_value s h = Some (e, s', h') → s' = s) ∧
  create_element true true s h
  = Some (fresh_loc h, s,
          Heap (<[fresh_loc h := ListHead NULL NULL]> (links h))
               (<[fresh_loc h := cstr s ++ [NUL]]> (vals h))).
Proof.
  intros Hn Hmax. destruct (strlen_Some _ _ Hn) as (Hr & Hz & Hc).
  unfold INT_MAX in Hmax.
  assert (El : to_int (to_size_t (n + 1)) = n + 1).
  { rewrite to_size_t_small by lia. apply to_int_small. lia. }
  assert (Es : store_byte s (n + 1 - 1) NUL = Some s).
  { unfold store_byte. replace (n + 1 - 1) with n by lia.
    destruct (Z.leb_spec 0 n); [|lia].
    destruct (Z.ltb_spec n (Z.of_nat (length s))); [|lia]. simpl.
    by rewrite list_insert_id. }
  assert (Ec : strncpy (replicate (Z.to_nat (to_size_t (n + 1))) NUL) s
                 (to_size_t (n + 1)) = Some (cstr s ++ [NUL])).
  { rewrite to_size_t_small by lia. unfold strncpy.
    rewrite length_replicate.
    destruct (Z.ltb_spec (Z.of_nat (Z.to_nat (n + 1))) (n + 1)); [lia|].
    f_equal. rewrite drop_ge by (rewrite length_replicate; lia).
    rewrite app_nil_r.
    replace (Z.to_nat (n + 1)) with (length (cstr s) + 1)%nat by lia.
    rewrite take_app_add'; [|done]. f_equal.
    by rewrite Nat.add_1_r. }
  split.
  - intros ok_elem ok_value e s' h'. unfold create_element, malloc_node.
    destruct ok_elem; simpl; [|by intros [= _ <- _]].
    rewrite Hn. simpl. rewrite El.
    destruct ok_value; simpl; [|by intros [= _ <- _]].
    rewrite Ec, Es. simpl. by intros [= _ <- _].
  - unfold create_element, malloc_node. simpl. rewrite Hn. simpl.
    rewrite El, Ec, Es. done.
Qed.

Lemma q_insert_ring h head l p v :
  ring h head l → links h !! p = None → p ≠ NULL →
  let h1 := Heap (<[p := ListHead NULL NULL]> (links h)) (<[p := v]> (vals h))
  in ring h1 head l ∧ alive h1 p ∧ p ∉ head :: l.
Proof.
  intros R Hp N h1.
  assert (Hpl : p ∉ head :: l).
  { intros Hin. destruct (ring_alive _ _ _ _ R Hin) as [n Hn]. congruence. }
  split; [|split; [|done]].
  - apply (ring_ext _ _ _ _ R). intros q Hq. unfold nxt, prv. simpl.
    rewrite lookup_insert_ne; [done|]. intros ->. done.
  - unfold alive. simpl. rewrite lookup_insert_eq. eauto.
Qed.

(** Insertion at the head.  A call that returns either reports failure and
    changes nothing in the store, or links one fresh element in front. *)
Lemma q_insert_head_inv ok_elem ok_value head s h l b s' h' :
  ring h head l → has_vals h l →
  q_insert_head ok_elem ok_value head s h = Some (b, s', h') →
  (b = false ∧ h' = h) ∨
  (b = true ∧ ring h' head (fresh_loc h :: l) ∧
   has_vals h' (fresh_loc h :: l) ∧
   ∀ x, x ∈ l → vals h' !! x = vals h !! x).
Proof.
  intros R V. unfold q_insert_head.
  assert (head ≠ NULL) as HN by (apply (ring_not_NULL _ _ _ _ R); set_solver).
  rewrite (proj2 (Z.eqb_neq _ _) HN).
  destruct (create_element _ _ _ _) as [[[e s1] h1]|] eqn:Ec; simpl; [|done].
  destruct (create_element_inv _ _ _ _ _ _ _ Ec)
    as [[-> ->]|(-> & EL & v & EV)].
  { simpl. intros [= <- <- <-]. by left. }
  destruct (fresh_loc_spec h) as (Nf & Lf & Vf).
  rewrite (proj2 (Z.eqb_neq _ _) Nf).
  destruct (q_insert_ring h head l (fresh_loc h) v R Lf Nf) as (R1 & A1 & Hp).
  assert (R1' : ring h1 head l).
  { eapply ring_links_eq; [|exact R1]. by rewrite EL. }
  assert (A1' : alive h1 (fresh_loc h)).
  { unfold alive. rewrite EL, lookup_insert_eq. eauto. }
  destruct (ring_list_add _ _ _ _ R1' A1' Hp Nf) as (h2 & E2 & R2 & [V2 _]).
  rewrite E2. simpl. intros [= <- <- <-]. right.
  split; [done|]. split; [done|]. split.
  - intros x Hx. rewrite V2, EV. apply elem_of_cons in Hx as [->|Hx].
    + rewrite lookup_insert_eq. eauto.
    + rewrite lookup_insert_ne; [by apply V|]. intros <-. set_solver.
  - intros x Hx. rewrite V2, EV. rewrite lookup_insert_ne; [done|].
    intros <-. set_solver.
Qed.

Lemma q_insert_tail_inv ok_elem ok_value head s h l b s' h' :
  ring h head l → has_vals h l →
  q_insert_tail ok_elem ok_value head s h = Some (b, s', h') →
  (b = false ∧ h' = h) ∨
  (b = true ∧ ring h' head (l ++ [fresh_loc h]) ∧
   has_vals h' (l ++ [fresh_loc h]) ∧
   ∀ x, x ∈ l → vals h' !! x = vals h !! x).
Proof.
  intros R V. unfold q_insert_tail.
  assert (head ≠ NULL) as HN by (apply (ring_not_NULL _ _ _ _ R); set_solver).
  rewrite (proj2 (Z.eqb_neq _ _) HN).
  destruct (create_element _ _ _ _) as [[[e s1] h1]|] eqn:Ec; simpl; [|done].
  destruct (create_element_inv _ _ _ _ _ _ _ Ec)
    as [[-> ->]|(-> & EL & v & EV)].
  { simpl. intros [= <- <- <-]. by left. }
  destruct (fresh_loc_spec h) as (Nf & Lf & Vf).
  rewrite (proj2 (Z.eqb_neq _ _) Nf).
  destruct (q_insert_ring h head l (fresh_loc h) v R Lf Nf) as (R1 & A1 & Hp).
  assert (R1' : ring h1 head l).
  { eapply ring_links_eq; [|exact R1]. by rewrite EL. }
  assert (A1' : alive h1 (fresh_loc h)).
  { unfold alive. rewrite EL, lookup_insert_eq. eauto. }
  destruct (ring_list_add_tail _ _ _ _ R1' A1' Hp Nf)
    as (h2 & E2 & R2 & [V2 _]).
  rewrite E2. simpl. intros [= <- <- <-]. right.
  split; [done|]. split; [done|]. split.
  - intros x Hx. rewrite V2, EV. apply elem_of_app in Hx as [Hx|Hx].
    + rewrite lookup_insert_ne; [by apply V|]. intros <-. set_solver.
    + apply list_elem_of_singleton in Hx as ->.
      rewrite lookup_insert_eq. eauto.
  - intros x Hx. rewrite V2, EV. rewrite lookup_insert_ne; [done|].
    intros <-. set_solver.
Qed.

(** ** Deletion *)

Lemma q_release_element_ring h head l e :
  ring h head l → e ∉ head :: l → alive h e → is_Some (vals h !! e) →
  ∃ h', q_release_element e h = Some h' ∧ ring h' head l ∧
        (∀ x, x ≠ e → vals h' !! x = vals h !! x) ∧
        (∀ q, q ≠ e → nxt h' q = nxt h q ∧ prv h' q = prv h q).
Proof.
  intros R He [n Hn] [v Hv]. unfold q_release_element. rewrite Hv, Hn. simpl.
  eexists. split; [done|].
  assert (∀ q, q ≠ e →
            nxt (Heap (delete e (links h)) (delete e (vals h))) q = nxt h q ∧
            prv (Heap (delete e (links h)) (delete e (vals h))) q = prv h q)
    as HL.
  { intros q Hq. unfold nxt, prv. simpl. by rewrite lookup_delete_ne. }
  split; [|split; [|done]].
  - apply (ring_ext _ _ _ _ R). intros q Hq. apply HL. intros ->. done.
  - intros x Hx. simpl. by rewrite lookup_delete_ne.
Qed.

(** Unlinking and releasing one element of a ring. *)
Lemma ring_delete h head l1 x l2 :
  ring h head (l1 ++ x :: l2) → has_vals h (l1 ++ x :: l2) →
  ∃ h', (h1 ← list_del x h; q_release_element x h1) = Some h' ∧
        ring h' head (l1 ++ l2) ∧
        (∀ y, y ≠ x → vals h' !! y = vals h !! y) ∧
        (∀ q, q ∉ x :: head :: l1 ++ l2 →
              nxt h' q = nxt h q ∧ prv h' q = prv h q).
Proof.
  intros R V. destruct (ring_list_del _ _ _ _ _ R) as (h1 & E1 & R1 & F1).
  pose proof (ring_NoDup _ _ _ R) as ND.
  assert (Hx : x ∉ head :: l1 ++ l2) by (nodup_split; lsolve).
  assert (A : alive h1 x).
  { apply (frame_alive _ _ _ _ F1 Hx).
    apply (ring_alive _ _ _ _ R). set_solver. }
  destruct F1 as [V1 F1].
  destruct (q_release_element_ring _ _ _ x R1 Hx A)
    as (h2 & E2 & R2 & V2 & F2).
  { rewrite V1. apply V. set_solver. }
  exists h2. rewrite E1. simpl. split; [done|]. split; [done|]. split.
  - intros y Hy. by rewrite V2, V1.
  - intros q Hq. destruct (F2 q) as [-> ->]; [set_solver|].
    apply F1. set_solver.
Qed.

Lemma has_vals_preserved h h' l l' :
  has_vals h l → l' ⊆ l → (∀ y, y ∈ l' → vals h' !! y = vals h !! y) →
  has_vals h' l'.
Proof. intros V S E y Hy. rewrite E by done. apply V. set_solver. Qed.

Lemma q_delete_mid_spec h head l fuel :
  ring h head l → has_vals h l → l ≠ [] →
  ensures (q_delete_mid fuel head h) (fuel < length l)%nat
    (λ r, r.1 = true ∧
          ring r.2 head (delete ((length l - 1) / 2)%nat l) ∧
          ∀ y, y ∈ delete ((length l - 1) / 2)%nat l →
               vals r.2 !! y = vals h !! y).
Proof.
  intros R V Hl. unfold q_delete_mid.
  assert (head ≠ NULL) as HN by (apply (ring_not_NULL _ _ _ _ R); set_solver).
  rewrite (proj2 (Z.eqb_neq _ _) HN), (list_empty_ring _ _ _ R).
  rewrite bool_decide_eq_false_2 by done. simpl.
  set (i := ((length l - 1) / 2)%nat).
  assert (Hi : (i < length l)%nat).
  { subst i. apply Nat.Div0.div_lt_upper_bound.
    destruct l; [done|]. simpl. lia. }
  destruct (lookup_lt_is_Some_2 l i Hi) as [mid Hmid].
  eapply ensures_bind; [apply (q_mid_ensures _ _ _ _ fuel R Hmid)| |done].
  intros ? ->. simpl.
  rewrite <- (take_drop_middle l i mid Hmid) in R, V.
  destruct (ring_delete _ _ _ _ _ R V) as (h' & E & R' & V' & _).
  apply bind_Some in E as (h1 & E1 & E2). rewrite E1. simpl. rewrite E2.
  simpl. apply ensures_Some. simpl. rewrite delete_take_drop.
  split; [done|]. split; [done|]. intros y Hy. apply V'. intros ->.
  apply ring_NoDup in R. clear -R Hy. nodup_split. set_solver.
Qed.

(** What [q_delete_dup] keeps of a list: an element goes when it compares
    equal to the last element kept before it. *)
Fixpoint dedup_from (c : loc → loc → Z) (cur : loc) (l : list loc)
  : list loc :=
  match l with
  | [] => []
  | x :: l' =>
      if c cur x =? 0 then dedup_from c cur l' else x :: dedup_from c x l'
  end.

Definition dedup_adj (c : loc → loc → Z) (l : list loc) : list loc :=
  match l with
  | [] => []
  | x :: l' => x :: dedup_from c x l'
  end.

Lemma ring_next_alive h head l x :
  ring h head l → x ∈ head :: l → ∃ y, nxt h x = Some y.
Proof. intros R Hx. by apply alive_nxt, (ring_alive _ _ _ _ R). Qed.

Lemma hd_elem_of (head : loc) (l : list loc) : hd head l ∈ head :: l.
Proof. destruct l; set_solver. Qed.

Lemma q_delete_dup_loop_spec h0 head :
  ∀ fuel h kept rest cur safe,
    ring h head (kept ++ rest) →
    (∀ z, z ∈ kept ++ rest →
          vals h !! z = vals h0 !! z ∧ is_Some (vals h0 !! z)) →
    (cur = NULL ∧ kept = []) ∨ cur ∈ kept →
    nxt h (hd head rest) = Some safe →
    ensures (q_delete_dup_loop fuel head (hd head rest) safe cur h)
      (fuel ≤ length rest)%nat
      (λ h', let r := kept ++ (if cur =? NULL then dedup_adj (cmpk h0) rest
                               else dedup_from (cmpk h0) cur rest) in
             ring h' head r ∧ ∀ z, z ∈ r → vals h' !! z = vals h0 !! z).
Proof.
  intros fuel. induction fuel as [|fuel IH];
    intros h kept rest cur safe R V Hcur Hsafe.
  { right. split; [done|lia]. }
  simpl. destruct rest as [|x rest].
  { simpl. rewrite Z.eqb_refl. apply ensures_Some. simpl.
    rewrite app_nil_r in *. destruct (cur =? NULL); simpl;
      rewrite app_nil_r; split; try done; intros z Hz; by apply V. }
  cbn [hd] in *. pose proof (ring_NoDup _ _ _ R) as ND.
  assert (Hxh : x ≠ head) by (nodup_split; lsolve).
  rewrite (proj2 (Z.eqb_neq _ _) Hxh).
  destruct (ring_mid_links _ _ _ _ _ R) as [En _].
  rewrite En in Hsafe. injection Hsafe as <-.
  assert (Hxn : x ≠ NULL) by (apply (ring_not_NULL _ _ _ _ R); set_solver).
  assert (Rk : ring h head ((kept ++ [x]) ++ rest)) by by rewrite <- app_assoc.
  assert (Vk : ∀ z, z ∈ (kept ++ [x]) ++ rest →
                    vals h !! z = vals h0 !! z ∧ is_Some (vals h0 !! z)).
  { intros z Hz. apply V. set_solver. }
  destruct (ring_next_alive _ _ _ (hd head rest) R) as [safe' Hsafe'].
  { pose proof (hd_elem_of head rest). set_solver. }
  destruct Hcur as [[-> ->]|Hcur].
  { (* the first element is always kept *)
    simpl. rewrite Hsafe'. simpl.
    eapply ensures_weaken;
      [apply (IH h [x] rest x _ Rk Vk); [set_solver|done]|simpl; lia|].
    intros h' [R' V']. rewrite (proj2 (Z.eqb_neq _ _) Hxn) in *. done. }
  assert (Hcn : cur ≠ NULL) by (apply (ring_not_NULL _ _ _ _ R); set_solver).
  rewrite (proj2 (Z.eqb_neq _ _) Hcn).
  assert (Hc : cmp cur x h = Some (cmpk h0 cur x)).
  { unfold cmp, cmpk, key.
    destruct (V cur) as [-> [a ->]]; [set_solver|].
    destruct (V x) as [-> [b ->]]; [set_solver|]. done. }
  rewrite Hc. simpl. destruct (Z.eqb_spec (cmpk h0 cur x) 0) as [Hz|Hnz].
  - (* a duplicate of the last element kept: unlinked and released *)
    assert (Vh : has_vals h (kept ++ x :: rest)).
    { intros z Hz'. destruct (V z Hz') as [-> ?]. done. }
    destruct (ring_delete _ _ _ _ _ R Vh) as (h2 & E & R2 & V2 & _).
    apply bind_Some in E as (h1 & E1 & E2). rewrite E1. simpl. rewrite E2.
    simpl.
    assert (Hx : x ∉ kept ++ rest) by (nodup_split; lsolve).
    destruct (ring_next_alive _ _ _ (hd head rest) R2) as [safe2 Hsafe2].
    { pose proof (hd_elem_of head rest). set_solver. }
    rewrite Hsafe2. simpl.
    eapply ensures_weaken;
      [apply (IH h2 kept rest cur safe2 R2); [|by right|done]|simpl; lia|].
    + intros z Hz'. rewrite V2 by (intros ->; done). apply V. set_solver.
    + intros h' HP. cbn zeta in *.
      rewrite ?(proj2 (Z.eqb_neq _ _) Hcn) in *.
      cbn [dedup_from]. rewrite ?Hz, ?Z.eqb_refl. exact HP.
  - (* a new value: it becomes the last element kept *)
    simpl. rewrite Hsafe'. simpl.
    eapply ensures_weaken;
      [apply (IH h (kept ++ [x]) rest x _ Rk Vk); [set_solver|done]
      |simpl; lia|].
    intros h' HP. cbn zeta in *.
    rewrite ?(proj2 (Z.eqb_neq _ _) Hcn), ?(proj2 (Z.eqb_neq _ _) Hxn) in *.
    cbn [dedup_from]. rewrite ?(proj2 (Z.eqb_neq _ _) Hnz).
    rewrite <- app_assoc in HP. exact HP.
Qed.

Lemma q_delete_dup_spec h head l fuel :
  ring h head l → has_vals h l →
  ensures (q_delete_dup fuel head h) (fuel ≤ length l)%nat
    (λ r, r.1 = true ∧ ring r.2 head (dedup_adj (cmpk h) l) ∧
          ∀ z, z ∈ dedup_adj (cmpk h) l → vals r.2 !! z = vals h !! z).
Proof.
  intros R V. unfold q_delete_dup.
  assert (head ≠ NULL) as HN by (apply (ring_not_NULL _ _ _ _ R); set_solver).
  rewrite (proj2 (Z.eqb_neq _ _) HN), (list_empty_ring _ _ _ R). simpl.
  destruct l as [|x l].
  { simpl. by apply ensures_Some. }
  rewrite bool_decide_eq_false_2 by done.
  rewrite (ring_nxt_head _ _ _ R). cbn [hd mbind option_bind].
  destruct (ring_next_alive _ _ _ x R) as [safe Hsafe]; [set_solver|].
  rewrite Hsafe. cbn [mbind option_bind].
  eapply ensures_bind;
    [apply (q_delete_dup_loop_spec h head fuel h [] (x :: l) NULL safe R)
    | |done]; try done.
  - intros z Hz. split; [done|]. by apply V.
  - by left.
  - intros h' [R' V']. by apply ensures_Some.
Qed.

(** ** Merge *)

(** The list [merge] builds from two lists: the front of [la] goes first
    only when it compares strictly less than the front of [lb]. *)
Fixpoint merge_list (c : loc → loc → Z) (la : list loc)
  : list loc → list loc :=
  fix inner (lb : list loc) : list loc :=
    match la, lb with
    | [], _ => lb
    | _, [] => la
    | x :: la', y :: lb' =>
        if c x y <? 0 then x :: merge_list c la' lb else y :: inner lb'
    end.

Lemma merge_list_nil_l c lb : merge_list c [] lb = lb.
Proof. by destruct lb. Qed.

Lemma merge_list_nil_r c la : merge_list c la [] = la.
Proof. by destruct la. Qed.

Lemma merge_list_cons c x la y lb :
  merge_list c (x :: la) (y :: lb)
  = if c x y <? 0 then x :: merge_list c la (y :: lb)
    else y :: merge_list c (x :: la) lb.
Proof. done. Qed.

Lemma merge_loop_spec (a b d : loc) :
  ∀ fuel h la lb acc,
    ring h a la → ring h b lb → ring h d acc →
    (a :: la) ## (b :: lb) → (a :: la) ## (d :: acc) →
    (b :: lb) ## (d :: acc) →
    has_vals h (la ++ lb) →
    ensures (merge_loop fuel a b d h) (fuel ≤ length la + length lb)%nat
      (λ h', ∃ la' lb' acc',
         ring h' a la' ∧ ring h' b lb' ∧ ring h' d acc' ∧
         (la' = [] ∨ lb' = []) ∧
         acc' ++ la' ++ lb' = acc ++ merge_list (cmpk h) la lb ∧
         frame ((a :: la) ++ (b :: lb) ++ (d :: acc)) h h').
Proof.
  intros fuel. induction fuel as [|fuel IH];
    intros h la lb acc Ra Rb Rd Dab Dad Dbd V.
  { right. split; [done|lia]. }
  simpl. rewrite (list_empty_ring _ _ _ Ra).
  destruct la as [|x la].
  { rewrite bool_decide_eq_true_2 by done. cbn [mbind option_bind].
    apply ensures_Some. exists [], lb, acc.
    rewrite merge_list_nil_l. do 3 (split; [done|]).
    split; [by left|]. split; [done|]. apply frame_refl. }
  rewrite bool_decide_eq_false_2 by done. cbn [mbind option_bind].
  rewrite (list_empty_ring _ _ _ Rb).
  destruct lb as [|y lb].
  { rewrite bool_decide_eq_true_2 by done. cbn [mbind option_bind].
    apply ensures_Some. exists (x :: la), [], acc.
    rewrite merge_list_nil_r, app_nil_r. do 3 (split; [done|]).
    split; [by right|]. split; [done|]. apply frame_refl. }
  rewrite bool_decide_eq_false_2 by done. cbn [mbind option_bind].
  rewrite (ring_nxt_head _ _ _ Ra), (ring_nxt_head _ _ _ Rb).
  cbn [hd mbind option_bind].
  rewrite cmp_cmpk by (apply V; set_solver). cbn [mbind option_bind].
  rewrite merge_list_cons.
  pose proof (ring_NoDup _ _ _ Ra) as NDa.
  pose proof (ring_NoDup _ _ _ Rb) as NDb.
  destruct (cmpk h x y <? 0).
  - destruct (ring_list_move_tail h a [] x la d acc Ra Rd Dad)
      as (h1 & E & Ra1 & Rd1 & F1).
    rewrite E. cbn [mbind option_bind]. simpl in Ra1.
    assert (Rb1 : ring h1 b (y :: lb)).
    { apply (ring_frame _ _ _ _ _ Rb F1). clear -Dab Dbd. set_solver. }
    pose proof F1 as [V1 _].
    eapply ensures_weaken; [apply (IH h1 la (y :: lb) (acc ++ [x]))| |];
      try done.
    + clear -Dab. set_solver.
    + clear -Dad NDa. nodup_split. set_solver.
    + clear -Dab Dbd. set_solver.
    + intros z Hz. rewrite V1. apply V. set_solver.
    + simpl. lia.
    + intros h' (la' & lb' & acc' & Ra' & Rb' & Rd' & He & Eq & F').
      exists la', lb', acc'. do 4 (split; [done|]). split.
      * rewrite Eq, <- app_assoc. simpl. unfold cmpk, key. by rewrite V1.
      * eapply frame_trans; eapply frame_weaken; eauto;
          clear; set_solver.
  - destruct (ring_list_move_tail h b [] y lb d acc Rb Rd Dbd)
      as (h1 & E & Rb1 & Rd1 & F1).
    rewrite E. cbn [mbind option_bind]. simpl in Rb1.
    assert (Ra1 : ring h1 a (x :: la)).
    { apply (ring_frame _ _ _ _ _ Ra F1). clear -Dab Dad. set_solver. }
    pose proof F1 as [V1 _].
    eapply ensures_weaken; [apply (IH h1 (x :: la) lb (acc ++ [y]))| |];
      try done.
    + clear -Dab. set_solver.
    + clear -Dab Dad. set_solver.
    + clear -Dbd NDb. nodup_split. set_solver.
    + intros z Hz. rewrite V1. apply V. set_solver.
    + simpl. lia.
    + intros h' (la' & lb' & acc' & Ra' & Rb' & Rd' & He & Eq & F').
      exists la', lb', acc'. do 4 (split; [done|]). split.
      * rewrite Eq, <- app_assoc. simpl. unfold cmpk, key. by rewrite V1.
      * eapply frame_trans; eapply frame_weaken; eauto;
          clear; set_solver.
Qed.

Lemma merge_list_perm c la lb : merge_list c la lb ≡ₚ la ++ lb.
Proof.
  revert lb. induction la as [|x la IHa]; intros lb.
  { by rewrite merge_list_nil_l. }
  induction lb as [|y lb IHb].
  { by rewrite merge_list_nil_r, app_nil_r. }
  rewrite merge_list_cons. destruct (c x y <? 0).
  - by rewrite IHa.
  - rewrite IHb. apply (Permutation_middle (x :: la) lb y).
Qed.

Lemma cmpk_vals_eq h h' : vals h' = vals h → cmpk h' = cmpk h.
Proof. unfold cmpk, key. by intros ->. Qed.

Lemma ring_alloc h head l d n :
  ring h head l → links h !! d = None →
  ring (Heap (<[d := n]> (links h)) (vals h)) head l.
Proof.
  intros R Hd. apply (ring_ext _ _ _ _ R). intros q Hq.
  assert (q ≠ d).
  { intros ->. destruct (ring_alive _ _ _ _ R Hq) as [? ?]. congruence. }
  unfold nxt, prv. simpl. by rewrite lookup_insert_ne.
Qed.

Lemma ring_free_head h head l d :
  ring h head l → d ∉ head :: l → ring (free_head d h) head l.
Proof.
  intros R Hd. apply (ring_ext _ _ _ _ R). intros q Hq.
  unfold nxt, prv, free_head. simpl. rewrite lookup_delete_ne; [done|].
  intros ->. done.
Qed.

(** A sentinel in automatic storage: allocated, used, and gone at the end;
    what the rest of the store sees is a frame. *)
Lemma frame_scoped F h h1 h2 d :
  links h !! d = None →
  h1 = Heap (<[d := ListHead d d]> (links h)) (vals h) →
  frame (d :: F) h1 h2 →
  frame F h (free_head d h2).
Proof.
  intros Hd -> [V L]. split; [done|]. intros q Hq.
  unfold nxt, prv, free_head. simpl.
  destruct (decide (q = d)) as [->|Hne].
  - by rewrite lookup_delete_eq, Hd.
  - rewrite lookup_delete_ne by done.
    destruct (L q) as [L1 L2]; [set_solver|].
    unfold nxt, prv in L1, L2. simpl in L1, L2.
    rewrite lookup_insert_ne in L1, L2 by done. done.
Qed.

Lemma merge_spec h a b la lb fuel :
  ring h a la → ring h b lb → (a :: la) ## (b :: lb) →
  has_vals h (la ++ lb) →
  ensures (merge fuel a b h) (fuel ≤ length la + length lb)%nat
    (λ h', ring h' a (merge_list (cmpk h) la lb) ∧ ring h' b [] ∧
           frame ((a :: la) ++ (b :: lb)) h h').
Proof.
  intros Ra Rb Dab V. unfold merge, LIST_HEAD.
  destruct (fresh_loc_spec h) as (Nd & Ld & _).
  set (d := fresh_loc h) in *.
  set (h1 := Heap (<[d := ListHead d d]> (links h)) (vals h)).
  assert (Hda : d ∉ a :: la).
  { intros Hin. by apply (ring_not_fresh _ _ _ _ Ra Hin). }
  assert (Hdb : d ∉ b :: lb).
  { intros Hin. by apply (ring_not_fresh _ _ _ _ Rb Hin). }
  clearbody d.
  assert (Ra1 : ring h1 a la) by by apply ring_alloc.
  assert (Rb1 : ring h1 b lb) by by apply ring_alloc.
  assert (A1 : alive h1 d).
  { unfold alive, h1. simpl. rewrite lookup_insert_eq. eauto. }
  destruct (ring_INIT _ _ A1 Nd) as (h2 & E2 & Rd2 & F2).
  rewrite E2. cbn [mbind option_bind].
  assert (Ra2 : ring h2 a la).
  { apply (ring_frame _ _ _ _ _ Ra1 F2). clear -Hda. first [timeout 10 set_solver|zsolve]. }
  assert (Rb2 : ring h2 b lb).
  { apply (ring_frame _ _ _ _ _ Rb1 F2). clear -Hdb. first [timeout 10 set_solver|zsolve]. }
  assert (V2 : vals h2 = vals h) by (by destruct F2 as [-> _]).
  eapply ensures_bind;
    [apply (merge_loop_spec a b d fuel h2 la lb [] Ra2 Rb2 Rd2)| |done];
    try done.
  { clear -Hda. first [timeout 10 set_solver|zsolve]. }
  { clear -Hdb. first [timeout 10 set_solver|zsolve]. }
  { intros z Hz. rewrite V2. by apply V. }
  intros h3 (la' & lb' & acc' & Ra3 & Rb3 & Rd3 & He & Eq & F3).
  rewrite (cmpk_vals_eq _ _ V2) in Eq. simpl in Eq.
  set (full := merge_list (cmpk h) la lb) in *.
  assert (Hfull : ∀ z, z ∈ full ↔ z ∈ la ++ lb).
  { intros z. subst full. by rewrite merge_list_perm. }
  assert (Hsub : ∀ z, z ∈ acc' ++ la' ++ lb' → z ∈ la ++ lb).
  { intros z. rewrite Eq. apply Hfull. }
  pose proof (ring_NoDup _ _ _ Ra3) as NDa3.
  pose proof (ring_NoDup _ _ _ Rb3) as NDb3.
  pose proof (ring_NoDup _ _ _ Rd3) as NDd3.
  assert (Dsub : (la' ## lb') ∧ (acc' ## la') ∧ (acc' ## lb')) .
  { assert (NoDup (acc' ++ la' ++ lb')) as ND.
    { rewrite Eq. subst full. rewrite merge_list_perm.
      apply ring_NoDup in Ra, Rb. clear -Ra Rb Dab. nodup_split.
      apply NoDup_app. repeat split; [done| |done]. set_solver. }
    clear -ND. nodup_split. set_solver. }
  destruct Dsub as (D1 & D2 & D3).
  assert (a ∉ la ++ lb ∧ b ∉ la ++ lb) as [Hal Hbl].
  { apply ring_NoDup in Ra, Rb. clear -Ra Rb Dab. nodup_split. set_solver. }
  assert (Hab : a ≠ b) by (clear -Dab; set_solver).
  clear NDa3 NDb3 NDd3.
  (* the rest of [a] goes to the tail of the accumulator *)
  assert (∃ h4, (ea ← list_empty a h3;
                 if (ea : bool) then Some h3
                 else list_splice_tail_init a d h3) = Some h4 ∧
                ring h4 a [] ∧ ring h4 b lb' ∧ ring h4 d (acc' ++ la') ∧
                frame (d :: (a :: la) ++ (b :: lb)) h3 h4)
    as (h4 & E4 & Ra4 & Rb4 & Rd4 & F4).
  { rewrite (list_empty_ring _ _ _ Ra3). cbn [mbind option_bind].
    destruct la' as [|x la'].
    - exists h3. rewrite app_nil_r, bool_decide_eq_true_2 by done.
      do 4 (split; [done|]). apply frame_refl.
    - rewrite bool_decide_eq_false_2 by done.
      destruct (ring_list_splice_tail_init h3 a (x :: la') d acc' Ra3 Rd3)
        as (h4 & E4 & Ra4 & Rd4 & F4).
      { clear -Hda Hdb Hsub Hal D2. first [timeout 10 set_solver|zsolve]. }
      exists h4. split; [done|]. split; [done|]. split; [|split; [done|]].
      + apply (ring_frame _ _ _ _ _ Rb3 F4).
        clear -Hda Hdb Hsub Hal Hbl Hab D1 D3. first [timeout 10 set_solver|zsolve].
      + eapply frame_weaken; [done|]. clear -Hsub. first [timeout 10 set_solver|zsolve]. }
  apply bind_Some in E4 as (ea & Eea & E4). rewrite Eea.
  cbn [mbind option_bind]. rewrite E4. cbn [mbind option_bind].
  (* then the rest of [b] *)
  assert (∃ h5, (eb ← list_empty b h4;
                 if (eb : bool) then Some h4
                 else list_splice_tail_init b d h4) = Some h5 ∧
                ring h5 a [] ∧ ring h5 b [] ∧ ring h5 d full ∧
                frame (d :: (a :: la) ++ (b :: lb)) h4 h5)
    as (h5 & E5 & Ra5 & Rb5 & Rd5 & F5).
  { rewrite (list_empty_ring _ _ _ Rb4). cbn [mbind option_bind].
    rewrite app_assoc in Eq. destruct lb' as [|y lb'].
    - exists h4. rewrite app_nil_r in Eq. rewrite <- Eq.
      rewrite bool_decide_eq_true_2 by done.
      do 4 (split; [done|]). apply frame_refl.
    - rewrite bool_decide_eq_false_2 by done.
      destruct (ring_list_splice_tail_init h4 b (y :: lb') d (acc' ++ la')
                  Rb4 Rd4) as (h5 & E5 & Rb5 & Rd5 & F5).
      { clear -Hda Hdb Hsub Hbl D1 D3. first [timeout 10 set_solver|zsolve]. }
      exists h5. split; [done|]. rewrite <- Eq.
      split; [|split; [done|split; [done|]]].
      + apply (ring_frame _ _ _ _ _ Ra4 F5).
        clear -Hda Hdb Hsub Hal Hab. first [timeout 10 set_solver|zsolve].
      + eapply frame_weaken; [done|]. clear -Hsub. first [timeout 10 set_solver|zsolve]. }
  apply bind_Some in E5 as (eb & Eeb & E5). rewrite Eeb.
  cbn [mbind option_bind]. rewrite E5. cbn [mbind option_bind].
  (* the accumulator goes back into [a] *)
  destruct (ring_list_splice h5 d full a [] Rd5 Ra5)
    as (h6 & E6 & Rd6 & Ra6 & F6).
  { clear -Hda Hfull Hal. first [timeout 10 set_solver|zsolve]. }
  rewrite E6. cbn [mbind option_bind]. rewrite app_nil_r in Ra6.
  apply ensures_Some. split; [|split].
  - apply ring_free_head; [done|]. clear -Hda Hdb Hfull. first [timeout 10 set_solver|zsolve].
  - apply ring_free_head; [|clear -Hdb; set_solver].
    apply (ring_frame _ _ _ _ _ Rb5 F6). clear -Hdb Hfull Hbl Hab. first [timeout 10 set_solver|zsolve].
  - apply (frame_scoped _ h h1); [done|done|].
    eapply frame_trans; [eapply frame_weaken; [exact F2|clear; set_solver]|].
    eapply frame_trans; [eapply frame_weaken; [exact F3|clear; set_solver]|].
    eapply frame_trans; [exact F4|].
    eapply frame_trans; [exact F5|].
    eapply frame_weaken; [exact F6|]. clear -Hfull. first [timeout 10 set_solver|zsolve].
Qed.

(** ** Order *)

(** [z] does not compare greater than the first element of [l]. *)
Definition le_hd (c : loc → loc → Z) (z : loc) (l : list loc) : Prop :=
  match l with
  | [] => True
  | x :: _ => c z x ≤ 0
  end.

(** Every adjacent pair [(e1, e2)] of [l] satisfies [c e1 e2 <= 0]. *)
Fixpoint adj_sorted (c : loc → loc → Z) (l : list loc) : Prop :=
  match l with
  | [] => True
  | x :: l' => le_hd c x l' ∧ adj_sorted c l'
  end.

Lemma strcmp_antisym a b : strcmp b a = - strcmp a b.
Proof.
  revert b. induction a as [|x a IH]; intros [|y b]; simpl; try lia.
  rewrite (Z.eqb_sym (uchar y)).
  destruct (Z.eqb_spec (uchar x) (uchar y)) as [->|Hne]; [|lia].
  destruct (uchar y =? 0); [done|]. apply IH.
Qed.

Lemma cmpk_antisym h x y : cmpk h y x = - cmpk h x y.
Proof. apply strcmp_antisym. Qed.

Lemma merge_list_le_hd c z la lb :
  le_hd c z la → le_hd c z lb → le_hd c z (merge_list c la lb).
Proof.
  destruct la as [|x la]; [by rewrite merge_list_nil_l|].
  destruct lb as [|y lb]; [by rewrite merge_list_nil_r|].
  rewrite merge_list_cons. by destruct (c x y <? 0).
Qed.

Lemma merge_list_sorted c la lb :
  (∀ x y, ¬ c x y < 0 → c y x ≤ 0) →
  adj_sorted c la → adj_sorted c lb → adj_sorted c (merge_list c la lb).
Proof.
  intros Hc. revert lb. induction la as [|x la IHa]; intros lb.
  { by rewrite merge_list_nil_l. }
  induction lb as [|y lb IHb].
  { by rewrite merge_list_nil_r. }
  intros Sa Sb. rewrite merge_list_cons.
  destruct (Z.ltb_spec (c x y) 0) as [Hlt|Hge].
  - destruct Sa as [Hx Sa]. split; [|by apply IHa].
    apply merge_list_le_hd; [done|]. simpl. lia.
  - destruct Sb as [Hy Sb]. split; [|by apply IHb].
    apply merge_list_le_hd; [|done]. simpl. apply Hc. lia.
Qed.

Lemma mid_index_lt (n : nat) : (2 ≤ n → (n - 1) / 2 + 1 < n)%nat.
Proof.
  intros Hn. assert ((n - 1) / 2 < n - 1)%nat; [|lia].
  apply Nat.div_lt; lia.
Qed.

(** ** Sort *)

Lemma q_sort_spec :
  ∀ fuel h head l,
    ring h head l → has_vals h l →
    ensures (q_sort fuel head h) (fuel < length l + 2)%nat
      (λ h', ∃ l', ring h' head l' ∧ l' ≡ₚ l ∧ adj_sorted (cmpk h) l' ∧
                   frame (head :: l) h h').
Proof.
  intros fuel. induction fuel as [|fuel IH]; intros h head l R V.
  { right. split; [done|lia]. }
  cbn [q_sort].
  assert (head ≠ NULL) as HN by (apply (ring_not_NULL _ _ _ _ R); set_solver).
  rewrite (proj2 (Z.eqb_neq _ _) HN), (list_empty_ring _ _ _ R).
  cbn [mbind option_bind].
  destruct l as [|x l].
  { rewrite bool_decide_eq_true_2 by done. apply ensures_Some.
    exists []. split; [done|]. split; [done|]. split; [done|].
    apply frame_refl. }
  rewrite bool_decide_eq_false_2 by done.
  rewrite (ring_prv_head _ _ _ R), (ring_nxt_head _ _ _ R).
  cbn [hd mbind option_bind].
  destruct l as [|y l].
  { simpl. rewrite Z.eqb_refl. apply ensures_Some.
    exists [x]. split; [done|]. split; [done|]. split; [by simpl|].
    apply frame_refl. }
  pose proof (ring_NoDup _ _ _ R) as ND.
  assert (Hlast : List.last (x :: y :: l) head ≠ x).
  { rewrite last_cons. pose proof (last_elem_of l y) as Hin.
    rewrite last_cons. clear -ND Hin. nodup_split. set_solver. }
  rewrite (proj2 (Z.eqb_neq _ _) Hlast).
  set (L := x :: y :: l) in *.
  assert (HL : (2 ≤ length L)%nat) by (simpl; lia).
  set (i := ((length L - 1) / 2)%nat).
  pose proof (mid_index_lt _ HL) as Hi. fold i in Hi.
  destruct (lookup_lt_is_Some_2 L i) as [mid Hmid]; [lia|].
  eapply ensures_bind; [apply (q_mid_ensures _ _ _ _ fuel R Hmid)| |lia].
  intros ? ->. unfold LIST_HEAD. cbn beta iota zeta.
  destruct (fresh_loc_spec h) as (Nn & Ln & _).
  set (new := fresh_loc h) in *.
  set (h1 := Heap (<[new := ListHead new new]> (links h)) (vals h)).
  assert (Hnew : new ∉ head :: L).
  { intros Hin. by apply (ring_not_fresh _ _ _ _ R Hin). }
  clearbody new.
  assert (A1 : alive h1 new).
  { unfold alive, h1. simpl. rewrite lookup_insert_eq. eauto. }
  destruct (ring_INIT _ _ A1 Nn) as (h2 & E2 & Rn2 & F2).
  rewrite E2. cbn [mbind option_bind].
  pose proof (take_drop_middle L i mid Hmid) as EL.
  set (l1 := take i L) in *. set (l2 := drop (S i) L) in *.
  assert (Hl1 : length l1 = i) by (subst l1; rewrite length_take; lia).
  assert (Hlen : length L = (length l1 + 1 + length l2)%nat).
  { rewrite <- EL, length_app. simpl. lia. }
  clearbody l1 l2. clearbody L. subst L.
  assert (R2 : ring h2 head (l1 ++ mid :: l2)).
  { apply (ring_frame [new] h1); [by apply ring_alloc|done|].
    clear -Hnew. set_solver. }
  destruct (ring_list_cut_position _ _ _ _ _ _ R2 Rn2 Hnew)
    as (h3 & E3 & Rn3 & Rh3 & F3).
  rewrite E3. cbn [mbind option_bind].
  assert (V3 : vals h3 = vals h).
  { destruct F3 as [-> _], F2 as [-> _]. done. }
  apply ring_NoDup in R as NDh. 
  (* the second half, left in [head] *)
  eapply ensures_bind; [apply (IH h3 head l2 Rh3)| |lia].
  { intros z Hz. rewrite V3. apply V. set_solver. }
  intros h4 (l2' & Rh4 & P2 & S2 & F4).
  assert (V4 : vals h4 = vals h) by (destruct F4 as [-> _]; done).
  assert (Rn4 : ring h4 new (l1 ++ [mid])).
  { apply (ring_frame _ _ _ _ _ Rn3 F4).
    clear -NDh Hnew. nodup_split. set_solver. }
  (* the first half, cut into [new_head] *)
  eapply ensures_bind; [apply (IH h4 new (l1 ++ [mid]) Rn4)| |].
  { intros z Hz. rewrite V4. apply V. set_solver. }
  2:{ rewrite length_app. simpl. lia. }
  intros h5 (l1' & Rn5 & P1 & S1 & F5).
  assert (V5 : vals h5 = vals h) by (destruct F5 as [-> _]; done).
  assert (H2' : ∀ z, z ∈ l2' ↔ z ∈ l2) by (intros z; by rewrite P2).
  assert (H1' : ∀ z, z ∈ l1' ↔ z ∈ l1 ++ [mid]) by (intros z; by rewrite P1).
  assert (Rh5 : ring h5 head l2').
  { apply (ring_frame _ _ _ _ _ Rh4 F5).
    clear -NDh Hnew H2'. nodup_split. zsolve. }
  eapply ensures_bind; [apply (merge_spec h5 head new l2' l1' fuel Rh5 Rn5)| |].
  { clear -NDh Hnew H1' H2'. nodup_split. zsolve. }
  { intros z Hz. rewrite V5. apply V.
    clear -Hz H1' H2'. specialize (H1' z). specialize (H2' z). set_solver. }
  2:{ rewrite P1, P2, length_app. simpl. lia. }
  intros h6 (Rh6 & Rn6 & F6). apply ensures_Some.
  rewrite (cmpk_vals_eq _ _ V5) in *. rewrite (cmpk_vals_eq _ _ V4) in *.
  rewrite (cmpk_vals_eq _ _ V3) in *.
  exists (merge_list (cmpk h) l2' l1'). split; [|split; [|split]].
  - apply ring_free_head; [done|].
    clear -Hnew H1' H2'. intros Hin. apply elem_of_cons in Hin as [->|Hin].
    + set_solver.
    + rewrite merge_list_perm in Hin. specialize (H1' new).
      specialize (H2' new). set_solver.
  - rewrite merge_list_perm, P1, P2, (Permutation_app_comm l2).
    by rewrite <- app_assoc.
  - apply merge_list_sorted; [|done..].
    intros a b Hab. rewrite cmpk_antisym. lia.
  - apply (frame_scoped _ h h1); [done|done|].
    eapply frame_trans; [eapply frame_weaken; [exact F2|clear; set_solver]|].
    eapply frame_trans; [eapply frame_weaken; [exact F3|clear; set_solver]|].
    eapply frame_trans; [eapply frame_weaken; [exact F4|clear; set_solver]|].
    eapply frame_trans; [eapply frame_weaken; [exact F5|clear; set_solver]|].
    eapply frame_weaken; [exact F6|]. clear -H1' H2'. zsolve.
Qed.

Lemma strcmp_trans a b c :
  (strcmp a b ≤ 0 → strcmp b c ≤ 0 → strcmp a c ≤ 0) ∧
  (strcmp a b < 0 → strcmp b c ≤ 0 → strcmp a c < 0) ∧
  (strcmp a b ≤ 0 → strcmp b c < 0 → strcmp a c < 0).
Proof.
  revert b c. induction a as [|x a IH]; intros [|y b] [|z c]; simpl;
    try (pose proof (uchar_nonneg x)); try (pose proof (uchar_nonneg y));
    try (pose proof (uchar_nonneg z));
    repeat match goal with
           | |- context [?u =? ?v] => destruct (Z.eqb_spec u v)
           end;
    try lia.
  apply IH.
Qed.

(** The comparisons that behave as an order on the elements: what the
    list-level arguments about merging and deduplication rely on. *)
Record order (c : loc → loc → Z) : Prop := Order {
  order_antisym : ∀ x y, c y x = - c x y;
  order_le_le : ∀ x y z, c x y ≤ 0 → c y z ≤ 0 → c x z ≤ 0;
  order_lt_le : ∀ x y z, c x y < 0 → c y z ≤ 0 → c x z < 0;
  order_le_lt : ∀ x y z, c x y ≤ 0 → c y z < 0 → c x z < 0
}.

Lemma cmpk_order h : order (cmpk h).
Proof.
  split; unfold cmpk.
  - intros x y. apply strcmp_antisym.
  - intros x y z.
    by destruct (strcmp_trans (key h x) (key h y) (key h z)) as (? & _ & _).
  - intros x y z.
    by destruct (strcmp_trans (key h x) (key h y) (key h z)) as (_ & ? & _).
  - intros x y z.
    by destruct (strcmp_trans (key h x) (key h y) (key h z)) as (_ & _ & ?).
Qed.

(** [x] occurs in [r] at a position before an occurrence of [y]. *)
Fixpoint before (r : list loc) (x y : loc) : Prop :=
  match r with
  | [] => False
  | z :: r' => (z = x ∧ y ∈ r') ∨ before r' x y
  end.

(** Every adjacent pair [(e1, e2)] of [l] satisfies [c e1 e2 < 0]. *)
Fixpoint strictly_sorted (c : loc → loc → Z) (l : list loc) : Prop :=
  match l with
  | [] => True
  | x :: l' =>
      match l' with [] => True | y :: _ => c x y < 0 end ∧
      strictly_sorted c l'
  end.

Lemma before_elem_of r x y : before r x y → x ∈ r ∧ y ∈ r.
Proof.
  induction r as [|z r IH]; simpl; [done|].
  intros [[-> Hy]|H]; [set_solver|]. destruct (IH H). set_solver.
Qed.

Section order_facts.
Variable c : loc → loc → Z.
Hypothesis Hc : order c.

Lemma order_refl x : c x x = 0.
Proof. pose proof (order_antisym c Hc x x). lia. Qed.

Lemma adj_sorted_hd_le x l y : adj_sorted c (x :: l) → y ∈ l → c x y ≤ 0.
Proof.
  revert x. induction l as [|z l IH]; intros x [Hx S] Hy; [set_solver|].
  simpl in Hx. apply elem_of_cons in Hy as [->|Hy]; [done|].
  apply (order_le_le c Hc x z y); [done|]. by apply IH.
Qed.

Lemma strictly_sorted_hd_lt x l y :
  strictly_sorted c (x :: l) → y ∈ l → c x y < 0.
Proof.
  revert x. induction l as [|z l IH]; intros x [Hx S] Hy; [set_solver|].
  apply elem_of_cons in Hy as [->|Hy]; [done|].
  apply (order_lt_le c Hc x z y); [done|].
  assert (c z y < 0) by by apply IH. lia.
Qed.

(** No two elements of a strictly sorted list compare equal. *)
Lemma strictly_sorted_distinct l x y :
  strictly_sorted c l → x ∈ l → y ∈ l → c x y = 0 → x = y.
Proof.
  induction l as [|z l IH]; intros S Hx Hy E; [set_solver|].
  apply elem_of_cons in Hx as [->|Hx]; apply elem_of_cons in Hy as [->|Hy].
  - done.
  - pose proof (strictly_sorted_hd_lt _ _ _ S Hy). lia.
  - pose proof (strictly_sorted_hd_lt _ _ _ S Hx).
    pose proof (order_antisym c Hc z x). lia.
  - destruct S as [_ S]. by apply IH.
Qed.

(** *** The merge *)

Lemma merge_list_sublist_l la lb : sublist la (merge_list c la lb).
Proof.
  revert lb. induction la as [|x la IHa]; intros lb.
  { apply sublist_nil_l. }
  induction lb as [|y lb IHb].
  { by rewrite merge_list_nil_r. }
  rewrite merge_list_cons. destruct (c x y <? 0).
  - by apply sublist_skip.
  - by apply sublist_cons.
Qed.

Lemma merge_list_sublist_r la lb : sublist lb (merge_list c la lb).
Proof.
  revert lb. induction la as [|x la IHa]; intros lb.
  { by rewrite merge_list_nil_l. }
  induction lb as [|y lb IHb].
  { apply sublist_nil_l. }
  rewrite merge_list_cons. destruct (c x y <? 0).
  - by apply sublist_cons.
  - by apply sublist_skip.
Qed.

(** In the merge of two sorted lists, an element of [la] comes before an
    element of [lb] exactly when it compares strictly less: on a tie the
    element of [lb] goes first. *)
Lemma merge_list_before la lb :
  adj_sorted c la → adj_sorted c lb → NoDup (la ++ lb) →
  ∀ x y, x ∈ la → y ∈ lb →
         (before (merge_list c la lb) x y ↔ c x y < 0).
Proof.
  revert lb. induction la as [|x0 la IHa]; intros lb.
  { intros _ _ _ x y Hx. set_solver. }
  induction lb as [|y0 lb IHb].
  { intros _ _ _ x y _ Hy. set_solver. }
  intros Sa Sb ND x y Hx Hy. rewrite merge_list_cons.
  assert (x0 ≠ y0 ∧ x0 ∉ la ∧ y0 ∉ lb ∧ x0 ∉ lb ∧ y0 ∉ la)
    as (? & ? & ? & ? & ?).
  { clear -ND. simpl in ND. nodup_split. set_solver. }
  destruct (Z.ltb_spec (c x0 y0) 0) as [Hlt|Hge]; cbn [before].
  - apply elem_of_cons in Hx as [->|Hx].
    + assert (c x0 y < 0).
      { apply elem_of_cons in Hy as [->|Hy]; [done|].
        apply (order_lt_le c Hc x0 y0 y); [done|].
        by apply (adj_sorted_hd_le y0 lb). }
      split; [done|]. intros _. left. split; [done|].
      rewrite merge_list_perm. set_solver.
    + rewrite <- (IHa (y0 :: lb)); try done.
      * split; [|by right]. intros [[-> _]|?]; [done|done].
      * by destruct Sa.
      * simpl in ND. by apply NoDup_cons in ND as [_ ?].
  - apply elem_of_cons in Hy as [->|Hy].
    + assert (¬ c x y0 < 0).
      { pose proof (order_antisym c Hc x0 y0) as Ha.
        pose proof (order_antisym c Hc x y0) as Ha'.
        assert (c y0 x ≤ 0); [|lia].
        apply elem_of_cons in Hx as [->|Hx]; [lia|].
        apply (order_le_le c Hc y0 x0 x); [lia|].
        by apply (adj_sorted_hd_le x0 la). }
      split; [|done]. intros [[-> _]|Hb].
      * apply elem_of_cons in Hx as [->|Hx]; done.
      * apply before_elem_of in Hb as [_ Hb].
        rewrite merge_list_perm in Hb. set_solver.
    + rewrite <- IHb; try done.
      * split; [|by right]. intros [[-> _]|?]; [|done].
        apply elem_of_cons in Hx as [->|Hx]; done.
      * by destruct Sb.
      * clear -ND. simpl in *. nodup_split.
        apply NoDup_cons. split; [set_solver|].
        apply NoDup_app. repeat split; [done|set_solver|done].
Qed.

(** *** Deduplication *)

Lemma dedup_from_spec cur l :
  le_hd c cur l → adj_sorted c l →
  sublist (dedup_from c cur l) l ∧
  strictly_sorted c (cur :: dedup_from c cur l) ∧
  ∀ x, x ∈ l → c cur x = 0 ∨ ∃ y, y ∈ dedup_from c cur l ∧ c y x = 0.
Proof.
  revert cur. induction l as [|x l IH]; intros cur Hhd S.
  { simpl. repeat split; [done|set_solver]. }
  simpl in Hhd. destruct S as [Hx S]. cbn [dedup_from].
  destruct (Z.eqb_spec (c cur x) 0) as [E|E].
  - destruct (IH cur) as (Hs & Hst & He); [|done|].
    { destruct l as [|z l]; [done|]. simpl in *.
      apply (order_le_le c Hc cur x z); [lia|done]. }
    split; [by apply sublist_cons|]. split; [done|].
    intros z [->|Hz]%elem_of_cons; [by left|]. by apply He.
  - destruct (IH x Hx S) as (Hs & Hst & He).
    split; [by apply sublist_skip|]. split.
    { split; [lia|done]. }
    intros z [->|Hz]%elem_of_cons.
    + right. exists x. split; [set_solver|]. apply order_refl.
    + right. destruct (He z Hz) as [E0|(y & Hy & E0)].
      * exists x. split; [set_solver|done].
      * exists y. split; [set_solver|done].
Qed.

(** What is left of a sorted list: a subsequence of it, with one element
    for each value. *)
Lemma dedup_adj_spec l :
  adj_sorted c l →
  sublist (dedup_adj c l) l ∧
  strictly_sorted c (dedup_adj c l) ∧
  (∀ x, x ∈ l → ∃ y, y ∈ dedup_adj c l ∧ c y x = 0) ∧
  (∀ y1 y2, y1 ∈ dedup_adj c l → y2 ∈ dedup_adj c l →
            c y1 y2 = 0 → y1 = y2).
Proof.
  intros S. assert (sublist (dedup_adj c l) l ∧
                    strictly_sorted c (dedup_adj c l) ∧
                    (∀ x, x ∈ l → ∃ y, y ∈ dedup_adj c l ∧ c y x = 0))
    as (Hs & Hst & He).
  { destruct l as [|x l]; [simpl; repeat split; [done|set_solver]|].
    destruct S as [Hx S]. cbn [dedup_adj].
    destruct (dedup_from_spec x l Hx S) as (Hs & Hst & He).
    split; [by apply sublist_skip|]. split; [done|].
    intros z [->|Hz]%elem_of_cons.
    - exists x. split; [set_solver|]. apply order_refl.
    - destruct (He z Hz) as [E0|(y & Hy & E0)].
      + exists x. split; [set_solver|done].
      + exists y. split; [set_solver|done]. }
  repeat split; try done. intros y1 y2.
  by apply strictly_sorted_distinct.
Qed.
End order_facts.

(** ** Reachable queues *)

(** The operations a caller applies to a queue it holds. *)
Inductive queue_op :=
  | OpInsertHead (ok_elem ok_value : bool) (s : list byte)
  | OpInsertTail (ok_elem ok_value : bool) (s : list byte)
  | OpRemoveHead (sp : option (list byte)) (bufsize : Z)
  | OpRemoveTail (sp : option (list byte)) (bufsize : Z)
  | OpSize
  | OpDeleteMid
  | OpDeleteDup
  | OpSwap
  | OpReverse
  | OpSort.

(** The store an operation leaves, when it returns. *)
Definition run_op (fuel : nat) (op : queue_op) (head : loc) (h : heap)
  : option heap :=
  match op with
  | OpInsertHead a b s => r ← q_insert_head a b head s h; Some r.2
  | OpInsertTail a b s => r ← q_insert_tail a b head s h; Some r.2
  | OpRemoveHead sp n => r ← q_remove_head head sp n h; Some r.2
  | OpRemoveTail sp n => r ← q_remove_tail head sp n h; Some r.2
  | OpSize => _ ← q_size fuel head h; Some h
  | OpDeleteMid => r ← q_delete_mid fuel head h; Some r.2
  | OpDeleteDup => r ← q_delete_dup fuel head h; Some r.2
  | OpSwap => q_swap fuel head h
  | OpReverse => q_reverse fuel head h
  | OpSort => q_sort fuel head h
  end.

(** The stores in which [head] is a queue: made by [q_new] in any store,
    then changed by operations that return. *)
Inductive reachable : loc → heap → Prop :=
  | reach_new h0 head h :
      q_new true h0 = Some (head, h) → reachable head h
  | reach_op fuel op head h h' :
      reachable head h → run_op fuel op head h = Some h' →
      reachable head h'.

(** [head.next.prev == head] and [head.prev.next == head]. *)
Definition consistent (h : heap) (head : loc) : Prop :=
  ∃ n p, nxt h head = Some n ∧ prv h n = Some head ∧
         prv h head = Some p ∧ nxt h p = Some head.

(** The claim that ties go to [a]: an element of [lb] stands before an
    element of [la] in the result [r] only when it compares strictly less. *)
Definition ties_favor_a (c : loc → loc → Z) (la lb r : list loc) : Prop :=
  ∀ x y, x ∈ la → y ∈ lb → before r y x → c y x < 0.

(** ** Sample stores *)

(** A string literal as a NUL-terminated buffer. *)
Definition cbuf (s : string) : list byte :=
  String.list_byte_of_string s ++ [NUL].

(** The store of a queue whose sentinel is at address 1 and whose elements,
    at addresses 2, 3, ..., hold the given payloads in this order. *)
Definition mk_queue (vs : list (list byte)) : heap :=
  let n := Z.of_nat (length vs) in
  Heap (list_to_map
          ((1, ListHead (1 + n) (if n =? 0 then 1 else 2)) ::
           imap (λ i _, let a := Z.of_nat i + 2 in
                        (a, ListHead (a - 1)
                                     (if a =? n + 1 then 1 else a + 1)))
                vs))
       (list_to_map (imap (λ i v, (Z.of_nat i + 2, v)) vs)).

(** Two one-element queues, at sentinels 1 and 2, whose elements 3 and 4
    hold equal strings. *)
Definition tie_heap : heap :=
  Heap (list_to_map [(1, ListHead 3 3); (3, ListHead 1 1);
                     (2, ListHead 4 4); (4, ListHead 2 2)])
       (list_to_map [(3, cbuf "k"); (4, cbuf "k")]).

(** A string of [2^32] characters and its terminator. *)
Definition huge_string : list byte :=
  replicate (Z.to_nat 4294967296) "a"%byte ++ [NUL].

Global Instance edge_dec h x y : Decision (edge h x y).
Proof. unfold edge. apply _. Defined.

Global Instance path_dec h x l : Decision (path h x l).
Proof. revert x. induction l; intros x; simpl; apply _. Defined.

Global Instance ring_dec h head l : Decision (ring h head l).
Proof. unfold ring. apply _. Defined.

Global Instance le_hd_dec c z l : Decision (le_hd c z l).
Proof. destruct l; simpl; apply _. Defined.

Global Instance adj_sorted_dec c l : Decision (adj_sorted c l).
Proof. induction l; simpl; apply _. Defined.

Global Instance has_vals_dec h l : Decision (has_vals h l).
Proof.
  destruct (decide (Forall (λ x, is_Some (vals h !! x)) l)) as [H|H].
  - left. intros x Hx. by apply (proj1 (Forall_forall _ _) H).
  - right. intros V. apply H, Forall_forall. exact V.
Defined.

(** * The claims *)

(** ** C1: the middle *)

(** C1.  On the ring built from a, b, c, d, e, f the walk of [q_mid] stops
    at the element that holds c, at index 2 = (6 - 1) / 2, and not at the
    element that holds d, at index 3 = 6 / 2, which the claim and the comment
    on [q_delete_mid] name. *)
Theorem q_mid_six :
  let h := mk_queue (cbuf <$> ["a"; "b"; "c"; "d"; "e"; "f"]) in
  let l := [2; 3; 4; 5; 6; 7] in
  ring h 1 l ∧ key h <$> l = cbuf <$> ["a"; "b"; "c"; "d"; "e"; "f"] ∧
  q_mid 7 1 h = Some 4 ∧
  l !! 2%nat = Some 4 ∧ key h 4 = cbuf "c" ∧
  l !! (6 / 2)%nat = Some 5 ∧ key h 5 = cbuf "d".
Proof.
  cbv zeta. split; [compute_done|]. repeat split; reflexivity.
Qed.

(** ** C3: sort *)

Lemma adj_sorted_lookup c l i e1 e2 :
  adj_sorted c l → l !! i = Some e1 → l !! S i = Some e2 → c e1 e2 ≤ 0.
Proof.
  revert i. induction l as [|x l IH]; intros i S H1 H2; [done|].
  destruct S as [Hx S]. destruct i as [|i]; simpl in *.
  - injection H1 as ->. destruct l; simpl in *; [done|].
    by injection H2 as ->.
  - by apply (IH i).
Qed.

(** C3.  For every ring whose elements own their payloads, [q_sort] returns
    (the fuel covers the recursion), the result is a ring of the same
    elements with the same payloads, and every adjacent pair [(e1, e2)] in
    traversal order satisfies [cmp(e1, e2) <= 0]. *)
Theorem q_sort_sorted h head l fuel :
  ring h head l → has_vals h l → (length l + 2 ≤ fuel)%nat →
  ∃ h' l', q_sort fuel head h = Some h' ∧
           ring h' head l' ∧ l' ≡ₚ l ∧ vals h' = vals h ∧
           ∀ i e1 e2, l' !! i = Some e1 → l' !! S i = Some e2 →
                      ∃ z, cmp e1 e2 h' = Some z ∧ z ≤ 0.
Proof.
  intros R V Hf.
  destruct (ensures_total _ _ _ (q_sort_spec fuel h head l R V))
    as (h' & E & l' & R' & P & S & [V' _]); [lia|].
  exists h', l'. split; [done|]. split; [done|]. split; [done|].
  split; [done|]. intros i e1 e2 H1 H2. exists (cmpk h e1 e2). split.
  - rewrite <- (cmpk_vals_eq _ _ V'). apply cmp_cmpk; rewrite V'; apply V.
    + rewrite <- P. by eapply list_elem_of_lookup_2.
    + rewrite <- P. by eapply list_elem_of_lookup_2.
  - by eapply adj_sorted_lookup.
Qed.

Lemma q_sort_sorted_witness :
  let h := mk_queue (cbuf <$> ["d"; "b"; "c"; "b"; "a"]) in
  ring h 1 [2; 3; 4; 5; 6] ∧ has_vals h [2; 3; 4; 5; 6] ∧
  (length [2; 3; 4; 5; 6] + 2 ≤ 7)%nat ∧
  ∃ h' l', q_sort 7 1 h = Some h' ∧
           ring h' 1 l' ∧ l' ≡ₚ [2; 3; 4; 5; 6] ∧ vals h' = vals h ∧
           ∀ i e1 e2, l' !! i = Some e1 → l' !! S i = Some e2 →
                      ∃ z, cmp e1 e2 h' = Some z ∧ z ≤ 0.
Proof.
  cbv zeta. split; [compute_done|]. split; [compute_done|].
  split; [compute_done|].
  apply (q_sort_sorted _ 1 [2; 3; 4; 5; 6] 7); compute_done.
Defined.

(** ** C5: reversal *)

(** C5.  For every ring, [q_reverse] returns a ring of the same elements in
    the opposite order, and a second [q_reverse] gives back the store the
    first one started from: the original order is restored. *)
Theorem q_reverse_involutive h head l fuel :
  ring h head l → (length l < fuel)%nat →
  ∃ h1, q_reverse fuel head h = Some h1 ∧ ring h1 head (rev l) ∧
        q_reverse fuel head h1 = Some h ∧ ring h head (rev (rev l)).
Proof.
  intros R Hf.
  destruct (ensures_total _ _ _ (q_reverse_spec h head l fuel R))
    as (h1 & E1 & R1 & S1); [lia|].
  destruct (ensures_total _ _ _ (q_reverse_spec h1 head (rev l) fuel R1))
    as (h2 & E2 & R2 & S2); [rewrite length_rev; lia|].
  exists h1. split; [done|]. split; [done|].
  rewrite rev_involutive. split; [|done]. rewrite E2. f_equal.
  destruct S1 as [V1 S1], S2 as [V2 S2]. apply links_ext; [congruence|].
  intros q. destruct (decide (q ∈ head :: l)) as [Hq|Hq].
  - assert (Hq' : q ∈ head :: rev l).
    { apply elem_of_cons in Hq as [->|Hq]; [set_solver|].
      apply elem_of_cons. right. by apply elem_of_rev. }
    destruct (proj1 (S2 q) Hq') as [-> ->].
    destruct (proj1 (S1 q) Hq) as [-> ->]. done.
  - assert (Hq' : q ∉ head :: rev l).
    { intros Hin. apply Hq. apply elem_of_cons in Hin as [->|Hin];
        [set_solver|]. apply elem_of_cons. right. by apply elem_of_rev. }
    destruct (proj2 (S2 q) Hq') as [-> ->].
    destruct (proj2 (S1 q) Hq) as [-> ->]. done.
Qed.

Lemma q_reverse_involutive_witness :
  let h := mk_queue (cbuf <$> ["a"; "b"; "c"]) in
  ring h 1 [2; 3; 4] ∧ (length [2; 3; 4] < 4)%nat ∧
  ∃ h1, q_reverse 4 1 h = Some h1 ∧ ring h1 1 (rev [2; 3; 4]) ∧
        q_reverse 4 1 h1 = Some h ∧ ring h 1 (rev (rev [2; 3; 4])).
Proof.
  cbv zeta. split; [compute_done|]. split; [compute_done|].
  apply (q_reverse_involutive _ 1 [2; 3; 4] 4); compute_done.
Defined.

(** ** C6: pairwise swap *)

(** C6.  For every ring whose elements own their payloads, [q_swap] leaves
    every link as it was (the nodes keep their positions) and exchanges the
    payloads of each adjacent pair; the last element of a ring of odd length
    keeps its payload. *)
Theorem q_swap_pairs h head l fuel :
  ring h head l → has_vals h l → (length l < fuel)%nat →
  ∃ h', q_swap fuel head h = Some h' ∧
        links h' = links h ∧ ring h' head l ∧
        key h' <$> l = swap_pairs (key h <$> l).
Proof.
  intros R V Hf.
  destruct (ensures_total _ _ _ (q_swap_spec h head l fuel R V))
    as (h' & E & EL & EK & _); [lia|].
  exists h'. split; [done|]. split; [done|]. split; [|done].
  by apply (ring_links_eq h).
Qed.

Lemma q_swap_pairs_witness :
  let h := mk_queue (cbuf <$> ["1"; "2"; "3"; "4"]) in
  ring h 1 [2; 3; 4; 5] ∧ has_vals h [2; 3; 4; 5] ∧
  (length [2; 3; 4; 5] < 5)%nat ∧
  ∃ h', q_swap 5 1 h = Some h' ∧
        links h' = links h ∧ ring h' 1 [2; 3; 4; 5] ∧
        key h' <$> [2; 3; 4; 5] = swap_pairs (key h <$> [2; 3; 4; 5]).
Proof.
  cbv zeta. split; [compute_done|]. split; [compute_done|].
  split; [compute_done|].
  apply (q_swap_pairs _ 1 [2; 3; 4; 5] 5); compute_done.
Defined.

(** The two rings the claim names: [1,2,3,4] becomes [2,1,4,3], and
    [1,2,3] becomes [2,1,3]. *)
Example q_swap_examples :
  (key <$> q_swap 5 1 (mk_queue (cbuf <$> ["1"; "2"; "3"; "4"])))
    ≫= (λ k, Some (k <$> [2; 3; 4; 5]))
  = Some (cbuf <$> ["2"; "1"; "4"; "3"]) ∧
  (key <$> q_swap 4 1 (mk_queue (cbuf <$> ["1"; "2"; "3"])))
    ≫= (λ k, Some (k <$> [2; 3; 4]))
  = Some (cbuf <$> ["2"; "1"; "3"]).
Proof. split; reflexivity. Qed.

(** ** C7: removal from no queue and from an empty queue *)

(** C7.  For an absent queue and for an empty ring, [q_remove_head] and
    [q_remove_tail] return [NULL]; the run has a result (no fault), and the
    output buffer and the store are as they were. *)
Theorem q_remove_nothing h head sp bufsize :
  head = NULL ∨ ring h head [] →
  q_remove_head head sp bufsize h = Some (NULL, sp, h) ∧
  q_remove_tail head sp bufsize h = Some (NULL, sp, h).
Proof.
  intros H. split.
  - apply (q_remove_head_absent _ _ _ _ []). tauto.
  - apply (q_remove_tail_absent _ _ _ _ []). tauto.
Qed.

Lemma q_remove_nothing_witness :
  (1 = NULL ∨ ring (mk_queue []) 1 []) ∧
  q_remove_head 1 (Some (cbuf "xyz")) 4 (mk_queue [])
  = Some (NULL, Some (cbuf "xyz"), mk_queue []) ∧
  q_remove_tail 1 (Some (cbuf "xyz")) 4 (mk_queue [])
  = Some (NULL, Some (cbuf "xyz"), mk_queue []).
Proof.
  assert (H : 1 = NULL ∨ ring (mk_queue []) 1 []) by (right; compute_done).
  split; [exact H|]. exact (q_remove_nothing _ 1 _ 4 H).
Defined.

(** ** C9: the terminator store *)

(** C9.  On a non-empty ring, with an output buffer that holds at least
    [bufsize] bytes, [q_remove_head] and [q_remove_tail] return when
    [bufsize >= 1]; with [bufsize = 0] the store [sp[bufsize - 1] = 0] is at
    index [SIZE_MAX], outside the buffer, and the run has no result. *)
Theorem q_remove_terminator_store h head l buf bufsize :
  ring h head l → l ≠ [] → has_vals h l →
  0 ≤ bufsize ≤ Z.of_nat (length buf) → Z.of_nat (length buf) ≤ SIZE_MAX →
  (1 ≤ bufsize →
   is_Some (q_remove_head head (Some buf) bufsize h) ∧
   is_Some (q_remove_tail head (Some buf) bufsize h)) ∧
  (bufsize = 0 →
   q_remove_head head (Some buf) bufsize h = None ∧
   q_remove_tail head (Some buf) bufsize h = None).
Proof.
  intros R Hl V Hb Hc.
  assert (∀ x, x ∈ l →
            (1 ≤ bufsize → is_Some (copy_out (Some buf) x bufsize h)) ∧
            (bufsize = 0 → copy_out (Some buf) x bufsize h = None)) as Hcopy.
  { intros x Hx. pose proof (copy_out_is_Some buf x bufsize h (V x Hx) Hb Hc)
      as Hiff. split; [by apply Hiff|]. intros ->.
    destruct (copy_out _ _ _ _) eqn:E; [|done].
    assert (1 ≤ 0); [|lia]. apply Hiff. eauto. }
  assert (∃ x l', l = x :: l') as (x & l' & Ex) by (destruct l; [done|eauto]).
  assert (∃ y l'', l = l'' ++ [y]) as (y & l'' & Ey).
  { destruct (last_cons_snoc x l') as (k & y & E & _). exists y, k.
    by rewrite Ex. }
  assert (Rx := R). rewrite Ex in Rx. assert (Ry := R). rewrite Ey in Ry.
  destruct (q_remove_head_ring _ _ _ _ (Some buf) bufsize Rx)
    as (h1 & _ & _ & ->).
  destruct (q_remove_tail_ring _ _ _ _ (Some buf) bufsize Ry)
    as (h2 & _ & _ & ->).
  destruct (Hcopy x) as [Hx1 Hx0]; [rewrite Ex; set_solver|].
  destruct (Hcopy y) as [Hy1 Hy0]; [rewrite Ey; set_solver|].
  split.
  - intros H1. destruct (Hx1 H1) as [? ->], (Hy1 H1) as [? ->]. simpl. eauto.
  - intros H0. by rewrite (Hx0 H0), (Hy0 H0).
Qed.

Lemma q_remove_terminator_store_witness :
  let h := mk_queue (cbuf <$> ["a"; "b"]) in
  ring h 1 [2; 3] ∧ [2; 3] ≠ [] ∧ has_vals h [2; 3] ∧
  0 ≤ 0 ≤ Z.of_nat (length (cbuf "xyz")) ∧
  Z.of_nat (length (cbuf "xyz")) ≤ SIZE_MAX ∧
  (1 ≤ 0 →
   is_Some (q_remove_head 1 (Some (cbuf "xyz")) 0 h) ∧
   is_Some (q_remove_tail 1 (Some (cbuf "xyz")) 0 h)) ∧
  (0 = 0 →
   q_remove_head 1 (Some (cbuf "xyz")) 0 h = None ∧
   q_remove_tail 1 (Some (cbuf "xyz")) 0 h = None).
Proof.
  cbv zeta. split; [compute_done|]. split; [done|]. split; [compute_done|].
  split; [compute_done|]. split; [compute_done|].
  apply (q_remove_terminator_store _ 1 [2; 3] (cbuf "xyz") 0);
    (done || compute_done).
Defined.

(** ** C2: merge *)

(** On a tie [merge] moves the front of [b]: the two one-element rings of
    [tie_heap] hold equal strings, and the element of [b] ends before the
    element of [a]. *)
Lemma merge_tie_counterexample :
  ring tie_heap 1 [3] ∧ ring tie_heap 2 [4] ∧
  adj_sorted (cmpk tie_heap) [3] ∧ adj_sorted (cmpk tie_heap) [4] ∧
  cmp 4 3 tie_heap = Some 0 ∧
  ∃ h', merge 3 1 2 tie_heap = Some h' ∧ ring h' 1 [4; 3] ∧
        ¬ ties_favor_a (cmpk tie_heap) [3] [4] [4; 3].
Proof.
  split; [compute_done|]. split; [compute_done|]. split; [compute_done|].
  split; [compute_done|]. split; [reflexivity|].
  eexists. split; [vm_compute; reflexivity|]. split; [compute_done|].
  intros H. assert (cmpk tie_heap 4 3 < 0) as Hlt; [|by vm_compute in Hlt].
  apply H; [set_solver..|]. simpl. left. split; [done|set_solver].
Qed.

(** C2, amended.  For every pair of sorted rings [a] and [b], [merge]
    returns with [b] empty and [a] holding the elements of both, sorted; each
    round moves the front of [a] only when it compares strictly less than
    the front of [b], so that an element of [a] stands before an element of
    [b] exactly when it is strictly smaller (ties go to [b]); the order
    within [a] and within [b] is kept. *)
Theorem merge_stable h a b la lb fuel :
  ring h a la → ring h b lb → (a :: la) ## (b :: lb) →
  has_vals h (la ++ lb) →
  adj_sorted (cmpk h) la → adj_sorted (cmpk h) lb →
  (length la + length lb < fuel)%nat →
  ∃ h' r, merge fuel a b h = Some h' ∧
          ring h' a r ∧ ring h' b [] ∧ vals h' = vals h ∧
          r = merge_list (cmpk h) la lb ∧ r ≡ₚ la ++ lb ∧
          adj_sorted (cmpk h) r ∧ sublist la r ∧ sublist lb r ∧
          ∀ x y, x ∈ la → y ∈ lb → (before r x y ↔ cmpk h x y < 0).
Proof.
  intros Ra Rb D V Sa Sb Hf.
  destruct (ensures_total _ _ _ (merge_spec h a b la lb fuel Ra Rb D V))
    as (h' & E & Ra' & Rb' & [V' _]); [lia|].
  pose proof (cmpk_order h) as Hc.
  exists h', (merge_list (cmpk h) la lb). split; [done|].
  split; [done|]. split; [done|]. split; [done|]. split; [done|].
  split; [apply merge_list_perm|]. split.
  { apply merge_list_sorted; [|done..]. intros x y Hxy.
    rewrite cmpk_antisym. lia. }
  split; [apply merge_list_sublist_l|]. split; [apply merge_list_sublist_r|].
  apply merge_list_before; [done..|].
  apply ring_NoDup in Ra, Rb. clear -Ra Rb D. nodup_split.
  apply NoDup_app. repeat split; [done| |done]. set_solver.
Qed.

Lemma merge_stable_witness :
  ring tie_heap 1 [3] ∧ ring tie_heap 2 [4] ∧ (1 :: [3]) ## (2 :: [4]) ∧
  has_vals tie_heap ([3] ++ [4]) ∧
  adj_sorted (cmpk tie_heap) [3] ∧ adj_sorted (cmpk tie_heap) [4] ∧
  (length [3] + length [4] < 3)%nat ∧
  ∃ h' r, merge 3 1 2 tie_heap = Some h' ∧
          ring h' 1 r ∧ ring h' 2 [] ∧ vals h' = vals tie_heap ∧
          r = merge_list (cmpk tie_heap) [3] [4] ∧ r ≡ₚ [3] ++ [4] ∧
          adj_sorted (cmpk tie_heap) r ∧ sublist [3] r ∧ sublist [4] r ∧
          ∀ x y, x ∈ [3] → y ∈ [4] →
                 (before r x y ↔ cmpk tie_heap x y < 0).
Proof.
  assert (D : (1 :: [3]) ## (2 :: [4])) by set_solver.
  split; [compute_done|]. split; [compute_done|]. split; [exact D|].
  split; [compute_done|]. split; [compute_done|]. split; [compute_done|].
  split; [compute_done|].
  apply (merge_stable tie_heap 1 2 [3] [4] 3); (exact D || compute_done).
Defined.

(** ** C4: duplicates *)

(** C4.  [q_delete_dup] returns false for an absent queue and true for an
    empty ring.  On a ring sorted in ascending order it returns true and
    leaves a subsequence of the elements, with their payloads, in which every
    value of the ring has one element and no two elements hold equal
    strings. *)
Theorem q_delete_dup_sorted h head l fuel :
  ring h head l → has_vals h l → adj_sorted (cmpk h) l →
  (length l < fuel)%nat →
  q_delete_dup fuel NULL h = Some (false, h) ∧
  (l = [] → q_delete_dup fuel head h = Some (true, h)) ∧
  ∃ h' r, q_delete_dup fuel head h = Some (true, h') ∧
          ring h' head r ∧ sublist r l ∧
          (∀ y, y ∈ r → vals h' !! y = vals h !! y) ∧
          (∀ x, x ∈ l → ∃ y, y ∈ r ∧ cmpk h y x = 0) ∧
          (∀ y1 y2, y1 ∈ r → y2 ∈ r → cmpk h y1 y2 = 0 → y1 = y2).
Proof.
  intros R V S Hf. split; [done|]. split.
  { intros ->. unfold q_delete_dup.
    assert (head ≠ NULL) as HN
      by (apply (ring_not_NULL _ _ _ _ R); set_solver).
    by rewrite (proj2 (Z.eqb_neq _ _) HN), (list_empty_ring _ _ _ R). }
  destruct (ensures_total _ _ _ (q_delete_dup_spec h head l fuel R V))
    as ([b h'] & E & Eb & R' & V'); [lia|]. simpl in *. subst b.
  destruct (dedup_adj_spec (cmpk h) (cmpk_order h) l S)
    as (Hs & _ & He & Hu).
  exists h', (dedup_adj (cmpk h) l). done.
Qed.

Lemma q_delete_dup_sorted_witness :
  let h := mk_queue (cbuf <$> ["a"; "a"; "b"; "c"; "c"; "c"]) in
  let l := [2; 3; 4; 5; 6; 7] in
  ring h 1 l ∧ has_vals h l ∧ adj_sorted (cmpk h) l ∧
  (length l < 7)%nat ∧
  q_delete_dup 7 NULL h = Some (false, h) ∧
  (l = [] → q_delete_dup 7 1 h = Some (true, h)) ∧
  ∃ h' r, q_delete_dup 7 1 h = Some (true, h') ∧
          ring h' 1 r ∧ sublist r l ∧
          (∀ y, y ∈ r → vals h' !! y = vals h !! y) ∧
          (∀ x, x ∈ l → ∃ y, y ∈ r ∧ cmpk h y x = 0) ∧
          (∀ y1 y2, y1 ∈ r → y2 ∈ r → cmpk h y1 y2 = 0 → y1 = y2).
Proof.
  cbv zeta. split; [compute_done|]. split; [compute_done|].
  split; [compute_done|]. split; [compute_done|].
  apply (q_delete_dup_sorted _ 1 [2; 3; 4; 5; 6; 7] 7); compute_done.
Defined.

(** ** C10: the caller's string *)

Lemma strlen_replicate (N : nat) (c : byte) (t : list byte) :
  uchar c ≠ 0 → strlen (replicate N c ++ NUL :: t) = Some (Z.of_nat N).
Proof.
  intros Hc. induction N as [|N IH]; [done|].
  cbn [replicate app strlen]. rewrite (proj2 (Z.eqb_neq _ _) Hc), IH.
  cbn [mbind option_bind]. f_equal. lia.
Qed.

(** A string of [2^32] characters: [strlen(s) + 1] is 1 as an [int], one
    byte is copied, and the store [s[length - 1] = 0] hits the first
    character. *)
Lemma create_element_wraps (N : nat) h :
  Z.of_nat N = 4294967296 →
  create_element true true (replicate N "a"%byte ++ [NUL]) h
  = Some (fresh_loc h, <[0%nat := NUL]> (replicate N "a"%byte ++ [NUL]),
          Heap (<[fresh_loc h := ListHead NULL NULL]> (links h))
               (<[fresh_loc h := ["a"%byte]]> (vals h))).
Proof.
  intros HN. unfold create_element, malloc_node. cbn [negb].
  rewrite strlen_replicate by done. cbn [mbind option_bind]. rewrite HN.
  change (to_int (to_size_t (4294967296 + 1))) with 1.
  change (to_size_t 1) with 1. change (Z.to_nat 1) with 1%nat.
  destruct N as [|N]; [done|].
  cbn [replicate app]. unfold strncpy, store_byte.
  cbn [length cstr]. change (uchar "a" =? 0) with false. cbv iota.
  change (Z.of_nat 1 <? 1) with false. cbn [take drop app].
  cbn [mbind option_bind]. change (1 - 1) with 0.
  change (0 <=? 0) with true.
  replace (0 <? Z.of_nat (S (length (replicate N "a"%byte ++ [NUL]))))
    with true by (symmetry; apply Z.ltb_lt; lia).
  done.
Qed.

Lemma q_insert_head_run ok_elem ok_value head s h l e s1 h1 :
  ring h head l →
  create_element ok_elem ok_value s h = Some (e, s1, h1) →
  ∃ b h', q_insert_head ok_elem ok_value head s h = Some (b, s1, h') ∧
          (b = true ↔ e ≠ NULL).
Proof.
  intros R Ec. unfold q_insert_head.
  assert (head ≠ NULL) as HN by (apply (ring_not_NULL _ _ _ _ R); set_solver).
  rewrite (proj2 (Z.eqb_neq _ _) HN), Ec. cbn [mbind option_bind].
  destruct (create_element_inv _ _ _ _ _ _ _ Ec)
    as [[-> ->]|(-> & EL & v & EV)].
  { exists false, h. split; [done|]. split; done. }
  destruct (fresh_loc_spec h) as (Nf & Lf & Vf).
  rewrite (proj2 (Z.eqb_neq _ _) Nf).
  destruct (q_insert_ring h head l (fresh_loc h) v R Lf Nf) as (R1 & A1 & Hp).
  assert (R1' : ring h1 head l).
  { eapply ring_links_eq; [|exact R1]. by rewrite EL. }
  assert (A1' : alive h1 (fresh_loc h)).
  { unfold alive. rewrite EL, lookup_insert_eq. eauto. }
  destruct (ring_list_add _ _ _ _ R1' A1' Hp Nf) as (h2 & E2 & _).
  rewrite E2. exists true, h2. done.
Qed.

Lemma q_insert_tail_run ok_elem ok_value head s h l e s1 h1 :
  ring h head l →
  create_element ok_elem ok_value s h = Some (e, s1, h1) →
  ∃ b h', q_insert_tail ok_elem ok_value head s h = Some (b, s1, h') ∧
          (b = true ↔ e ≠ NULL).
Proof.
  intros R Ec. unfold q_insert_tail.
  assert (head ≠ NULL) as HN by (apply (ring_not_NULL _ _ _ _ R); set_solver).
  rewrite (proj2 (Z.eqb_neq _ _) HN), Ec. cbn [mbind option_bind].
  destruct (create_element_inv _ _ _ _ _ _ _ Ec)
    as [[-> ->]|(-> & EL & v & EV)].
  { exists false, h. split; [done|]. split; done. }
  destruct (fresh_loc_spec h) as (Nf & Lf & Vf).
  rewrite (proj2 (Z.eqb_neq _ _) Nf).
  destruct (q_insert_ring h head l (fresh_loc h) v R Lf Nf) as (R1 & A1 & Hp).
  assert (R1' : ring h1 head l).
  { eapply ring_links_eq; [|exact R1]. by rewrite EL. }
  assert (A1' : alive h1 (fresh_loc h)).
  { unfold alive. rewrite EL, lookup_insert_eq. eauto. }
  destruct (ring_list_add_tail _ _ _ _ R1' A1' Hp Nf) as (h2 & E2 & _).
  rewrite E2. exists true, h2. done.
Qed.

(** With a string that fits, [create_element] returns whatever the
    allocator does, and the string is as it was. *)
Lemma create_element_small_run s n h ok_elem ok_value :
  strlen s = Some n → n + 1 ≤ INT_MAX →
  ∃ e h', create_element ok_elem ok_value s h = Some (e, s, h') ∧
          (e ≠ NULL ↔ ok_elem = true ∧ ok_value = true).
Proof.
  intros Hn Hmax. destruct (create_element_small s n h Hn Hmax) as [_ Ett].
  destruct (fresh_loc_spec h) as (Nf & _).
  destruct ok_elem, ok_value.
  - rewrite Ett. eexists _, _. split; [done|]. tauto.
  - unfold create_element, malloc_node. cbn [negb]. rewrite Hn.
    cbn [mbind option_bind]. eexists _, _. split; [done|].
    split; [done|]. by intros [_ ?].
  - eexists _, _. split; [done|]. split; [done|]. by intros [? _].
  - eexists _, _. split; [done|]. split; [done|]. by intros [? _].
Qed.

Lemma q_insert_created a b head s h l e s1 h1 :
  ring h head l →
  create_element a b s h = Some (e, s1, h1) → e ≠ NULL →
  (∃ h2, q_insert_head a b head s h = Some (true, s1, h2) ∧
         vals h2 = vals h1) ∧
  (∃ h2, q_insert_tail a b head s h = Some (true, s1, h2) ∧
         vals h2 = vals h1).
Proof.
  intros R Ec He.
  assert (head ≠ NULL) as HN by (apply (ring_not_NULL _ _ _ _ R); set_solver).
  destruct (create_element_inv _ _ _ _ _ _ _ Ec)
    as [[-> _]|(-> & EL & v & EV)]; [done|].
  destruct (fresh_loc_spec h) as (Nf & Lf & Vf).
  destruct (q_insert_ring h head l (fresh_loc h) v R Lf Nf) as (R1 & A1 & Hp).
  assert (R1' : ring h1 head l).
  { eapply ring_links_eq; [|exact R1]. by rewrite EL. }
  assert (A1' : alive h1 (fresh_loc h)).
  { unfold alive. rewrite EL, lookup_insert_eq. eauto. }
  split.
  - destruct (ring_list_add _ _ _ _ R1' A1' Hp Nf) as (h2 & E2 & _ & [Fv _]).
    exists h2. split; [|done]. unfold q_insert_head.
    rewrite (proj2 (Z.eqb_neq _ _) HN), Ec. cbn [mbind option_bind].
    by rewrite (proj2 (Z.eqb_neq _ _) Nf), E2.
  - destruct (ring_list_add_tail _ _ _ _ R1' A1' Hp Nf)
      as (h2 & E2 & _ & [Fv _]).
    exists h2. split; [|done]. unfold q_insert_tail.
    rewrite (proj2 (Z.eqb_neq _ _) HN), Ec. cbn [mbind option_bind].
    by rewrite (proj2 (Z.eqb_neq _ _) Nf), E2.
Qed.

Lemma q_insert_wraps (N : nat) :
  Z.of_nat N = 4294967296 →
  let s := replicate N "a"%byte ++ [NUL] in
  strlen s = Some 4294967296 ∧
  <[0%nat := NUL]> s ≠ s ∧
  (∃ h', q_insert_head true true 1 s (mk_queue [])
         = Some (true, <[0%nat := NUL]> s, h') ∧
         vals h' !! fresh_loc (mk_queue []) = Some ["a"%byte]) ∧
  (∃ h', q_insert_tail true true 1 s (mk_queue [])
         = Some (true, <[0%nat := NUL]> s, h') ∧
         vals h' !! fresh_loc (mk_queue []) = Some ["a"%byte]).
Proof.
  intros HN s. split.
  { unfold s. rewrite strlen_replicate by done. by rewrite HN. }
  split.
  { unfold s. destruct N as [|N]; [done|]. cbn [replicate app]. simpl.
    unfold NUL. discriminate. }
  assert (R : ring (mk_queue []) 1 []) by compute_done.
  pose proof (create_element_wraps _ (mk_queue []) HN) as Ec.
  destruct (fresh_loc_spec (mk_queue [])) as (Nf & _).
  destruct (q_insert_created _ _ 1 _ _ _ _ _ _ R Ec Nf)
    as [(h1 & E1 & V1) (h2 & E2 & V2)].
  split.
  - exists h1. split; [exact E1|]. rewrite V1. cbn [vals].
    by rewrite lookup_insert_eq.
  - exists h2. split; [exact E2|]. rewrite V2. cbn [vals].
    by rewrite lookup_insert_eq.
Qed.

(** C10.  The code at a string of [2^32] characters, inserted into an empty
    queue with both allocations succeeding: [strlen(s) + 1] kept in an [int]
    is 1, so the element gets a buffer of one byte that holds the first
    character and no terminator, and the store [s[length - 1] = 0] writes
    the terminator over the first character of the caller's string.  Both
    [q_insert_head] and [q_insert_tail] return true; the string they leave
    is not the string they were given. *)
Theorem q_insert_huge :
  strlen huge_string = Some 4294967296 ∧
  <[0%nat := NUL]> huge_string ≠ huge_string ∧
  (∃ h', q_insert_head true true 1 huge_string (mk_queue [])
         = Some (true, <[0%nat := NUL]> huge_string, h') ∧
         vals h' !! fresh_loc (mk_queue []) = Some ["a"%byte]) ∧
  (∃ h', q_insert_tail true true 1 huge_string (mk_queue [])
         = Some (true, <[0%nat := NUL]> huge_string, h') ∧
         vals h' !! fresh_loc (mk_queue []) = Some ["a"%byte]).
Proof.
  assert (HN : Z.of_nat (Z.to_nat 4294967296) = 4294967296) by lia.
  unfold huge_string. exact (q_insert_wraps _ HN).
Qed.

(** Below the wrap-around nothing is lost: whenever [create_element]
    returns on a string of fewer than [2^32] characters, the string is as it
    was.  (From [INT_MAX] on, the length is negative as an [int] and the
    store of the terminator is out of bounds: there is no result.) *)
Lemma create_element_keeps s n h a b e s' h' :
  strlen s = Some n → n + 1 ≤ 4294967296 →
  create_element a b s h = Some (e, s', h') → s' = s.
Proof.
  intros Hn Hmax.
  destruct (Z.le_gt_cases (n + 1) INT_MAX) as [Hs|Hl].
  { destruct (create_element_small s n h Hn Hs) as [Hk _]. apply Hk. }
  destruct (strlen_Some _ _ Hn) as (Hr & _ & _).
  unfold INT_MAX in Hl.
  assert (El : to_int (to_size_t (n + 1)) = n + 1 - 4294967296).
  { rewrite to_size_t_small by lia. unfold to_int.
    replace (n + 1 + 2 ^ 31) with (n + 1 + 2 ^ 31 - 2 ^ 32 + 1 * 2 ^ 32)
      by lia.
    rewrite Z_mod_plus_full, Z.mod_small; lia. }
  unfold create_element, malloc_node.
  destruct a; cbn [negb]; [|by intros [= _ <- _]].
  rewrite Hn. cbn [mbind option_bind]. rewrite El.
  destruct b; cbn [negb]; [|by intros [= _ <- _]].
  destruct (strncpy _ _ _); [|done]. cbn [mbind option_bind].
  unfold store_byte.
  destruct (Z.leb_spec 0 (n + 1 - 4294967296 - 1)); [lia|]. done.
Qed.

(** ** C8: ring consistency *)

Lemma dedup_from_elem_of c cur l x : x ∈ dedup_from c cur l → x ∈ l.
Proof.
  revert cur. induction l as [|y l IH]; intros cur; simpl; [done|].
  destruct (c cur y =? 0).
  - intros H. apply IH in H. set_solver.
  - intros [->|H]%elem_of_cons; [set_solver|]. apply IH in H. set_solver.
Qed.

Lemma dedup_adj_elem_of c l x : x ∈ dedup_adj c l → x ∈ l.
Proof.
  destruct l as [|y l]; simpl; [done|].
  intros [->|H]%elem_of_cons; [set_solver|].
  apply dedup_from_elem_of in H. set_solver.
Qed.

Lemma ring_consistent h head l : ring h head l → consistent h head.
Proof.
  intros R. exists (hd head l), (List.last l head).
  pose proof R as (_ & _ & P). apply path_app in P as [P1 [[Ep1 Ep2] _]].
  split; [by apply ring_nxt_head|]. split; [|by split].
  destruct l as [|x l]; simpl in *; [done|]. by destruct P1 as [[_ ?] _].
Qed.

Lemma q_new_ring ok h0 head h :
  q_new ok h0 = Some (head, h) →
  (head = NULL ∧ h = h0 ∧ ok = false) ∨
  (head = fresh_loc h0 ∧ ring h head [] ∧ ok = true ∧
   vals h = vals h0 ∧
   ∀ q, q ≠ head → nxt h q = nxt h0 q ∧ prv h q = prv h0 q).
Proof.
  unfold q_new, malloc_node. destruct ok; cbn [negb];
    [|intros [= <- <-]; by left].
  destruct (fresh_loc_spec h0) as (Nf & Lf & _).
  set (p := fresh_loc h0) in *.
  set (h1 := Heap (<[p := ListHead NULL NULL]> (links h0)) (vals h0)).
  assert (A1 : alive h1 p).
  { unfold alive, h1. simpl. rewrite lookup_insert_eq. eauto. }
  destruct (ring_INIT _ _ A1 Nf) as (h2 & E & R & [V F]).
  rewrite E. cbn [mbind option_bind]. intros [= <- <-]. right.
  split; [done|]. split; [done|]. split; [done|]. split; [done|].
  intros q Hq. destruct (F q) as [-> ->]; [set_solver|].
  unfold nxt, prv, h1. simpl. by rewrite lookup_insert_ne.
Qed.

(** Every operation that returns leaves a ring whose elements own their
    payloads. *)
Lemma run_op_ring fuel op head h h' l :
  ring h head l → has_vals h l → run_op fuel op head h = Some h' →
  ∃ l', ring h' head l' ∧ has_vals h' l'.
Proof.
  intros R V. destruct op; simpl.
  - destruct (q_insert_head _ _ _ _ _) as [[[b s'] h1]|] eqn:E; [|done].
    simpl. intros [= <-].
    destruct (q_insert_head_inv _ _ _ _ _ _ _ _ _ R V E)
      as [[_ ->]|(_ & R' & V' & _)]; eauto.
  - destruct (q_insert_tail _ _ _ _ _) as [[[b s'] h1]|] eqn:E; [|done].
    simpl. intros [= <-].
    destruct (q_insert_tail_inv _ _ _ _ _ _ _ _ _ R V E)
      as [[_ ->]|(_ & R' & V' & _)]; eauto.
  - destruct l as [|x l].
    { rewrite (q_remove_head_absent _ _ _ _ [] (or_intror (conj R eq_refl))).
      simpl. intros [= <-]. eauto. }
    destruct (q_remove_head_ring _ _ _ _ sp bufsize R) as (h1 & R1 & F1 & ->).
    destruct (copy_out _ _ _ _); [|done]. simpl. intros [= <-].
    exists l. split; [done|]. intros z Hz. destruct F1 as [-> _].
    apply V. set_solver.
  - destruct l as [|x l].
    { rewrite (q_remove_tail_absent _ _ _ _ [] (or_intror (conj R eq_refl))).
      simpl. intros [= <-]. eauto. }
    destruct (last_cons_snoc x l) as (k & y & Ek & _). rewrite Ek in R, V.
    destruct (q_remove_tail_ring _ _ _ _ sp bufsize R) as (h1 & R1 & F1 & ->).
    destruct (copy_out _ _ _ _); [|done]. simpl. intros [= <-].
    exists k. split; [done|]. intros z Hz. destruct F1 as [-> _].
    apply V. set_solver.
  - destruct (q_size _ _ _); [|done]. simpl. intros [= <-]. eauto.
  - destruct (q_delete_mid _ _ _) as [[b h1]|] eqn:E; [|done].
    simpl. intros [= <-]. destruct l as [|x l].
    { unfold q_delete_mid in E.
      assert (head ≠ NULL) as HN
        by (apply (ring_not_NULL _ _ _ _ R); set_solver).
      rewrite (proj2 (Z.eqb_neq _ _) HN), (list_empty_ring _ _ _ R) in E.
      simpl in E. injection E as <- <-. eauto. }
    pose proof (ensures_partial _ _ _ _
                  (q_delete_mid_spec h head (x :: l) fuel R V ltac:(done)) E)
      as (_ & R' & V').
    eexists. split; [exact R'|]. intros z Hz. simpl in *. rewrite V' by done.
    apply V. by eapply list_elem_of_delete_inv.
  - destruct (q_delete_dup _ _ _) as [[b h1]|] eqn:E; [|done].
    simpl. intros [= <-].
    pose proof (ensures_partial _ _ _ _
                  (q_delete_dup_spec h head l fuel R V) E) as (_ & R' & V').
    eexists. split; [exact R'|]. intros z Hz. simpl in *. rewrite V' by done.
    apply V. by apply dedup_adj_elem_of in Hz.
  - intros E.
    pose proof (ensures_partial _ _ _ _ (q_swap_spec h head l fuel R V) E)
      as (EL & _ & V' & _).
    exists l. split; [|done]. by apply (ring_links_eq h).
  - intros E.
    pose proof (ensures_partial _ _ _ _ (q_reverse_spec h head l fuel R) E)
      as (R' & [V' _]).
    exists (rev l). split; [done|]. intros z Hz. rewrite V'.
    apply V. by apply elem_of_rev.
  - intros E.
    pose proof (ensures_partial _ _ _ _ (q_sort_spec fuel h head l R V) E)
      as (l' & R' & P & _ & [V' _]).
    exists l'. split; [done|]. intros z Hz. rewrite V'.
    apply V. by rewrite <- P.
Qed.

Lemma reachable_ring head h :
  reachable head h → ∃ l, ring h head l ∧ has_vals h l.
Proof.
  induction 1 as [h0 head h E|fuel op head h h' _ (l & R & V) E].
  - destruct (q_new_ring _ _ _ _ E) as [(_ & _ & ?)|(_ & R & _)]; [done|].
    exists []. split; [done|]. intros z Hz. set_solver.
  - by apply (run_op_ring fuel op head h h' l).
Qed.

(** C8.  In every store reached from [q_new] by queue operations that
    return, [head.next.prev == head] and [head.prev.next == head], the nodes
    from [head] along [next] form a ring, and [head.next == head] holds
    exactly when that ring has no element. *)
Theorem ring_consistency head h :
  reachable head h →
  consistent h head ∧
  ∃ l, ring h head l ∧ has_vals h l ∧
       (nxt h head = Some head ↔ l = []) ∧
       list_empty head h = Some (bool_decide (l = [])).
Proof.
  intros Hr. destruct (reachable_ring _ _ Hr) as (l & R & V).
  split; [by apply (ring_consistent h head l)|].
  exists l. split; [done|]. split; [done|].
  split; [|by apply list_empty_ring].
  rewrite (ring_nxt_head _ _ _ R). destruct l as [|x l]; simpl; [done|].
  split; [|done]. intros [= ->]. apply ring_NoDup in R.
  apply NoDup_cons in R as [R _]. set_solver.
Qed.

Lemma ring_consistency_witness :
  reachable 1 (mk_queue [cbuf "a"]) ∧
  consistent (mk_queue [cbuf "a"]) 1 ∧
  ∃ l, ring (mk_queue [cbuf "a"]) 1 l ∧ has_vals (mk_queue [cbuf "a"]) l ∧
       (nxt (mk_queue [cbuf "a"]) 1 = Some 1 ↔ l = []) ∧
       list_empty 1 (mk_queue [cbuf "a"]) = Some (bool_decide (l = [])).
Proof.
  assert (Hr : reachable 1 (mk_queue [cbuf "a"])).
  { apply (reach_op 0 (OpInsertTail true true (cbuf "a")) 1 (mk_queue []));
      [|reflexivity].
    apply (reach_new (Heap ∅ ∅)). reflexivity. }
  split; [exact Hr|]. exact (ring_consistency 1 _ Hr).
Defined.

(** * Further properties of the queue operations *)

(** ** Size *)

Lemma q_size_loop_spec h head l :
  ring h head l →
  ∀ fuel l1 l2 size,
    l = l1 ++ l2 → size + Z.of_nat (length l2) ≤ INT_MAX →
    ensures (q_size_loop fuel head (hd head l2) size h)
            (fuel ≤ length l2)%nat
            (λ r, r = size + Z.of_nat (length l2)).
Proof.
  intros R fuel. induction fuel as [|fuel IH]; intros l1 l2 size El Hmax.
  { right. split; [done|lia]. }
  simpl. destruct l2 as [|x l2]; simpl.
  { rewrite Z.eqb_refl. apply ensures_Some. lia. }
  subst l. pose proof (ring_NoDup _ _ _ R) as ND.
  assert (Hxh : x ≠ head) by (nodup_split; lsolve).
  rewrite (proj2 (Z.eqb_neq _ _) Hxh).
  simpl length in Hmax.
  destruct (Z.leb_spec INT_MAX size); [lia|].
  destruct (ring_mid_links _ _ _ _ _ R) as [-> _]. simpl.
  eapply ensures_weaken.
  - apply (IH (l1 ++ [x]) l2 (size + 1)); [by rewrite <- app_assoc|lia].
  - simpl. lia.
  - simpl. intros r ->. lia.
Qed.

Lemma q_size_ring h head l fuel :
  ring h head l → Z.of_nat (length l) ≤ INT_MAX → (length l < fuel)%nat →
  q_size fuel head h = Some (Z.of_nat (length l)).
Proof.
  intros R Hmax Hf. unfold q_size.
  assert (head ≠ NULL) as HN by (apply (ring_not_NULL _ _ _ _ R); set_solver).
  rewrite (proj2 (Z.eqb_neq _ _) HN), (ring_nxt_head _ _ _ R). simpl.
  destruct (ensures_total _ _ _
              (q_size_loop_spec h head l R fuel [] l 0 eq_refl ltac:(lia)))
    as (r & -> & ->); [lia|]. done.
Qed.

(** X1.  [q_size] is 0 for an absent queue, and for a ring of at most
    [INT_MAX] elements it is the number of elements. *)
Theorem q_size_counts h head l fuel :
  ring h head l → Z.of_nat (length l) ≤ INT_MAX → (length l < fuel)%nat →
  q_size fuel NULL h = Some 0 ∧
  q_size fuel head h = Some (Z.of_nat (length l)).
Proof. intros R Hmax Hf. split; [done|]. by apply q_size_ring. Qed.

Lemma q_size_counts_witness :
  let h := mk_queue (cbuf <$> ["a"; "b"; "c"]) in
  ring h 1 [2; 3; 4] ∧ Z.of_nat (length [2; 3; 4]) ≤ INT_MAX ∧
  (length [2; 3; 4] < 4)%nat ∧
  q_size 4 NULL h = Some 0 ∧
  q_size 4 1 h = Some (Z.of_nat (length [2; 3; 4])).
Proof.
  cbv zeta. split; [compute_done|]. split; [compute_done|].
  split; [compute_done|].
  apply (q_size_counts _ 1 [2; 3; 4] 4); compute_done.
Defined.

(** ** A new queue *)

(** X2.  [q_new] returns [NULL] and leaves the store alone when the
    allocation fails; otherwise it returns the address of a fresh object,
    not [NULL] and not live before, which is the sentinel of an empty ring of
    size 0, and every other object of the store is as it was. *)
Theorem q_new_empty h0 :
  q_new false h0 = Some (NULL, h0) ∧
  ∃ head h, q_new true h0 = Some (head, h) ∧
    head ≠ NULL ∧ ¬ alive h0 head ∧ ring h head [] ∧
    q_size 1 head h = Some 0 ∧ vals h = vals h0 ∧
    ∀ q, q ≠ head → nxt h q = nxt h0 q ∧ prv h q = prv h0 q.
Proof.
  split; [done|].
  destruct (fresh_loc_spec h0) as (Nf & Lf & _).
  assert (A1 : alive (Heap (<[fresh_loc h0 := ListHead NULL NULL]>
                              (links h0)) (vals h0)) (fresh_loc h0)).
  { unfold alive. simpl. rewrite lookup_insert_eq. eauto. }
  destruct (ring_INIT _ _ A1 Nf) as (h2 & E & _).
  assert (Eq : q_new true h0 = Some (fresh_loc h0, h2)).
  { unfold q_new, malloc_node. cbn [negb]. by rewrite E. }
  exists (fresh_loc h0), h2. split; [done|].
  destruct (q_new_ring _ _ _ _ Eq) as [(? & _)|(_ & R & _ & V & F)]; [done|].
  split; [done|]. split.
  { unfold alive. rewrite Lf. by intros [? ?]. }
  split; [done|]. split; [|done].
  by rewrite (q_size_ring _ _ _ 1%nat R); [|done|simpl; lia].
Qed.

(** ** The middle *)

(** X3.  [q_mid] returns its argument for an absent queue and for an empty
    ring; for a ring of [n >= 1] elements it returns the element at index
    [(n - 1) / 2]: the middle one when [n] is odd, the one before the middle
    when [n] is even. *)
Theorem q_mid_index h head l fuel :
  ring h head l → (length l ≤ fuel)%nat →
  q_mid fuel NULL h = Some NULL ∧
  q_mid fuel head h
  = Some (default head (l !! ((length l - 1) / 2)%nat)).
Proof.
  intros R Hf. split; [done|]. destruct l as [|x l].
  { unfold q_mid.
    assert (head ≠ NULL) as HN
      by (apply (ring_not_NULL _ _ _ _ R); set_solver).
    by rewrite (proj2 (Z.eqb_neq _ _) HN), (list_empty_ring _ _ _ R). }
  assert (Hi : ((length (x :: l) - 1) / 2 < length (x :: l))%nat).
  { apply Nat.Div0.div_lt_upper_bound. simpl. lia. }
  destruct (lookup_lt_is_Some_2 _ _ Hi) as [mid Hmid]. rewrite Hmid.
  destruct (q_mid_spec _ _ _ _ fuel R Hmid) as [->|[_ ?]]; [done|lia].
Qed.

Lemma q_mid_index_witness :
  let h := mk_queue (cbuf <$> ["a"; "b"; "c"; "d"]) in
  ring h 1 [2; 3; 4; 5] ∧ (length [2; 3; 4; 5] ≤ 4)%nat ∧
  q_mid 4 NULL h = Some NULL ∧
  q_mid 4 1 h
  = Some (default 1 ([2; 3; 4; 5] !! ((length [2; 3; 4; 5] - 1) / 2)%nat)).
Proof.
  cbv zeta. split; [compute_done|]. split; [compute_done|].
  apply (q_mid_index _ 1 [2; 3; 4; 5] 4); compute_done.
Defined.

(** ** Deleting the middle *)

Lemma q_release_element_gone e h h' :
  q_release_element e h = Some h' →
  links h' !! e = None ∧ vals h' !! e = None.
Proof.
  unfold q_release_element. destruct (vals h !! e); [|done].
  destruct (links h !! e); [|done]. simpl. intros [= <-]. simpl.
  by rewrite !lookup_delete_eq.
Qed.

(** X4.  [q_delete_mid] returns false, with the store as it was, for an
    absent queue and for an empty ring.  On a ring of [n >= 1] elements it
    returns true, the ring loses the element at index [(n - 1) / 2] and
    keeps the others in their order with their payloads, and that element
    and its payload are released. *)
Theorem q_delete_mid_removes h head l fuel :
  ring h head l → has_vals h l → (length l ≤ fuel)%nat →
  q_delete_mid fuel NULL h = Some (false, h) ∧
  match l !! ((length l - 1) / 2)%nat with
  | None => q_delete_mid fuel head h = Some (false, h)
  | Some mid =>
      ∃ h', q_delete_mid fuel head h = Some (true, h') ∧
            ring h' head (delete ((length l - 1) / 2)%nat l) ∧
            (∀ y, y ∈ delete ((length l - 1) / 2)%nat l →
                  vals h' !! y = vals h !! y) ∧
            links h' !! mid = None ∧ vals h' !! mid = None
  end.
Proof.
  intros R V Hf. split; [done|]. destruct l as [|x l].
  { simpl. unfold q_delete_mid.
    assert (head ≠ NULL) as HN
      by (apply (ring_not_NULL _ _ _ _ R); set_solver).
    by rewrite (proj2 (Z.eqb_neq _ _) HN), (list_empty_ring _ _ _ R). }
  assert (Hi : ((length (x :: l) - 1) / 2 < length (x :: l))%nat).
  { apply Nat.Div0.div_lt_upper_bound. simpl. lia. }
  destruct (lookup_lt_is_Some_2 _ _ Hi) as [mid Hmid]. rewrite Hmid.
  destruct (ensures_total _ _ _
              (q_delete_mid_spec h head (x :: l) fuel R V ltac:(done)))
    as ([b h'] & E & Eb & R' & V'); [lia|]. simpl in Eb, R', V'. subst b.
  exists h'. split; [done|]. split; [done|]. split; [done|].
  unfold q_delete_mid in E.
  assert (head ≠ NULL) as HN by (apply (ring_not_NULL _ _ _ _ R); set_solver).
  rewrite (proj2 (Z.eqb_neq _ _) HN), (list_empty_ring _ _ _ R) in E.
  rewrite bool_decide_eq_false_2 in E by done. cbn [mbind option_bind] in E.
  destruct (q_mid_spec _ _ _ _ fuel R Hmid) as [Em|[_ ?]]; [|lia].
  rewrite Em in E. cbn [mbind option_bind] in E.
  destruct (list_del mid h) as [h1|]; [|done]. cbn [mbind option_bind] in E.
  destruct (q_release_element mid h1) as [h2|] eqn:Er; [|done].
  injection E as <-. by apply q_release_element_gone in Er.
Qed.

Lemma q_delete_mid_removes_witness :
  let h := mk_queue (cbuf <$> ["a"; "b"; "c"; "d"]) in
  let l := [2; 3; 4; 5] in
  ring h 1 l ∧ has_vals h l ∧ (length l ≤ 4)%nat ∧
  q_delete_mid 4 NULL h = Some (false, h) ∧
  match l !! ((length l - 1) / 2)%nat with
  | None => q_delete_mid 4 1 h = Some (false, h)
  | Some mid =>
      ∃ h', q_delete_mid 4 1 h = Some (true, h') ∧
            ring h' 1 (delete ((length l - 1) / 2)%nat l) ∧
            (∀ y, y ∈ delete ((length l - 1) / 2)%nat l →
                  vals h' !! y = vals h !! y) ∧
            links h' !! mid = None ∧ vals h' !! mid = None
  end.
Proof.
  cbv zeta. split; [compute_done|]. split; [compute_done|].
  split; [compute_done|].
  apply (q_delete_mid_removes _ 1 [2; 3; 4; 5] 4); compute_done.
Defined.

(** ** Insertion *)

Lemma lookup_links_eq h h' q :
  nxt h' q = nxt h q → prv h' q = prv h q → links h' !! q = links h !! q.
Proof.
  unfold nxt, prv.
  destruct (links h' !! q) as [[p1 n1]|], (links h !! q) as [[p2 n2]|];
    simpl; congruence.
Qed.

Lemma q_insert_head_ok h head l s n :
  ring h head l → has_vals h l → strlen s = Some n → n + 1 ≤ INT_MAX →
  ∃ h', q_insert_head true true head s h = Some (true, s, h') ∧
        ring h' head (fresh_loc h :: l) ∧
        key h' (fresh_loc h) = cstr s ++ [NUL] ∧
        (∀ x, x ∈ l → vals h' !! x = vals h !! x) ∧
        (∀ q, q ≠ fresh_loc h → vals h' !! q = vals h !! q) ∧
        ∀ q, q ∉ fresh_loc h :: head :: l → links h' !! q = links h !! q.
Proof.
  intros R V Hn Hmax.
  destruct (create_element_small s n h Hn Hmax) as [_ Ett].
  destruct (fresh_loc_spec h) as (Nf & Lf & Vf).
  assert (head ≠ NULL) as HN
    by (apply (ring_not_NULL _ _ _ _ R); set_solver).
  destruct (q_insert_ring h head l (fresh_loc h) (cstr s ++ [NUL]) R Lf Nf)
    as (R1 & A1 & He).
  destruct (ring_list_add _ _ _ _ R1 A1 He Nf) as (h2 & E2 & R2 & [Fv Fl]).
  exists h2. split.
  { unfold q_insert_head.
    rewrite (proj2 (Z.eqb_neq _ _) HN), Ett. cbn [mbind option_bind].
    by rewrite (proj2 (Z.eqb_neq _ _) Nf), E2. }
  split; [done|]. 
  assert (Hv : ∀ q, q ≠ fresh_loc h → vals h2 !! q = vals h !! q).
  { intros q Hq. rewrite Fv. simpl. by rewrite lookup_insert_ne. }
  split; [|split; [|split; [done|]]].
  - unfold key. rewrite Fv. simpl. by rewrite lookup_insert_eq.
  - intros x Hx. apply Hv. intros ->. set_solver.
  - intros q Hq. rewrite (lookup_links_eq _ _ q (proj1 (Fl q Hq))
                            (proj2 (Fl q Hq))).
    simpl. rewrite lookup_insert_ne; [done|]. set_solver.
Qed.

Lemma q_insert_tail_ok h head l s n :
  ring h head l → has_vals h l → strlen s = Some n → n + 1 ≤ INT_MAX →
  ∃ h', q_insert_tail true true head s h = Some (true, s, h') ∧
        ring h' head (l ++ [fresh_loc h]) ∧
        key h' (fresh_loc h) = cstr s ++ [NUL] ∧
        (∀ x, x ∈ l → vals h' !! x = vals h !! x) ∧
        (∀ q, q ≠ fresh_loc h → vals h' !! q = vals h !! q) ∧
        ∀ q, q ∉ fresh_loc h :: head :: l → links h' !! q = links h !! q.
Proof.
  intros R V Hn Hmax.
  destruct (create_element_small s n h Hn Hmax) as [_ Ett].
  destruct (fresh_loc_spec h) as (Nf & Lf & Vf).
  assert (head ≠ NULL) as HN
    by (apply (ring_not_NULL _ _ _ _ R); set_solver).
  destruct (q_insert_ring h head l (fresh_loc h) (cstr s ++ [NUL]) R Lf Nf)
    as (R1 & A1 & He).
  destruct (ring_list_add_tail _ _ _ _ R1 A1 He Nf)
    as (h2 & E2 & R2 & [Fv Fl]).
  exists h2. split.
  { unfold q_insert_tail.
    rewrite (proj2 (Z.eqb_neq _ _) HN), Ett. cbn [mbind option_bind].
    by rewrite (proj2 (Z.eqb_neq _ _) Nf), E2. }
  split; [done|].
  assert (Hv : ∀ q, q ≠ fresh_loc h → vals h2 !! q = vals h !! q).
  { intros q Hq. rewrite Fv. simpl. by rewrite lookup_insert_ne. }
  split; [|split; [|split; [done|]]].
  - unfold key. rewrite Fv. simpl. by rewrite lookup_insert_eq.
  - intros x Hx. apply Hv. intros ->. set_solver.
  - intros q Hq. rewrite (lookup_links_eq _ _ q (proj1 (Fl q Hq))
                            (proj2 (Fl q Hq))).
    simpl. rewrite lookup_insert_ne; [done|]. set_solver.
Qed.

Lemma q_insert_fails h head l s n ok_elem ok_value :
  ring h head l → strlen s = Some n → n + 1 ≤ INT_MAX →
  ok_elem && ok_value = false →
  q_insert_head ok_elem ok_value head s h = Some (false, s, h) ∧
  q_insert_tail ok_elem ok_value head s h = Some (false, s, h).
Proof.
  intros R Hn Hmax Hok.
  destruct (create_element_small_run s n h ok_elem ok_value Hn Hmax)
    as (e' & h1 & Ec & He').
  assert (e' = NULL) as ->.
  { destruct (decide (e' = NULL)); [done|].
    destruct (proj1 He') as [-> ->]; done. }
  destruct (create_element_inv _ _ _ _ _ _ _ Ec) as [[_ ->]|(? & _)];
    [|by destruct (fresh_loc_spec h)].
  assert (head ≠ NULL) as HN
    by (apply (ring_not_NULL _ _ _ _ R); set_solver).
  unfold q_insert_head, q_insert_tail.
  by rewrite (proj2 (Z.eqb_neq _ _) HN), Ec.
Qed.

(** X5.  When both allocations succeed and the string fits an [int],
    [q_insert_head] returns true and links one fresh element, which owns a
    NUL-terminated copy of the string, in front of the others, and
    [q_insert_tail] links it behind them; the others keep their order and
    payloads.  When an allocation fails both return false and the store is
    as it was: what was allocated is freed. *)
Theorem q_insert_places h head l s n :
  ring h head l → has_vals h l → strlen s = Some n → n + 1 ≤ INT_MAX →
  (∃ h', q_insert_head true true head s h = Some (true, s, h') ∧
         ring h' head (fresh_loc h :: l) ∧
         key h' (fresh_loc h) = cstr s ++ [NUL] ∧
         ∀ x, x ∈ l → vals h' !! x = vals h !! x) ∧
  (∃ h', q_insert_tail true true head s h = Some (true, s, h') ∧
         ring h' head (l ++ [fresh_loc h]) ∧
         key h' (fresh_loc h) = cstr s ++ [NUL] ∧
         ∀ x, x ∈ l → vals h' !! x = vals h !! x) ∧
  (∀ ok_elem ok_value, ok_elem && ok_value = false →
     q_insert_head ok_elem ok_value head s h = Some (false, s, h) ∧
     q_insert_tail ok_elem ok_value head s h = Some (false, s, h)).
Proof.
  intros R V Hn Hmax. split; [|split].
  - destruct (q_insert_head_ok _ _ _ _ _ R V Hn Hmax)
      as (h' & ? & ? & ? & ? & _). eauto.
  - destruct (q_insert_tail_ok _ _ _ _ _ R V Hn Hmax)
      as (h' & ? & ? & ? & ? & _). eauto.
  - intros. by eapply q_insert_fails.
Qed.

Lemma q_insert_places_witness :
  let h := mk_queue (cbuf <$> ["a"; "b"]) in
  let s := cbuf "hello" in
  ring h 1 [2; 3] ∧ has_vals h [2; 3] ∧ strlen s = Some 5 ∧
  5 + 1 ≤ INT_MAX ∧
  (∃ h', q_insert_head true true 1 s h = Some (true, s, h') ∧
         ring h' 1 (fresh_loc h :: [2; 3]) ∧
         key h' (fresh_loc h) = cstr s ++ [NUL] ∧
         ∀ x, x ∈ [2; 3] → vals h' !! x = vals h !! x) ∧
  (∃ h', q_insert_tail true true 1 s h = Some (true, s, h') ∧
         ring h' 1 ([2; 3] ++ [fresh_loc h]) ∧
         key h' (fresh_loc h) = cstr s ++ [NUL] ∧
         ∀ x, x ∈ [2; 3] → vals h' !! x = vals h !! x) ∧
  (∀ ok_elem ok_value, ok_elem && ok_value = false →
     q_insert_head ok_elem ok_value 1 s h = Some (false, s, h) ∧
     q_insert_tail ok_elem ok_value 1 s h = Some (false, s, h)).
Proof.
  cbv zeta. split; [compute_done|]. split; [compute_done|].
  split; [reflexivity|]. split; [compute_done|].
  apply (q_insert_places _ 1 [2; 3] (cbuf "hello") 5);
    (reflexivity || compute_done).
Defined.

(** ** Removal *)

(** The buffers a removal can be called with: none, or one of at least
    [bufsize >= 1] bytes. *)
Definition buffer_fits (sp : option (list byte)) (bufsize : Z) : Prop :=
  match sp with
  | None => True
  | Some buf =>
      1 ≤ bufsize ≤ Z.of_nat (length buf) ∧ Z.of_nat (length buf) ≤ SIZE_MAX
  end.

Lemma copy_out_fits sp x bufsize h :
  is_Some (vals h !! x) → buffer_fits sp bufsize →
  is_Some (copy_out sp x bufsize h).
Proof.
  intros Hv Hb. destruct sp as [buf|]; [|by eexists].
  destruct Hb as [Hb Hmax]. apply copy_out_is_Some; [done|lia|done|lia].
Qed.

Lemma alive_same_nxt h h' x : alive h x → nxt h' x = nxt h x → alive h' x.
Proof.
  unfold alive, nxt. intros [n ->]. simpl.
  destruct (links h' !! x); [eauto|done].
Qed.

(** Whatever the buffer, a removal that returns hands out the same element
    and leaves the same store. *)
Lemma q_remove_head_any h head x l :
  ring h head (x :: l) →
  ∃ h', ring h' head l ∧ vals h' = vals h ∧ alive h' x ∧
        (∀ sp bufsize r, q_remove_head head sp bufsize h = Some r →
                         r.1.1 = x ∧ r.2 = h') ∧
        (∀ sp bufsize, is_Some (vals h !! x) → buffer_fits sp bufsize →
                       is_Some (q_remove_head head sp bufsize h)).
Proof.
  intros R.
  destruct (ring_list_del h head [] x l R) as (h' & Ed & R' & [Fv Fl]).
  simpl app in *.
  assert (Hx : x ∉ head :: l).
  { pose proof (ring_NoDup _ _ _ R) as ND.
    apply NoDup_cons in ND as [Hh ND]. apply NoDup_cons in ND as [Hx _].
    set_solver. }
  assert (head ≠ NULL) as HN by (apply (ring_not_NULL _ _ _ _ R); set_solver).
  assert (E : ∀ sp bufsize,
    q_remove_head head sp bufsize h
    = (sp' ← copy_out sp x bufsize h; Some (x, sp', h'))).
  { intros sp bufsize. unfold q_remove_head.
    rewrite (proj2 (Z.eqb_neq _ _) HN), (list_empty_ring _ _ _ R).
    rewrite bool_decide_eq_false_2 by done.
    rewrite (ring_nxt_head _ _ _ R). cbn [hd mbind option_bind].
    destruct (copy_out sp x bufsize h); [|done]. cbn [mbind option_bind].
    by rewrite Ed. }
  exists h'. split; [done|]. split; [done|]. split.
  { apply (alive_same_nxt h); [apply (ring_alive _ _ _ _ R); set_solver|].
    by apply Fl. }
  split.
  - intros sp bufsize r Hr. rewrite E in Hr.
    apply bind_Some in Hr as (sp' & _ & [= <-]). done.
  - intros sp bufsize Hv Hb. rewrite E.
    destruct (copy_out_fits sp x bufsize h Hv Hb) as [sp' ->]. by eexists.
Qed.

Lemma q_remove_tail_any h head x l :
  ring h head (l ++ [x]) →
  ∃ h', ring h' head l ∧ vals h' = vals h ∧ alive h' x ∧
        (∀ sp bufsize r, q_remove_tail head sp bufsize h = Some r →
                         r.1.1 = x ∧ r.2 = h') ∧
        (∀ sp bufsize, is_Some (vals h !! x) → buffer_fits sp bufsize →
                       is_Some (q_remove_tail head sp bufsize h)).
Proof.
  intros R.
  destruct (ring_list_del h head l x [] R) as (h' & Ed & R' & [Fv Fl]).
  rewrite app_nil_r in *.
  assert (Hx : x ∉ head :: l).
  { pose proof (ring_NoDup _ _ _ R) as ND.
    apply NoDup_cons in ND as [Hh ND]. apply NoDup_app in ND as (_ & Hx & _).
    intros [->|Hin]%elem_of_cons; [set_solver|].
    apply (Hx _ Hin). set_solver. }
  assert (head ≠ NULL) as HN by (apply (ring_not_NULL _ _ _ _ R); set_solver).
  assert (E : ∀ sp bufsize,
    q_remove_tail head sp bufsize h
    = (sp' ← copy_out sp x bufsize h; Some (x, sp', h'))).
  { intros sp bufsize. unfold q_remove_tail.
    rewrite (proj2 (Z.eqb_neq _ _) HN), (list_empty_ring _ _ _ R).
    rewrite bool_decide_eq_false_2 by (by destruct l).
    rewrite (ring_prv_head _ _ _ R), last_last.
    cbn [mbind option_bind].
    destruct (copy_out sp x bufsize h); [|done]. cbn [mbind option_bind].
    by rewrite Ed. }
  exists h'. split; [done|]. split; [done|]. split.
  { apply (alive_same_nxt h); [apply (ring_alive _ _ _ _ R); set_solver|].
    by apply Fl. }
  split.
  - intros sp bufsize r Hr. rewrite E in Hr.
    apply bind_Some in Hr as (sp' & _ & [= <-]). done.
  - intros sp bufsize Hv Hb. rewrite E.
    destruct (copy_out_fits sp x bufsize h Hv Hb) as [sp' ->]. by eexists.
Qed.

(** X6.  On a ring that is not empty, every call of [q_remove_head] that
    returns, with or without a buffer, returns the first element and leaves
    one and the same store, and every call of [q_remove_tail] that returns
    returns the last element; the ring keeps the others in their order.  The
    element is unlinked, not released: it stays allocated and every payload
    of the store, its own included, is as it was.  The calls with no buffer
    or with a buffer of at least [bufsize >= 1] bytes return. *)
Theorem q_remove_unlinks h head l :
  ring h head l → has_vals h l → l ≠ [] →
  ∃ h1 h2,
    (ring h1 head (tail l) ∧ vals h1 = vals h ∧ alive h1 (hd head l)) ∧
    (ring h2 head (removelast l) ∧ vals h2 = vals h ∧
     alive h2 (List.last l head)) ∧
    ∀ sp bufsize,
      (∀ r, q_remove_head head sp bufsize h = Some r →
            r.1.1 = hd head l ∧ r.2 = h1) ∧
      (∀ r, q_remove_tail head sp bufsize h = Some r →
            r.1.1 = List.last l head ∧ r.2 = h2) ∧
      (buffer_fits sp bufsize →
       is_Some (q_remove_head head sp bufsize h) ∧
       is_Some (q_remove_tail head sp bufsize h)).
Proof.
  intros R V Hne. destruct l as [|x l']; [done|].
  pose proof (app_removelast_last head Hne) as Et.
  destruct (q_remove_head_any h head x l' R)
    as (h1 & Rh1 & V1 & A1 & P1 & T1).
  set (y := List.last (x :: l') head) in *.
  set (k := removelast (x :: l')) in *.
  assert (R2 : ring h head (k ++ [y])) by by rewrite <- Et.
  destruct (q_remove_tail_any h head y k R2)
    as (h2 & Rh2 & V2 & A2 & P2 & T2).
  exists h1, h2. cbn [hd tail].
  split; [done|]. split; [done|]. intros sp bufsize.
  split; [apply P1|]. split; [apply P2|].
  intros Hb. split.
  - apply T1; [|done]. apply V. set_solver.
  - apply T2; [|done]. apply V. rewrite Et. set_solver.
Qed.

Lemma q_remove_unlinks_witness :
  let h := mk_queue (cbuf <$> ["a"; "b"; "c"]) in
  let l := [2; 3; 4] in
  ring h 1 l ∧ has_vals h l ∧ l ≠ [] ∧
  ∃ h1 h2,
    (ring h1 1 (tail l) ∧ vals h1 = vals h ∧ alive h1 (hd 1 l)) ∧
    (ring h2 1 (removelast l) ∧ vals h2 = vals h ∧
     alive h2 (List.last l 1)) ∧
    ∀ sp bufsize,
      (∀ r, q_remove_head 1 sp bufsize h = Some r →
            r.1.1 = hd 1 l ∧ r.2 = h1) ∧
      (∀ r, q_remove_tail 1 sp bufsize h = Some r →
            r.1.1 = List.last l 1 ∧ r.2 = h2) ∧
      (buffer_fits sp bufsize →
       is_Some (q_remove_head 1 sp bufsize h) ∧
       is_Some (q_remove_tail 1 sp bufsize h)).
Proof.
  cbv zeta. split; [compute_done|]. split; [compute_done|]. split; [done|].
  apply (q_remove_unlinks _ 1 [2; 3; 4]); [compute_done|compute_done|done].
Defined.

(** ** The copy handed to the caller *)

Lemma cstr_nonzero v : Forall (λ c, uchar c ≠ 0) (cstr v).
Proof.
  induction v as [|c v IH]; simpl; [constructor|].
  destruct (Z.eqb_spec (uchar c) 0); [constructor|by constructor].
Qed.

Lemma cstr_app_nul w t :
  Forall (λ c, uchar c ≠ 0) w → cstr (w ++ NUL :: t) = w.
Proof.
  induction 1 as [|c w Hc _ IH]; [done|]. simpl.
  by rewrite (proj2 (Z.eqb_neq _ _) Hc), IH.
Qed.

Lemma copy_out_spec buf x bufsize h v :
  vals h !! x = Some v →
  1 ≤ bufsize ≤ Z.of_nat (length buf) → Z.of_nat (length buf) ≤ SIZE_MAX →
  ∃ buf', copy_out (Some buf) x bufsize h = Some (Some buf') ∧
          length buf' = length buf ∧
          cstr buf' = take (Z.to_nat (bufsize - 1)) (cstr v) ∧
          drop (Z.to_nat bufsize) buf' = drop (Z.to_nat bufsize) buf.
Proof.
  intros Hv Hb Hmax. unfold copy_out, strncpy, store_byte. rewrite Hv.
  cbn [mbind option_bind].
  destruct (Z.ltb_spec (Z.of_nat (length buf)) bufsize); [lia|].
  cbn [mbind option_bind].
  assert (Hs : to_size_t (bufsize - 1) = bufsize - 1).
  { unfold to_size_t. apply Z.mod_small. unfold SIZE_MAX in Hmax. lia. }
  rewrite Hs.
  destruct (Z.to_nat bufsize) as [|k] eqn:Ek; [lia|].
  assert (Z.to_nat (bufsize - 1) = k) as -> by lia.
  set (X := cstr v ++ replicate (S k) NUL).
  assert (HX : (S k ≤ length X)%nat).
  { unfold X. rewrite length_app, length_replicate. lia. }
  assert (Hlt : (length (take (S k) X ++ drop (S k) buf)) = length buf).
  { rewrite length_app, length_take, length_drop. lia. }
  rewrite Hlt.
  destruct (Z.leb_spec 0 (bufsize - 1)); [|lia].
  destruct (Z.ltb_spec (bufsize - 1) (Z.of_nat (length buf))); [|lia].
  simpl andb. cbv iota. eexists. split; [done|].
  split; [by rewrite length_insert|]. split.
  - destruct (lookup_lt_is_Some_2 X k ltac:(lia)) as [c Hc].
    rewrite (take_S_r _ _ _ Hc), <- app_assoc.
    rewrite insert_app_r_alt; rewrite length_take; [|lia].
    replace (k - k `min` length X)%nat with 0%nat by lia. simpl.
    unfold X. rewrite take_app, take_replicate.
    rewrite <- app_assoc.
    set (j := (_ `min` _)%nat).
    assert (∃ t, replicate j NUL ++ NUL :: drop (S k) buf = NUL :: t)
      as [t ->] by (destruct j; simpl; eauto).
    apply cstr_app_nul, Forall_take, cstr_nonzero.
  - rewrite drop_insert_lt by lia.
    apply drop_app_length'. rewrite length_take. lia.
Qed.

(** X7.  With a buffer of at least [bufsize >= 1] bytes, [q_remove_head]
    and [q_remove_tail] leave in it the string of the removed element cut to
    [bufsize - 1] characters and terminated; the buffer keeps its size and
    its bytes from [bufsize] on. *)
Theorem q_remove_copies h head l buf bufsize :
  ring h head l → has_vals h l → l ≠ [] →
  1 ≤ bufsize ≤ Z.of_nat (length buf) → Z.of_nat (length buf) ≤ SIZE_MAX →
  (∃ buf' h', q_remove_head head (Some buf) bufsize h
              = Some (hd head l, Some buf', h') ∧
     length buf' = length buf ∧
     cstr buf' = take (Z.to_nat (bufsize - 1)) (cstr (key h (hd head l))) ∧
     drop (Z.to_nat bufsize) buf' = drop (Z.to_nat bufsize) buf) ∧
  (∃ buf' h', q_remove_tail head (Some buf) bufsize h
              = Some (List.last l head, Some buf', h') ∧
     length buf' = length buf ∧
     cstr buf'
     = take (Z.to_nat (bufsize - 1)) (cstr (key h (List.last l head))) ∧
     drop (Z.to_nat bufsize) buf' = drop (Z.to_nat bufsize) buf).
Proof.
  intros R V Hne Hb Hmax. split.
  - destruct l as [|x l]; [done|]. simpl hd.
    destruct (V x ltac:(set_solver)) as [v Hv].
    destruct (q_remove_head_ring h head x l (Some buf) bufsize R)
      as (h1 & _ & _ & E).
    destruct (copy_out_spec buf x bufsize h v Hv Hb Hmax)
      as (buf' & Ec & ? & ? & ?).
    exists buf', h1. rewrite E, Ec. unfold key. rewrite Hv. done.
  - rewrite (app_removelast_last head Hne) in R, V.
    set (x := List.last l head) in *.
    destruct (V x ltac:(set_solver)) as [v Hv].
    destruct (q_remove_tail_ring h head x _ (Some buf) bufsize R)
      as (h1 & _ & _ & E).
    destruct (copy_out_spec buf x bufsize h v Hv Hb Hmax)
      as (buf' & Ec & ? & ? & ?).
    exists buf', h1. rewrite E, Ec. unfold key. rewrite Hv. done.
Qed.

Lemma q_remove_copies_witness :
  let h := mk_queue (cbuf <$> ["hello"; "world"]) in
  let l := [2; 3] in
  let buf := cbuf "XXXXXXX" in
  ring h 1 l ∧ has_vals h l ∧ l ≠ [] ∧
  1 ≤ 4 ≤ Z.of_nat (length buf) ∧ Z.of_nat (length buf) ≤ SIZE_MAX ∧
  (∃ buf' h', q_remove_head 1 (Some buf) 4 h
              = Some (hd 1 l, Some buf', h') ∧
     length buf' = length buf ∧
     cstr buf' = take (Z.to_nat (4 - 1)) (cstr (key h (hd 1 l))) ∧
     drop (Z.to_nat 4) buf' = drop (Z.to_nat 4) buf) ∧
  (∃ buf' h', q_remove_tail 1 (Some buf) 4 h
              = Some (List.last l 1, Some buf', h') ∧
     length buf' = length buf ∧
     cstr buf' = take (Z.to_nat (4 - 1)) (cstr (key h (List.last l 1))) ∧
     drop (Z.to_nat 4) buf' = drop (Z.to_nat 4) buf).
Proof.
  cbv zeta. split; [compute_done|]. split; [compute_done|]. split; [done|].
  split; [compute_done|]. split; [compute_done|].
  apply (q_remove_copies _ 1 [2; 3] (cbuf "XXXXXXX") 4);
    (done || compute_done).
Defined.

(** ** Insertion and removal together *)

(** X8.  After an insertion at the head (of a string that fits an [int],
    with both allocations succeeding), every [q_remove_head] that returns,
    with or without a buffer, returns the element just inserted, and after
    an insertion at the tail every [q_remove_tail] that returns does;
    either way the ring is as before the insertion.  After an insertion at
    the tail of a ring that is not empty every [q_remove_head] that returns
    returns the old first element, and after an insertion at the head every
    [q_remove_tail] that returns returns the old last element.  The calls
    with no buffer or with a buffer of at least [bufsize >= 1] bytes
    return. *)
Theorem q_insert_remove_order h head l s n :
  ring h head l → has_vals h l → strlen s = Some n → n + 1 ≤ INT_MAX →
  ∃ h1 h1',
    q_insert_head true true head s h = Some (true, s, h1) ∧
    q_insert_tail true true head s h = Some (true, s, h1') ∧
    ∀ sp bufsize,
      (∀ r, q_remove_head head sp bufsize h1 = Some r →
            r.1.1 = fresh_loc h ∧ ring r.2 head l) ∧
      (∀ r, q_remove_tail head sp bufsize h1' = Some r →
            r.1.1 = fresh_loc h ∧ ring r.2 head l) ∧
      (∀ r, q_remove_head head sp bufsize h1' = Some r →
            r.1.1 = hd (fresh_loc h) l ∧
            ring r.2 head (tail (l ++ [fresh_loc h]))) ∧
      (∀ r, q_remove_tail head sp bufsize h1 = Some r →
            r.1.1 = List.last l (fresh_loc h) ∧
            ring r.2 head (removelast (fresh_loc h :: l))) ∧
      (buffer_fits sp bufsize →
       is_Some (q_remove_head head sp bufsize h1) ∧
       is_Some (q_remove_tail head sp bufsize h1') ∧
       is_Some (q_remove_head head sp bufsize h1') ∧
       is_Some (q_remove_tail head sp bufsize h1)).
Proof.
  intros R V Hn Hmax.
  destruct (q_insert_head_ok _ _ _ _ _ R V Hn Hmax) as (h1 & E1 & R1 & _).
  destruct (q_insert_tail_ok _ _ _ _ _ R V Hn Hmax) as (h1' & E1' & R1' & _).
  destruct (q_insert_head_inv _ _ _ _ _ _ _ _ _ R V E1)
    as [[? _]|(_ & _ & W1 & _)]; [done|].
  destruct (q_insert_tail_inv _ _ _ _ _ _ _ _ _ R V E1')
    as [[? _]|(_ & _ & W1' & _)]; [done|].
  set (e := fresh_loc h) in *.
  (* head, then head *)
  destruct (q_remove_head_any h1 head e l R1) as (ha & Ra & _ & _ & Pa & Ta).
  (* tail, then tail *)
  destruct (q_remove_tail_any h1' head e l R1') as (hb & Rb & _ & _ & Pb & Tb).
  (* tail, then head *)
  assert (∃ x k, l ++ [e] = x :: k) as (x & k & Ek)
    by (destruct l; simpl; by eauto).
  pose proof R1' as R1c. rewrite Ek in R1c.
  destruct (q_remove_head_any h1' head x k R1c)
    as (hc & Rc & _ & _ & Pc & Tc).
  assert (Hx : x = hd e l) by (destruct l; simpl in Ek |- *; congruence).
  assert (Hk : k = tail (l ++ [e])) by by rewrite Ek.
  (* head, then tail *)
  assert (Hl : e :: l ≠ []) by done.
  pose proof (app_removelast_last e Hl) as Et.
  assert (Hy : List.last (e :: l) e = List.last l e)
    by (destruct l; [done|by rewrite last_cons]).
  rewrite Hy in Et.
  pose proof R1 as R1d. rewrite Et in R1d.
  destruct (q_remove_tail_any h1 head _ _ R1d)
    as (hd' & Rd & _ & _ & Pd & Td).
  exists h1, h1'. split; [done|]. split; [done|]. intros sp bufsize.
  split; [|split; [|split; [|split]]].
  - intros r Hr. destruct (Pa _ _ _ Hr) as [-> ->]. done.
  - intros r Hr. destruct (Pb _ _ _ Hr) as [-> ->]. done.
  - intros r Hr. destruct (Pc _ _ _ Hr) as [-> ->]. by rewrite <- Hx, <- Hk.
  - intros r Hr. destruct (Pd _ _ _ Hr) as [-> ->]. done.
  - intros Hb. split; [|split; [|split]].
    + apply Ta; [|done]. apply W1. set_solver.
    + apply Tb; [|done]. apply W1'. set_solver.
    + apply Tc; [|done]. apply W1'. rewrite Ek. set_solver.
    + apply Td; [|done]. apply W1. rewrite Et. set_solver.
Qed.

Lemma q_insert_remove_order_witness :
  let h := mk_queue (cbuf <$> ["a"; "b"]) in
  let s := cbuf "c" in
  let l := [2; 3] in
  ring h 1 l ∧ has_vals h l ∧ strlen s = Some 1 ∧ 1 + 1 ≤ INT_MAX ∧
  ∃ h1 h1',
    q_insert_head true true 1 s h = Some (true, s, h1) ∧
    q_insert_tail true true 1 s h = Some (true, s, h1') ∧
    ∀ sp bufsize,
      (∀ r, q_remove_head 1 sp bufsize h1 = Some r →
            r.1.1 = fresh_loc h ∧ ring r.2 1 l) ∧
      (∀ r, q_remove_tail 1 sp bufsize h1' = Some r →
            r.1.1 = fresh_loc h ∧ ring r.2 1 l) ∧
      (∀ r, q_remove_head 1 sp bufsize h1' = Some r →
            r.1.1 = hd (fresh_loc h) l ∧
            ring r.2 1 (tail (l ++ [fresh_loc h]))) ∧
      (∀ r, q_remove_tail 1 sp bufsize h1 = Some r →
            r.1.1 = List.last l (fresh_loc h) ∧
            ring r.2 1 (removelast (fresh_loc h :: l))) ∧
      (buffer_fits sp bufsize →
       is_Some (q_remove_head 1 sp bufsize h1) ∧
       is_Some (q_remove_tail 1 sp bufsize h1') ∧
       is_Some (q_remove_head 1 sp bufsize h1') ∧
       is_Some (q_remove_tail 1 sp bufsize h1)).
Proof.
  cbv zeta. split; [compute_done|]. split; [compute_done|].
  split; [reflexivity|]. split; [compute_done|].
  apply (q_insert_remove_order _ 1 [2; 3] (cbuf "c") 1);
    (reflexivity || compute_done).
Defined.

(** X9.  [q_size] follows the operations.  After any insertion that
    returns it is one more when the insertion returned true and the same
    when it returned false; after any removal that returns, with or without
    a buffer, it is one less when an element was returned and the same when
    [NULL] was; after [q_delete_mid] it is one less when that returned true
    and the same when it returned false.  Insertions of a string that fits
    an [int] return, removals with no buffer or with a buffer of at least
    [bufsize >= 1] bytes return, and [q_delete_mid] returns. *)
Theorem q_size_follows h head l fuel :
  ring h head l → has_vals h l →
  Z.of_nat (length l) < INT_MAX → (length l + 1 < fuel)%nat →
  q_size fuel head h = Some (Z.of_nat (length l)) ∧
  (∀ a b s r,
     q_insert_head a b head s h = Some r ∨
     q_insert_tail a b head s h = Some r →
     q_size fuel head r.2
     = Some (if r.1.1 then Z.of_nat (length l) + 1
             else Z.of_nat (length l))) ∧
  (∀ sp bufsize r,
     q_remove_head head sp bufsize h = Some r ∨
     q_remove_tail head sp bufsize h = Some r →
     q_size fuel head r.2
     = Some (if r.1.1 =? NULL then Z.of_nat (length l)
             else Z.of_nat (length l) - 1)) ∧
  (∀ r, q_delete_mid fuel head h = Some r →
        q_size fuel head r.2
        = Some (if r.1 then Z.of_nat (length l) - 1
                else Z.of_nat (length l))) ∧
  (∀ a b s n, strlen s = Some n → n + 1 ≤ INT_MAX →
              is_Some (q_insert_head a b head s h) ∧
              is_Some (q_insert_tail a b head s h)) ∧
  (∀ sp bufsize, buffer_fits sp bufsize →
                 is_Some (q_remove_head head sp bufsize h) ∧
                 is_Some (q_remove_tail head sp bufsize h)) ∧
  is_Some (q_delete_mid fuel head h).
Proof.
  intros R V Hl Hf.
  assert (Sz : q_size fuel head h = Some (Z.of_nat (length l)))
    by (apply q_size_ring; [done|lia|lia]).
  split; [done|]. split; [|split; [|split; [|split; [|split]]]].
  - intros a b s [[bb s'] h'] [E|E]; cbn [fst snd].
    + destruct (q_insert_head_inv _ _ _ _ _ _ _ _ _ R V E)
        as [[-> ->]|(-> & R' & _)]; [done|].
      rewrite (q_size_ring _ _ _ fuel R'); simpl length; [f_equal|..]; lia.
    + destruct (q_insert_tail_inv _ _ _ _ _ _ _ _ _ R V E)
        as [[-> ->]|(-> & R' & _)]; [done|].
      rewrite (q_size_ring _ _ _ fuel R'); rewrite ?length_app;
        simpl length; [f_equal|..]; lia.
  - intros sp bufsize r E. destruct (decide (l = [])) as [->|Hne].
    { rewrite (q_remove_head_absent head sp bufsize h []) in E by auto.
      rewrite (q_remove_tail_absent head sp bufsize h []) in E by auto.
      assert (r = (NULL, sp, h)) as -> by (destruct E; congruence).
      done. }
    destruct E as [E|E].
    + destruct l as [|x l']; [done|].
      destruct (q_remove_head_any h head x l' R) as (h' & R' & _ & _ & P & _).
      destruct (P _ _ _ E) as [-> ->].
      assert (x ≠ NULL) as Hx
        by (apply (ring_not_NULL _ _ _ _ R); set_solver).
      rewrite (proj2 (Z.eqb_neq _ _) Hx).
      rewrite (q_size_ring _ _ _ fuel R'); simpl length in *;
        [f_equal|..]; lia.
    + pose proof (app_removelast_last head Hne) as Et.
      pose proof R as R0. rewrite Et in R0.
      destruct (q_remove_tail_any h head _ _ R0) as (h' & R' & _ & _ & P & _).
      destruct (P _ _ _ E) as [-> ->].
      assert (List.last l head ≠ NULL) as Hx.
      { apply (ring_not_NULL _ _ _ _ R). rewrite Et at 2. set_solver. }
      rewrite (proj2 (Z.eqb_neq _ _) Hx).
      assert (Hlen : length l = S (length (removelast l))).
      { rewrite Et at 1. rewrite length_app. simpl. lia. }
      rewrite (q_size_ring _ _ _ fuel R'); [f_equal|..]; lia.
  - intros [b h'] E. cbn [fst snd]. destruct (decide (l = [])) as [->|Hne].
    { unfold q_delete_mid in E.
      assert (head ≠ NULL) as HN
        by (apply (ring_not_NULL _ _ _ _ R); set_solver).
      rewrite (proj2 (Z.eqb_neq _ _) HN), (list_empty_ring _ _ _ R) in E.
      rewrite bool_decide_eq_true_2 in E by done. injection E as <- <-.
      done. }
    destruct (ensures_partial _ _ _ _
                (q_delete_mid_spec h head l fuel R V Hne) E) as (Eb & R' & _).
    cbn [fst snd] in Eb, R'. subst b.
    assert (Hi : ((length l - 1) / 2 < length l)%nat).
    { destruct l; [done|]. apply Nat.Div0.div_lt_upper_bound. simpl. lia. }
    pose proof (length_delete l _ (lookup_lt_is_Some_2 _ _ Hi)) as Hd.
    rewrite (q_size_ring _ _ _ fuel R'); [f_equal|..]; lia.
  - intros a b s n Hn Hmax.
    destruct (create_element_small_run s n h a b Hn Hmax)
      as (e & h1 & Ec & _).
    destruct (q_insert_head_run _ _ _ _ _ _ _ _ _ R Ec) as (? & ? & -> & _).
    destruct (q_insert_tail_run _ _ _ _ _ _ _ _ _ R Ec) as (? & ? & -> & _).
    split; by eexists.
  - intros sp bufsize Hb. destruct (decide (l = [])) as [->|Hne].
    { rewrite (q_remove_head_absent head sp bufsize h []) by auto.
      rewrite (q_remove_tail_absent head sp bufsize h []) by auto.
      split; by eexists. }
    split.
    + destruct l as [|x l']; [done|].
      destruct (q_remove_head_any h head x l' R) as (h' & _ & _ & _ & _ & T).
      apply T; [|done]. apply V. set_solver.
    + pose proof (app_removelast_last head Hne) as Et.
      pose proof R as R0. rewrite Et in R0.
      destruct (q_remove_tail_any h head _ _ R0) as (h' & _ & _ & _ & _ & T).
      apply T; [|done]. apply V. rewrite Et at 2. clear. set_solver.
  - destruct (decide (l = [])) as [->|Hne].
    { unfold q_delete_mid.
      assert (head ≠ NULL) as HN
        by (apply (ring_not_NULL _ _ _ _ R); set_solver).
      rewrite (proj2 (Z.eqb_neq _ _) HN), (list_empty_ring _ _ _ R).
      rewrite bool_decide_eq_true_2 by done. by eexists. }
    destruct (ensures_total _ _ _ (q_delete_mid_spec h head l fuel R V Hne))
      as (r & -> & _); [lia|]. by eexists.
Qed.

Lemma q_size_follows_witness :
  let h := mk_queue (cbuf <$> ["a"; "b"]) in
  let l := [2; 3] in
  ring h 1 l ∧ has_vals h l ∧
  Z.of_nat (length l) < INT_MAX ∧ (length l + 1 < 4)%nat ∧
  q_size 4 1 h = Some (Z.of_nat (length l)) ∧
  (∀ a b s r,
     q_insert_head a b 1 s h = Some r ∨ q_insert_tail a b 1 s h = Some r →
     q_size 4 1 r.2
     = Some (if r.1.1 then Z.of_nat (length l) + 1
             else Z.of_nat (length l))) ∧
  (∀ sp bufsize r,
     q_remove_head 1 sp bufsize h = Some r ∨
     q_remove_tail 1 sp bufsize h = Some r →
     q_size 4 1 r.2
     = Some (if r.1.1 =? NULL then Z.of_nat (length l)
             else Z.of_nat (length l) - 1)) ∧
  (∀ r, q_delete_mid 4 1 h = Some r →
        q_size 4 1 r.2
        = Some (if r.1 then Z.of_nat (length l) - 1
                else Z.of_nat (length l))) ∧
  (∀ a b s n, strlen s = Some n → n + 1 ≤ INT_MAX →
              is_Some (q_insert_head a b 1 s h) ∧
              is_Some (q_insert_tail a b 1 s h)) ∧
  (∀ sp bufsize, buffer_fits sp bufsize →
                 is_Some (q_remove_head 1 sp bufsize h) ∧
                 is_Some (q_remove_tail 1 sp bufsize h)) ∧
  is_Some (q_delete_mid 4 1 h).
Proof.
  cbv zeta. split; [compute_done|]. split; [compute_done|].
  split; [compute_done|]. split; [compute_done|].
  apply (q_size_follows _ 1 [2; 3] 4); compute_done.
Defined.

(** ** Freeing a queue *)

Lemma q_free_loop_spec head :
  ∀ fuel h l,
    ring h head l → has_vals h l →
    ensures (q_free_loop fuel head (hd head l) (hd head (tail l)) h)
            (fuel ≤ length l)%nat
            (λ h', ring h' head [] ∧
                   (∀ q, q ∉ head :: l → links h' !! q = links h !! q) ∧
                   (∀ q, q ∈ l → links h' !! q = None) ∧
                   (∀ q, vals h' !! q
                         = if decide (q ∈ l) then None else vals h !! q)).
Proof.
  induction fuel as [|fuel IH]; intros h l R V.
  { right. split; [done|lia]. }
  destruct l as [|x l].
  { left. exists h. split; [simpl; by rewrite Z.eqb_refl|].
    split; [done|]. split; [done|]. split; [set_solver|].
    intros q. by rewrite decide_False by set_solver. }
  simpl hd. simpl tail.
  assert (Hxh : x ≠ head).
  { pose proof (ring_NoDup _ _ _ R) as ND.
    apply NoDup_cons in ND as [Hh _]. set_solver. }
  assert (Hxl : x ∉ l).
  { pose proof (ring_NoDup _ _ _ R) as ND.
    apply NoDup_cons in ND as [_ ND]. by apply NoDup_cons in ND as [? _]. }
  cbn [q_free_loop]. rewrite (proj2 (Z.eqb_neq _ _) Hxh).
  destruct (ring_delete h head [] x l R V) as (h1 & E & R1 & V1 & F1).
  simpl app in *.
  apply bind_Some in E as (h0 & E0 & E1). rewrite E0.
  cbn [mbind option_bind]. rewrite E1. cbn [mbind option_bind].
  destruct (q_release_element_gone _ _ _ E1) as [Gl Gv].
  assert (Hs : nxt h1 (hd head l) = Some (hd head (tail l))).
  { destruct l as [|y l]; simpl.
    - apply (ring_nxt_head _ _ _ R1).
    - apply (ring_mid_links h1 head [] y l R1). }
  rewrite Hs. cbn [mbind option_bind].
  assert (V1' : has_vals h1 l).
  { intros y Hy. rewrite V1; [apply V|]; set_solver. }
  eapply ensures_weaken; [apply (IH h1 l R1 V1')|simpl; lia|].
  intros h' (R' & L' & G' & W'). split; [done|]. split; [|split].
  - intros q Hq. rewrite L' by set_solver.
    apply lookup_links_eq; apply F1; set_solver.
  - intros q [->|Hq]%elem_of_cons; [|by apply G'].
    rewrite L'; [done|set_solver].
  - intros q. rewrite W'. destruct (decide (q ∈ l)).
    + by rewrite decide_True by set_solver.
    + destruct (decide (q = x)) as [->|].
      * by rewrite decide_True by set_solver.
      * rewrite decide_False by set_solver. by apply V1.
Qed.

Lemma q_free_ring h head l fuel :
  ring h head l → has_vals h l → (length l < fuel)%nat →
  ∃ h', q_free fuel head h = Some h' ∧
        (∀ q, links h' !! q
              = if decide (q ∈ head :: l) then None else links h !! q) ∧
        (∀ q, vals h' !! q
              = if decide (q ∈ l) then None else vals h !! q).
Proof.
  intros R V Hf. unfold q_free.
  assert (head ≠ NULL) as HN by (apply (ring_not_NULL _ _ _ _ R); set_solver).
  rewrite (proj2 (Z.eqb_neq _ _) HN), (ring_nxt_head _ _ _ R).
  cbn [mbind option_bind].
  assert (Hs : nxt h (hd head l) = Some (hd head (tail l))).
  { destruct l as [|y l]; simpl.
    - apply (ring_nxt_head _ _ _ R).
    - apply (ring_mid_links h head [] y l R). }
  rewrite Hs. cbn [mbind option_bind].
  destruct (ensures_total _ _ _ (q_free_loop_spec head fuel h l R V))
    as (h1 & -> & R1 & L1 & G1 & W1); [lia|]. cbn [mbind option_bind].
  destruct (ring_alive _ _ _ head R1 ltac:(set_solver)) as [n ->].
  cbn [mbind option_bind]. eexists. split; [done|]. simpl. split; [|done].
  intros q. destruct (decide (q = head)) as [->|Hq].
  { rewrite lookup_delete_eq. by rewrite decide_True by set_solver. }
  rewrite lookup_delete_ne by done. destruct (decide (q ∈ l)).
  - rewrite decide_True by set_solver. by apply G1.
  - rewrite decide_False by set_solver. apply L1. set_solver.
Qed.

(** X10.  [q_free] does nothing for an absent queue.  For a ring it releases
    the sentinel and every element with its payload, and leaves every other
    object of the store as it was. *)
Theorem q_free_releases h head l fuel :
  ring h head l → has_vals h l → (length l < fuel)%nat →
  q_free fuel NULL h = Some h ∧
  ∃ h', q_free fuel head h = Some h' ∧
        (∀ q, links h' !! q
              = if decide (q ∈ head :: l) then None else links h !! q) ∧
        (∀ q, vals h' !! q
              = if decide (q ∈ l) then None else vals h !! q).
Proof. intros R V Hf. split; [done|]. by apply q_free_ring. Qed.

Lemma q_free_releases_witness :
  let h := mk_queue (cbuf <$> ["a"; "b"; "c"]) in
  let l := [2; 3; 4] in
  ring h 1 l ∧ has_vals h l ∧ (length l < 4)%nat ∧
  q_free 4 NULL h = Some h ∧
  ∃ h', q_free 4 1 h = Some h' ∧
        (∀ q, links h' !! q
              = if decide (q ∈ 1 :: l) then None else links h !! q) ∧
        (∀ q, vals h' !! q
              = if decide (q ∈ l) then None else vals h !! q).
Proof.
  cbv zeta. split; [compute_done|]. split; [compute_done|].
  split; [compute_done|].
  apply (q_free_releases _ 1 [2; 3; 4] 4); compute_done.
Defined.

(** ** No storage is lost *)

(** [owns h0 h head l]: the store [h] is [h0] and, besides, the ring of
    [head], whose objects were not live in [h0]. *)
Definition owns (h0 h : heap) (head : loc) (l : list loc) : Prop :=
  ring h head l ∧ has_vals h l ∧
  (∀ q, links h0 !! q
        = if decide (q ∈ head :: l) then None else links h !! q) ∧
  (∀ q, vals h0 !! q = if decide (q ∈ l) then None else vals h !! q).

(** A client that releases every element it removes, as the comment on
    [q_release_element] has it. *)
Definition release_removed (r : loc * option (list byte) * heap)
  : option heap :=
  let '(e, _, h) := r in
  if e =? NULL then Some h else q_release_element e h.

Definition client_op (fuel : nat) (op : queue_op) (head : loc) (h : heap)
  : option heap :=
  match op with
  | OpRemoveHead sp n => q_remove_head head sp n h ≫= release_removed
  | OpRemoveTail sp n => q_remove_tail head sp n h ≫= release_removed
  | _ => run_op fuel op head h
  end.

Fixpoint client_run (fuel : nat) (ops : list queue_op) (head : loc)
    (h : heap) : option heap :=
  match ops with
  | [] => Some h
  | op :: ops => h ← client_op fuel op head h; client_run fuel ops head h
  end.

Lemma owns_new h0 head h :
  q_new true h0 = Some (head, h) → owns h0 h head [].
Proof.
  intros E.
  destruct (q_new_ring _ _ _ _ E) as [(_ & _ & ?)|(-> & R & _ & V & F)];
    [done|].
  destruct (fresh_loc_spec h0) as (_ & Lf & _).
  split; [done|]. split; [by intros x Hx%elem_of_nil|]. split.
  - intros q. destruct (decide (q ∈ [fresh_loc h0])) as [Hq|Hq].
    + apply list_elem_of_singleton in Hq as ->. done.
    + symmetry. apply lookup_links_eq; apply F; set_solver.
  - intros q. rewrite decide_False by set_solver. by rewrite V.
Qed.

Lemma owns_delete h0 h head l1 x l2 h' :
  owns h0 h head (l1 ++ x :: l2) →
  (h1 ← list_del x h; q_release_element x h1) = Some h' →
  owns h0 h' head (l1 ++ l2).
Proof.
  intros (R & V & L & W) E.
  destruct (ring_delete h head l1 x l2 R V) as (h'' & E' & R' & V' & F').
  rewrite E in E'. injection E' as <-.
  apply bind_Some in E as (h1 & _ & E1).
  destruct (q_release_element_gone _ _ _ E1) as [Gl Gv].
  pose proof (ring_NoDup _ _ _ R) as ND.
  assert (Hx : x ∉ head :: l1 ++ l2).
  { apply NoDup_cons in ND as [Hh ND].
    apply NoDup_app in ND as (_ & D1 & ND). apply NoDup_cons in ND as [D2 _].
    clear -Hh D1 D2. intros [->|[Hin|Hin]%elem_of_app]%elem_of_cons.
    - set_solver.
    - apply (D1 _ Hin). set_solver.
    - done. }
  split; [done|]. split; [|split].
  - intros y Hy. rewrite V'; [apply V; set_solver|]. intros ->. set_solver.
  - intros q. rewrite L. destruct (decide (q = x)) as [->|Hq].
    + rewrite decide_True by set_solver. by rewrite decide_False, Gl.
    + destruct (decide (q ∈ head :: l1 ++ l2)).
      * by rewrite decide_True by set_solver.
      * rewrite decide_False by set_solver. symmetry.
        apply lookup_links_eq; apply F'; set_solver.
  - intros q. rewrite W. destruct (decide (q = x)) as [->|Hq].
    + rewrite decide_True by set_solver.
      rewrite decide_False by set_solver. done.
    + destruct (decide (q ∈ l1 ++ l2)).
      * by rewrite decide_True by set_solver.
      * rewrite decide_False by set_solver. symmetry. by apply V'.
Qed.

Lemma owns_perm h0 h head l l' h' :
  owns h0 h head l → ring h' head l' → l' ≡ₚ l →
  (∀ q, q ∉ head :: l → links h' !! q = links h !! q) →
  (∀ q, q ∉ l → vals h' !! q = vals h !! q) →
  has_vals h' l' →
  owns h0 h' head l'.
Proof.
  intros (R & V & L & W) R' P Fl Fv V'. split; [done|]. split; [done|].
  split.
  - intros q. rewrite L. destruct (decide (q ∈ head :: l)) as [Hq|Hq].
    + rewrite decide_True; [done|]. rewrite P. done.
    + rewrite decide_False; [by rewrite Fl|]. by rewrite P.
  - intros q. rewrite W. destruct (decide (q ∈ l)) as [Hq|Hq].
    + rewrite decide_True; [done|]. by rewrite P.
    + rewrite decide_False; [by rewrite Fv|]. by rewrite P.
Qed.

Lemma owns_frame h0 h head l l' h' F :
  owns h0 h head l → ring h' head l' → l' ≡ₚ l → frame F h h' →
  (∀ q, q ∈ F → q ∈ head :: l) →
  owns h0 h' head l'.
Proof.
  intros O R' P [Fv Fl] HF. apply (owns_perm h0 h head l l' h' O R' P).
  - intros q Hq. apply lookup_links_eq; apply Fl; intros ?; apply Hq; auto.
  - intros q _. by rewrite Fv.
  - intros x Hx. rewrite Fv. apply O. by rewrite <- P.
Qed.

Lemma owns_insert h0 h head l h1 e v l' h2 :
  owns h0 h head l →
  e = fresh_loc h →
  links h1 = <[e := ListHead NULL NULL]> (links h) →
  vals h1 = <[e := v]> (vals h) →
  frame (e :: head :: l) h1 h2 → ring h2 head l' → l' ≡ₚ e :: l →
  owns h0 h2 head l'.
Proof.
  intros (R & V & L & W) -> EL EV [Fv Fl] R' P.
  destruct (fresh_loc_spec h) as (Nf & Lf & Vf).
  assert (He : fresh_loc h ∉ head :: l).
  { intros Hin. by apply (ring_not_fresh _ _ _ _ R Hin). }
  split; [done|]. split; [|split].
  - intros x Hx. rewrite Fv, EV. rewrite P in Hx.
    apply elem_of_cons in Hx as [->|Hx].
    + rewrite lookup_insert_eq. eauto.
    + rewrite lookup_insert_ne; [by apply V|]. intros <-. set_solver.
  - intros q. rewrite L.
    destruct (decide (q = fresh_loc h)) as [->|Hq].
    + rewrite decide_False by done. rewrite Lf.
      rewrite decide_True; [done|]. rewrite P. lsolve.
    + destruct (decide (q ∈ head :: l)) as [Hin|Hin].
      * rewrite decide_True; [done|]. rewrite P. lsolve.
      * assert (Hq' : q ∉ fresh_loc h :: head :: l).
        { intros [->|?]%elem_of_cons; done. }
        rewrite decide_False by (rewrite P; lsolve).
        rewrite (lookup_links_eq h1 h2 q (proj1 (Fl q Hq'))
                   (proj2 (Fl q Hq'))).
        by rewrite EL, lookup_insert_ne.
  - intros q. rewrite W.
    destruct (decide (q = fresh_loc h)) as [->|Hq].
    + rewrite decide_False by set_solver. rewrite Vf.
      rewrite decide_True; [done|]. rewrite P. lsolve.
    + destruct (decide (q ∈ l)) as [Hin|Hin].
      * rewrite decide_True; [done|]. rewrite P. lsolve.
      * rewrite decide_False by (rewrite P; lsolve).
        by rewrite Fv, EV, lookup_insert_ne.
Qed.

Lemma owns_insert_head h0 h head l a b s r :
  owns h0 h head l → q_insert_head a b head s h = Some r →
  ∃ l', owns h0 r.2 head l' ∧ (length l' ≤ S (length l))%nat.
Proof.
  intros O. pose proof O as (R & V & _). unfold q_insert_head.
  assert (head ≠ NULL) as HN by (apply (ring_not_NULL _ _ _ _ R); set_solver).
  rewrite (proj2 (Z.eqb_neq _ _) HN).
  destruct (create_element _ _ _ _) as [[[e s1] h1]|] eqn:Ec; simpl; [|done].
  destruct (create_element_inv _ _ _ _ _ _ _ Ec)
    as [[-> ->]|(-> & EL & v & EV)].
  { simpl. intros [= <-]. exists l. split; [done|lia]. }
  destruct (fresh_loc_spec h) as (Nf & Lf & Vf).
  rewrite (proj2 (Z.eqb_neq _ _) Nf).
  destruct (q_insert_ring h head l (fresh_loc h) v R Lf Nf) as (R1 & A1 & Hp).
  assert (R1' : ring h1 head l).
  { eapply ring_links_eq; [|exact R1]. by rewrite EL. }
  assert (A1' : alive h1 (fresh_loc h)).
  { unfold alive. rewrite EL, lookup_insert_eq. eauto. }
  destruct (ring_list_add _ _ _ _ R1' A1' Hp Nf) as (h2 & E2 & R2 & F2).
  rewrite E2. simpl. intros [= <-]. simpl.
  exists (fresh_loc h :: l). split; [|simpl; lia].
  by apply (owns_insert h0 h head l h1 (fresh_loc h) v _ h2 O eq_refl EL EV
              F2 R2).
Qed.

Lemma owns_insert_tail h0 h head l a b s r :
  owns h0 h head l → q_insert_tail a b head s h = Some r →
  ∃ l', owns h0 r.2 head l' ∧ (length l' ≤ S (length l))%nat.
Proof.
  intros O. pose proof O as (R & V & _). unfold q_insert_tail.
  assert (head ≠ NULL) as HN by (apply (ring_not_NULL _ _ _ _ R); set_solver).
  rewrite (proj2 (Z.eqb_neq _ _) HN).
  destruct (create_element _ _ _ _) as [[[e s1] h1]|] eqn:Ec; simpl; [|done].
  destruct (create_element_inv _ _ _ _ _ _ _ Ec)
    as [[-> ->]|(-> & EL & v & EV)].
  { simpl. intros [= <-]. exists l. split; [done|lia]. }
  destruct (fresh_loc_spec h) as (Nf & Lf & Vf).
  rewrite (proj2 (Z.eqb_neq _ _) Nf).
  destruct (q_insert_ring h head l (fresh_loc h) v R Lf Nf) as (R1 & A1 & Hp).
  assert (R1' : ring h1 head l).
  { eapply ring_links_eq; [|exact R1]. by rewrite EL. }
  assert (A1' : alive h1 (fresh_loc h)).
  { unfold alive. rewrite EL, lookup_insert_eq. eauto. }
  destruct (ring_list_add_tail _ _ _ _ R1' A1' Hp Nf) as (h2 & E2 & R2 & F2).
  rewrite E2. simpl. intros [= <-]. simpl.
  exists (l ++ [fresh_loc h]). split; [|rewrite length_app; simpl; lia].
  apply (owns_insert h0 h head l h1 (fresh_loc h) v _ h2 O eq_refl EL EV
           F2 R2).
  by rewrite Permutation_app_comm.
Qed.

Lemma owns_remove_head h0 h head l sp n h' :
  owns h0 h head l →
  q_remove_head head sp n h ≫= release_removed = Some h' →
  ∃ l', owns h0 h' head l' ∧ (length l' ≤ length l)%nat.
Proof.
  intros O E. pose proof O as (R & V & _).
  apply bind_Some in E as ([[e sp'] h1] & E & Er). unfold q_remove_head in E.
  assert (head ≠ NULL) as HN by (apply (ring_not_NULL _ _ _ _ R); set_solver).
  rewrite (proj2 (Z.eqb_neq _ _) HN), (list_empty_ring _ _ _ R) in E.
  cbn [mbind option_bind] in E. destruct l as [|x l].
  { rewrite bool_decide_eq_true_2 in E by done. injection E as <- <- <-.
    simpl in Er. injection Er as <-. exists []. split; [done|lia]. }
  rewrite bool_decide_eq_false_2 in E by done.
  rewrite (ring_nxt_head _ _ _ R) in E. cbn [hd mbind option_bind] in E.
  destruct (copy_out sp x n h); [|done]. cbn [mbind option_bind] in E.
  destruct (list_del x h) as [h2|] eqn:Ed; [|done].
  cbn [mbind option_bind] in E. injection E as <- <- <-.
  assert (x ≠ NULL) as Hx by (apply (ring_not_NULL _ _ _ _ R); set_solver).
  simpl in Er. rewrite (proj2 (Z.eqb_neq _ _) Hx) in Er.
  exists l. split; [|simpl; lia].
  apply (owns_delete h0 h head [] x l h' O). by rewrite Ed.
Qed.

Lemma owns_remove_tail h0 h head l sp n h' :
  owns h0 h head l →
  q_remove_tail head sp n h ≫= release_removed = Some h' →
  ∃ l', owns h0 h' head l' ∧ (length l' ≤ length l)%nat.
Proof.
  intros O E. pose proof O as (R & V & _).
  apply bind_Some in E as ([[e sp'] h1] & E & Er). unfold q_remove_tail in E.
  assert (head ≠ NULL) as HN by (apply (ring_not_NULL _ _ _ _ R); set_solver).
  rewrite (proj2 (Z.eqb_neq _ _) HN), (list_empty_ring _ _ _ R) in E.
  cbn [mbind option_bind] in E. destruct (decide (l = [])) as [->|Hne].
  { rewrite bool_decide_eq_true_2 in E by done. injection E as <- <- <-.
    simpl in Er. injection Er as <-. exists []. split; [done|lia]. }
  rewrite bool_decide_eq_false_2 in E by done.
  rewrite (ring_prv_head _ _ _ R) in E. cbn [mbind option_bind] in E.
  set (x := List.last l head) in *.
  destruct (copy_out sp x n h); [|done]. cbn [mbind option_bind] in E.
  destruct (list_del x h) as [h2|] eqn:Ed; [|done].
  cbn [mbind option_bind] in E. injection E as <- <- <-.
  assert (El : l = removelast l ++ [x]) by apply (app_removelast_last _ Hne).
  assert (x ≠ NULL) as Hx.
  { apply (ring_not_NULL _ _ _ _ R). rewrite El. set_solver. }
  simpl in Er. rewrite (proj2 (Z.eqb_neq _ _) Hx) in Er.
  exists (removelast l). split.
  - rewrite <- (app_nil_r (removelast l)).
    apply (owns_delete h0 h head (removelast l) x [] h').
    + by rewrite <- El.
    + by rewrite Ed.
  - rewrite El at 2. rewrite length_app. lia.
Qed.

Lemma owns_delete_mid h0 h head l fuel r :
  owns h0 h head l → q_delete_mid fuel head h = Some r →
  ∃ l', owns h0 r.2 head l' ∧ (length l' ≤ length l)%nat.
Proof.
  intros O E. pose proof O as (R & V & _). unfold q_delete_mid in E.
  assert (head ≠ NULL) as HN by (apply (ring_not_NULL _ _ _ _ R); set_solver).
  rewrite (proj2 (Z.eqb_neq _ _) HN), (list_empty_ring _ _ _ R) in E.
  cbn [mbind option_bind] in E. destruct (decide (l = [])) as [->|Hne].
  { rewrite bool_decide_eq_true_2 in E by done. injection E as <-.
    exists []. split; [done|lia]. }
  rewrite bool_decide_eq_false_2 in E by done.
  destruct (q_mid fuel head h) as [mid|] eqn:Em; [|done].
  cbn [mbind option_bind] in E.
  assert (Hi : ((length l - 1) / 2 < length l)%nat).
  { destruct l; [done|]. apply Nat.Div0.div_lt_upper_bound. simpl. lia. }
  destruct (lookup_lt_is_Some_2 _ _ Hi) as [m Hm].
  destruct (q_mid_spec _ _ _ _ fuel R Hm) as [Em'|[Em' _]]; [|congruence].
  rewrite Em in Em'. injection Em' as ->.
  destruct (list_elem_of_split_length _ _ _ Hm) as (l1 & l2 & El & _).
  destruct (list_del m h) as [h1|] eqn:Ed; [|done].
  cbn [mbind option_bind] in E.
  destruct (q_release_element m h1) as [h2|] eqn:Er; [|done].
  injection E as <-. simpl. exists (l1 ++ l2). split.
  - apply (owns_delete h0 h head l1 m l2 h2); [by rewrite <- El|].
    by rewrite Ed.
  - rewrite El, !length_app. simpl. lia.
Qed.

Lemma owns_delete_dup_loop h0 head :
  ∀ fuel h kept rest cur safe h',
    owns h0 h head (kept ++ rest) →
    nxt h (hd head rest) = Some safe →
    q_delete_dup_loop fuel head (hd head rest) safe cur h = Some h' →
    ∃ l', owns h0 h' head l' ∧ (length l' ≤ length (kept ++ rest))%nat.
Proof.
  induction fuel as [|fuel IH]; intros h kept rest cur safe h' O Hs E;
    [done|].
  pose proof O as (R & V & _). cbn [q_delete_dup_loop] in E.
  destruct rest as [|x rest].
  { simpl in E. rewrite Z.eqb_refl in E. injection E as <-. eauto. }
  cbn [hd] in *. pose proof (ring_NoDup _ _ _ R) as ND.
  assert (Hxh : x ≠ head).
  { apply NoDup_cons in ND as [Hh _]. set_solver. }
  rewrite (proj2 (Z.eqb_neq _ _) Hxh) in E.
  destruct (ring_mid_links _ _ _ _ _ R) as [En _].
  rewrite En in Hs. injection Hs as <-.
  assert (Ok : owns h0 h head ((kept ++ [x]) ++ rest))
    by by rewrite <- app_assoc.
  assert (Hlen : length ((kept ++ [x]) ++ rest) = length (kept ++ x :: rest))
    by by rewrite <- app_assoc.
  assert (Keep : ∀ c,
    (safe' ← nxt h (hd head rest);
     q_delete_dup_loop fuel head (hd head rest) safe' c h) = Some h' →
    ∃ l', owns h0 h' head l' ∧ (length l' ≤ length (kept ++ x :: rest))%nat).
  { intros c Ec. apply bind_Some in Ec as (safe' & Es & Ec).
    rewrite <- Hlen. by apply (IH h (kept ++ [x]) rest c safe' h' Ok Es). }
  destruct (cur =? NULL); [by apply (Keep x)|].
  destruct (cmp cur x h) as [c|]; [|done]. cbn [mbind option_bind] in E.
  destruct (c =? 0); [|by apply (Keep x)].
  destruct (list_del x h) as [h1|] eqn:Ed; [|done].
  cbn [mbind option_bind] in E.
  destruct (q_release_element x h1) as [h2|] eqn:Er; [|done].
  cbn [mbind option_bind] in E.
  apply bind_Some in E as (safe' & Es & E).
  assert (O2 : owns h0 h2 head (kept ++ rest)).
  { apply (owns_delete h0 h head kept x rest h2 O). by rewrite Ed. }
  destruct (IH h2 kept rest cur safe' h' O2 Es E) as (l' & O' & Hl).
  exists l'. split; [done|]. rewrite length_app in *. simpl. lia.
Qed.

Lemma owns_delete_dup h0 h head l fuel r :
  owns h0 h head l → q_delete_dup fuel head h = Some r →
  ∃ l', owns h0 r.2 head l' ∧ (length l' ≤ length l)%nat.
Proof.
  intros O E. pose proof O as (R & V & _). unfold q_delete_dup in E.
  assert (head ≠ NULL) as HN by (apply (ring_not_NULL _ _ _ _ R); set_solver).
  rewrite (proj2 (Z.eqb_neq _ _) HN), (list_empty_ring _ _ _ R) in E.
  cbn [mbind option_bind] in E. destruct (decide (l = [])) as [->|Hne].
  { rewrite bool_decide_eq_true_2 in E by done. injection E as <-.
    exists []. split; [done|lia]. }
  rewrite bool_decide_eq_false_2 in E by done.
  rewrite (ring_nxt_head _ _ _ R) in E. cbn [mbind option_bind] in E.
  destruct (nxt h (hd head l)) as [safe|] eqn:Es; [|done].
  cbn [mbind option_bind] in E.
  destruct (q_delete_dup_loop _ _ _ _ _ _) as [h'|] eqn:El; [|done].
  injection E as <-. simpl.
  by apply (owns_delete_dup_loop h0 head fuel h [] l NULL safe h').
Qed.

Lemma owns_client_op h0 h head l fuel op h' :
  owns h0 h head l → client_op fuel op head h = Some h' →
  ∃ l', owns h0 h' head l' ∧ (length l' ≤ S (length l))%nat.
Proof.
  intros O E. pose proof O as (R & V & _).
  assert (Weak : (∃ l', owns h0 h' head l' ∧ (length l' ≤ length l)%nat) →
                 ∃ l', owns h0 h' head l' ∧ (length l' ≤ S (length l))%nat).
  { intros (l' & ? & ?). exists l'. split; [done|lia]. }
  destruct op; simpl in E.
  - apply bind_Some in E as (r & E & [= <-]). by eapply owns_insert_head.
  - apply bind_Some in E as (r & E & [= <-]). by eapply owns_insert_tail.
  - apply Weak. by eapply owns_remove_head.
  - apply Weak. by eapply owns_remove_tail.
  - apply bind_Some in E as (r & E & [= <-]). exists l. split; [done|lia].
  - apply bind_Some in E as (r & E & [= <-]). apply Weak.
    by eapply owns_delete_mid.
  - apply bind_Some in E as (r & E & [= <-]). apply Weak.
    by eapply owns_delete_dup.
  - destruct (ensures_partial _ _ _ _ (q_swap_spec h head l fuel R V) E)
      as (EL & _ & V' & F').
    exists l. split; [|lia].
    apply (owns_perm h0 h head l l h' O); try done.
    + by apply (ring_links_eq h).
    + intros q _. by rewrite EL.
  - destruct (ensures_partial _ _ _ _ (q_reverse_spec h head l fuel R) E)
      as (R' & Fv & Fl).
    exists (rev l). split; [|rewrite length_rev; lia].
    apply (owns_perm h0 h head l (rev l) h' O); try done.
    + symmetry. apply Permutation_rev.
    + intros q Hq. apply lookup_links_eq; by apply Fl.
    + intros q _. by rewrite Fv.
    + intros x Hx. rewrite elem_of_rev in Hx. rewrite Fv. by apply V.
  - destruct (ensures_partial _ _ _ _ (q_sort_spec fuel h head l R V) E)
      as (l' & R' & P & _ & F').
    exists l'. split; [|rewrite P; lia].
    by apply (owns_frame h0 h head l l' h' (head :: l)).
Qed.

Lemma owns_client_run h0 head fuel :
  ∀ ops h l h',
    owns h0 h head l → client_run fuel ops head h = Some h' →
    ∃ l', owns h0 h' head l' ∧ (length l' ≤ length l + length ops)%nat.
Proof.
  induction ops as [|op ops IH]; intros h l h' O E.
  { injection E as <-. exists l. split; [done|lia]. }
  simpl in E. apply bind_Some in E as (h1 & E1 & E).
  destruct (owns_client_op _ _ _ _ _ _ _ O E1) as (l1 & O1 & H1).
  destruct (IH _ _ _ O1 E) as (l' & O' & H').
  exists l'. split; [done|]. simpl. lia.
Qed.

Lemma owns_free h0 h head l fuel :
  owns h0 h head l → (length l < fuel)%nat → q_free fuel head h = Some h0.
Proof.
  intros (R & V & L & W) Hf.
  destruct (q_free_ring h head l fuel R V Hf) as (h' & -> & L' & W').
  f_equal. destruct h' as [lk vl], h0 as [lk0 vl0]. simpl in *.
  f_equal; apply map_eq; intros q; [by rewrite L', L|by rewrite W', W].
Qed.

(** X11.  No storage is lost.  Whatever the store [h0] in which [q_new]
    makes a queue, and whatever operations follow it (insertions whose
    allocations succeed or fail, [q_size], [q_delete_mid], [q_delete_dup],
    [q_swap], [q_reverse], [q_sort], and removals whose element the client
    releases with [q_release_element]), when they return [q_free] gives back
    exactly [h0]: every object allocated since is released and no other
    object is changed. *)
Theorem q_free_reclaims h0 head h1 fuel ops h2 fuel' :
  q_new true h0 = Some (head, h1) →
  client_run fuel ops head h1 = Some h2 →
  (length ops < fuel')%nat →
  q_free fuel' head h2 = Some h0.
Proof.
  intros En Er Hf.
  destruct (owns_client_run h0 head fuel ops h1 [] h2 (owns_new _ _ _ En) Er)
    as (l & O & Hl).
  apply (owns_free h0 h2 head l fuel' O). simpl in Hl. lia.
Qed.

Lemma q_free_reclaims_witness :
  let h0 := mk_queue (cbuf <$> ["x"; "y"]) in
  let ops := [OpInsertHead true true (cbuf "b");
              OpInsertTail true true (cbuf "a");
              OpInsertTail true false (cbuf "z");
              OpInsertHead true true (cbuf "b");
              OpSort; OpDeleteDup; OpInsertTail true true (cbuf "c");
              OpReverse; OpRemoveHead None 0; OpSwap; OpDeleteMid] in
  let r := default (NULL, h0) (q_new true h0) in
  let h2 := default h0 (client_run 8 ops r.1 r.2) in
  q_new true h0 = Some (r.1, r.2) ∧
  client_run 8 ops r.1 r.2 = Some h2 ∧
  (length ops < 12)%nat ∧
  q_free 12 r.1 h2 = Some h0.
Proof.
  cbv zeta. split; [vm_compute; reflexivity|].
  split; [vm_compute; reflexivity|]. split; [compute_done|].
  eapply q_free_reclaims with (fuel := 8%nat)
    (h1 := (default (NULL, mk_queue (cbuf <$> ["x"; "y"]))
                    (q_new true (mk_queue (cbuf <$> ["x"; "y"])))).2)
    (ops := [OpInsertHead true true (cbuf "b");
             OpInsertTail true true (cbuf "a");
             OpInsertTail true false (cbuf "z");
             OpInsertHead true true (cbuf "b");
             OpSort; OpDeleteDup; OpInsertTail true true (cbuf "c");
             OpReverse; OpRemoveHead None 0; OpSwap; OpDeleteMid]);
    [vm_compute; reflexivity|vm_compute; reflexivity|compute_done].
Defined.

(** ** Operations that keep the elements *)

(** X12.  [q_reverse], [q_swap] and [q_sort] keep the number of elements:
    [q_size] returns after each of them what it returned before. *)
Theorem q_size_kept h head l fuel :
  ring h head l → has_vals h l →
  Z.of_nat (length l) ≤ INT_MAX → (length l + 1 < fuel)%nat →
  (∃ h', q_reverse fuel head h = Some h' ∧
         q_size fuel head h' = q_size fuel head h) ∧
  (∃ h', q_swap fuel head h = Some h' ∧
         q_size fuel head h' = q_size fuel head h) ∧
  (∃ h', q_sort fuel head h = Some h' ∧
         q_size fuel head h' = q_size fuel head h).
Proof.
  intros R V Hmax Hf.
  rewrite (q_size_ring _ _ _ fuel R) by (done || lia).
  split; [|split].
  - destruct (ensures_total _ _ _ (q_reverse_spec h head l fuel R))
      as (h' & E & R' & _); [lia|].
    exists h'. split; [done|].
    rewrite (q_size_ring _ _ _ fuel R'); rewrite length_rev;
      (done || lia).
  - destruct (ensures_total _ _ _ (q_swap_spec h head l fuel R V))
      as (h' & E & EL & _); [lia|].
    exists h'. split; [done|].
    by rewrite (q_size_ring _ _ _ fuel (ring_links_eq _ _ _ _ EL R))
      by (done || lia).
  - destruct (ensures_total _ _ _ (q_sort_spec fuel h head l R V))
      as (h' & E & l' & R' & P & _); [lia|].
    exists h'. split; [done|].
    rewrite (q_size_ring _ _ _ fuel R'); rewrite P; (done || lia).
Qed.

Lemma q_size_kept_witness :
  let h := mk_queue (cbuf <$> ["c"; "a"; "b"]) in
  let l := [2; 3; 4] in
  ring h 1 l ∧ has_vals h l ∧
  Z.of_nat (length l) ≤ INT_MAX ∧ (length l + 1 < 5)%nat ∧
  (∃ h', q_reverse 5 1 h = Some h' ∧ q_size 5 1 h' = q_size 5 1 h) ∧
  (∃ h', q_swap 5 1 h = Some h' ∧ q_size 5 1 h' = q_size 5 1 h) ∧
  (∃ h', q_sort 5 1 h = Some h' ∧ q_size 5 1 h' = q_size 5 1 h).
Proof.
  cbv zeta. split; [compute_done|]. split; [compute_done|].
  split; [compute_done|]. split; [compute_done|].
  apply (q_size_kept _ 1 [2; 3; 4] 5); compute_done.
Defined.

Lemma swap_pairs_involutive {A} (l : list A) :
  swap_pairs (swap_pairs l) = l.
Proof.
  assert (H : ∀ n (l : list A), (length l < n)%nat →
                                swap_pairs (swap_pairs l) = l).
  { induction n as [|n IH]; intros k Hk; [lia|].
    destruct k as [|x [|y k]]; [done..|]. simpl.
    rewrite IH; [done|]. simpl in Hk. lia. }
  apply (H (S (length l))). lia.
Qed.

(** X13.  [q_swap] applied twice gives back the store it started from:
    every element holds its first payload again and no link has moved. *)
Theorem q_swap_involutive h head l fuel :
  ring h head l → has_vals h l → (length l < fuel)%nat →
  ∃ h1, q_swap fuel head h = Some h1 ∧ q_swap fuel head h1 = Some h.
Proof.
  intros R V Hf.
  destruct (ensures_total _ _ _ (q_swap_spec h head l fuel R V))
    as (h1 & E1 & EL1 & K1 & V1 & F1); [lia|].
  pose proof (ring_links_eq _ _ _ _ EL1 R) as R1.
  destruct (ensures_total _ _ _ (q_swap_spec h1 head l fuel R1 V1))
    as (h2 & E2 & EL2 & K2 & V2 & F2); [lia|].
  exists h1. split; [done|]. rewrite E2. f_equal.
  destruct h2 as [lk2 vl2], h as [lk vl]. simpl in *. f_equal.
  { by rewrite EL2. }
  apply map_eq. intros q. destruct (decide (q ∈ l)) as [Hq|Hq].
  - rewrite K1, swap_pairs_involutive in K2.
    apply list_elem_of_lookup_1 in Hq as [i Hi].
    assert (Hk : (key (Heap lk2 vl2) <$> l) !! i
                 = (key (Heap lk vl) <$> l) !! i) by by rewrite K2.
    rewrite !list_lookup_fmap, Hi in Hk. simpl in Hk. injection Hk as Hk.
    unfold key in Hk. simpl in Hk.
    destruct (V2 q) as [a Ha]; [by apply list_elem_of_lookup_2 in Hi|].
    destruct (V q) as [b Hb]; [by apply list_elem_of_lookup_2 in Hi|].
    simpl in Ha, Hb. rewrite Ha, Hb in *. simpl in Hk. by subst.
  - rewrite (F2 q Hq). apply (F1 q Hq).
Qed.

Lemma q_swap_involutive_witness :
  let h := mk_queue (cbuf <$> ["a"; "b"; "c"]) in
  ring h 1 [2; 3; 4] ∧ has_vals h [2; 3; 4] ∧
  (length [2; 3; 4] < 4)%nat ∧
  ∃ h1, q_swap 4 1 h = Some h1 ∧ q_swap 4 1 h1 = Some h.
Proof.
  cbv zeta. split; [compute_done|]. split; [compute_done|].
  split; [compute_done|].
  apply (q_swap_involutive _ 1 [2; 3; 4] 4); compute_done.
Defined.

(** ** The comparison *)

(** The lexicographic order of byte strings, bytes as [unsigned char]. *)
Fixpoint lex_lt (u v : list byte) : Prop :=
  match u, v with
  | _, [] => False
  | [], _ :: _ => True
  | x :: u', y :: v' => uchar x < uchar y ∨ (x = y ∧ lex_lt u' v')
  end.

Lemma strcmp_zero a b : strcmp a b = 0 ↔ cstr a = cstr b.
Proof.
  revert b. induction a as [|x a IH]; intros [|y b]; simpl;
    try (pose proof (uchar_nonneg x)); try (pose proof (uchar_nonneg y));
    repeat match goal with
           | |- context [?u =? ?v] => destruct (Z.eqb_spec u v)
           end;
    try (exfalso; lia); try done;
    try (split; intros; first [done | lia]).
  - rewrite IH. assert (x = y) as -> by by apply uchar_inj.
    split; [by intros ->|by intros [= ->]].
  - split; [lia|]. intros [= -> _]. done.
Qed.

Lemma strcmp_neg a b : strcmp a b < 0 ↔ lex_lt (cstr a) (cstr b).
Proof.
  revert b. induction a as [|x a IH]; intros [|y b]; simpl;
    try (pose proof (uchar_nonneg x)); try (pose proof (uchar_nonneg y));
    repeat match goal with
           | |- context [?u =? ?v] => destruct (Z.eqb_spec u v)
           end;
    simpl; try (exfalso; lia); try done;
    try (split; intros; first [done | lia]).
  - rewrite IH. assert (x = y) as -> by by apply uchar_inj.
    split; [by right|]. intros [?|[_ ?]]; [lia|done].
  - split; [intros; left; lia|]. intros [?|[-> _]]; [lia|done].
Qed.

(** X14.  [cmp] orders two elements by their strings as [unsigned char]
    sequences up to the terminator: it is zero exactly when the strings are
    equal, negative exactly when the first is lexicographically smaller, and
    swapping the arguments swaps the sign. *)
Theorem cmp_lexicographic h e1 e2 a b :
  vals h !! e1 = Some a → vals h !! e2 = Some b →
  ∃ c c', cmp e1 e2 h = Some c ∧ cmp e2 e1 h = Some c' ∧
          (c = 0 ↔ cstr a = cstr b) ∧
          (c < 0 ↔ lex_lt (cstr a) (cstr b)) ∧
          (0 < c ↔ c' < 0).
Proof.
  intros Ha Hb. unfold cmp. rewrite Ha, Hb. simpl.
  exists (strcmp a b), (strcmp b a). split; [done|]. split; [done|].
  split; [apply strcmp_zero|]. split; [apply strcmp_neg|].
  rewrite (strcmp_antisym a b). lia.
Qed.

Lemma cmp_lexicographic_witness :
  let h := mk_queue (cbuf <$> ["abc"; "abd"]) in
  vals h !! 2 = Some (cbuf "abc") ∧ vals h !! 3 = Some (cbuf "abd") ∧
  ∃ c c', cmp 2 3 h = Some c ∧ cmp 3 2 h = Some c' ∧
          (c = 0 ↔ cstr (cbuf "abc") = cstr (cbuf "abd")) ∧
          (c < 0 ↔ lex_lt (cstr (cbuf "abc")) (cstr (cbuf "abd"))) ∧
          (0 < c ↔ c' < 0).
Proof.
  cbv zeta. split; [reflexivity|]. split; [reflexivity|].
  apply (cmp_lexicographic _ 2 3); reflexivity.
Defined.

(** ** Sorting, then deleting duplicates *)

Lemma cmpk_zero h x y : cmpk h x y = 0 ↔ cstr (key h x) = cstr (key h y).
Proof. apply strcmp_zero. Qed.

(** X15.  [q_sort] followed by [q_delete_dup] leaves a strictly ascending
    ring of elements of the first one, each with its payload, in which every
    string of the first ring occurs, and occurs once. *)
Theorem q_sort_delete_dup h head l fuel :
  ring h head l → has_vals h l → (length l + 2 ≤ fuel)%nat →
  ∃ h1 h2 r,
    q_sort fuel head h = Some h1 ∧
    q_delete_dup fuel head h1 = Some (true, h2) ∧
    ring h2 head r ∧ strictly_sorted (cmpk h) r ∧
    (∀ z, z ∈ r → z ∈ l ∧ vals h2 !! z = vals h !! z) ∧
    (∀ x, x ∈ l → ∃ y, y ∈ r ∧ cstr (key h y) = cstr (key h x)) ∧
    (∀ y1 y2, y1 ∈ r → y2 ∈ r →
              cstr (key h y1) = cstr (key h y2) → y1 = y2).
Proof.
  intros R V Hf.
  destruct (ensures_total _ _ _ (q_sort_spec fuel h head l R V))
    as (h1 & E1 & l' & R1 & P & S & [Fv _]); [lia|].
  assert (V1 : has_vals h1 l').
  { intros z Hz. rewrite Fv. apply V. by rewrite <- P. }
  destruct (ensures_total _ _ _ (q_delete_dup_spec h1 head l' fuel R1 V1))
    as ([b h2] & E2 & Eb & R2 & V2); [rewrite P; lia|].
  cbn [fst snd] in Eb, R2, V2. subst b.
  rewrite (cmpk_vals_eq _ _ Fv) in R2, V2.
  destruct (dedup_adj_spec (cmpk h) (cmpk_order h) l' S)
    as (Sub & SS & Rep & Uniq).
  exists h1, h2, (dedup_adj (cmpk h) l'). split; [done|]. split; [done|].
  split; [done|]. split; [done|]. split; [|split].
  - intros z Hz. split.
    + rewrite <- P. by apply dedup_adj_elem_of in Hz.
    + rewrite V2 by done. by rewrite Fv.
  - intros x Hx. rewrite <- P in Hx. destruct (Rep x Hx) as (y & Hy & Hc).
    exists y. split; [done|]. by apply cmpk_zero.
  - intros y1 y2 H1 H2 Hk. apply Uniq; [done..|]. by apply cmpk_zero.
Qed.

Lemma q_sort_delete_dup_witness :
  let h := mk_queue (cbuf <$> ["b"; "a"; "b"; "a"]) in
  let l := [2; 3; 4; 5] in
  ring h 1 l ∧ has_vals h l ∧ (length l + 2 ≤ 6)%nat ∧
  ∃ h1 h2 r,
    q_sort 6 1 h = Some h1 ∧
    q_delete_dup 6 1 h1 = Some (true, h2) ∧
    ring h2 1 r ∧ strictly_sorted (cmpk h) r ∧
    (∀ z, z ∈ r → z ∈ l ∧ vals h2 !! z = vals h !! z) ∧
    (∀ x, x ∈ l → ∃ y, y ∈ r ∧ cstr (key h y) = cstr (key h x)) ∧
    (∀ y1 y2, y1 ∈ r → y2 ∈ r →
              cstr (key h y1) = cstr (key h y2) → y1 = y2).
Proof.
  cbv zeta. split; [compute_done|]. split; [compute_done|].
  split; [compute_done|].
  apply (q_sort_delete_dup _ 1 [2; 3; 4; 5] 6); compute_done.
Defined.

(** ** What the sort does to the order of the elements *)

(** The sort on the list of elements: the first half, up to the middle
    element, and the second half are sorted and merged, the second half as
    the first argument of the merge. *)
Fixpoint sort_list (c : loc → loc → Z) (fuel : nat) (l : list loc)
  : list loc :=
  match fuel with
  | O => l
  | S fuel =>
      match l with
      | [] | [_] => l
      | _ => merge_list c
               (sort_list c fuel (drop (S ((length l - 1) / 2)) l))
               (sort_list c fuel (take (S ((length l - 1) / 2)) l))
      end
  end.

Lemma sort_list_step c fuel x y l :
  sort_list c (S fuel) (x :: y :: l)
  = merge_list c
      (sort_list c fuel
         (drop (S ((length (x :: y :: l) - 1) / 2)) (x :: y :: l)))
      (sort_list c fuel
         (take (S ((length (x :: y :: l) - 1) / 2)) (x :: y :: l))).
Proof. reflexivity. Qed.

Lemma sort_list_perm c fuel : ∀ l, sort_list c fuel l ≡ₚ l.
Proof.
  induction fuel as [|fuel IH]; intros l; [done|].
  destruct l as [|x [|y l]]; [done..|].
  rewrite sort_list_step, merge_list_perm, !IH, Permutation_app_comm.
  by rewrite take_drop.
Qed.

Lemma sort_list_ext c c' fuel : (∀ x y, c x y = c' x y) →
  ∀ l, sort_list c fuel l = sort_list c' fuel l.
Proof.
  intros H. induction fuel as [|fuel IH]; intros l; [done|].
  destruct l as [|x [|y l]]; [done..|].
  rewrite !sort_list_step, !IH. generalize (sort_list c' fuel
    (drop (S ((length (x :: y :: l) - 1) / 2)) (x :: y :: l))).
  generalize (sort_list c' fuel
    (take (S ((length (x :: y :: l) - 1) / 2)) (x :: y :: l))).
  intros lb la. revert lb. induction la as [|a la IHa]; intros lb.
  { by rewrite !merge_list_nil_l. }
  induction lb as [|b lb IHb]; [by rewrite !merge_list_nil_r|].
  rewrite !merge_list_cons, H. destruct (c' a b <? 0); f_equal; auto.
Qed.

Lemma q_sort_exact :
  ∀ fuel h head l,
    ring h head l → has_vals h l →
    ensures (q_sort fuel head h) (fuel < length l + 2)%nat
      (λ h', ring h' head (sort_list (cmpk h) fuel l) ∧
             frame (head :: l) h h').
Proof.
  intros fuel. induction fuel as [|fuel IH]; intros h head l R V.
  { right. split; [done|lia]. }
  cbn [q_sort].
  assert (head ≠ NULL) as HN by (apply (ring_not_NULL _ _ _ _ R); set_solver).
  rewrite (proj2 (Z.eqb_neq _ _) HN), (list_empty_ring _ _ _ R).
  cbn [mbind option_bind].
  destruct l as [|x l].
  { rewrite bool_decide_eq_true_2 by done. apply ensures_Some.
    split; [done|]. apply frame_refl. }
  rewrite bool_decide_eq_false_2 by done.
  rewrite (ring_prv_head _ _ _ R), (ring_nxt_head _ _ _ R).
  cbn [hd mbind option_bind].
  destruct l as [|y l].
  { simpl. rewrite Z.eqb_refl. apply ensures_Some.
    split; [done|]. apply frame_refl. }
  pose proof (ring_NoDup _ _ _ R) as ND.
  assert (Hlast : List.last (x :: y :: l) head ≠ x).
  { rewrite last_cons. pose proof (last_elem_of l y) as Hin.
    rewrite last_cons. clear -ND Hin. nodup_split. set_solver. }
  rewrite (proj2 (Z.eqb_neq _ _) Hlast).
  pose proof (sort_list_step (cmpk h) fuel x y l) as Estep.
  set (L := x :: y :: l) in *.
  assert (HL : (2 ≤ length L)%nat) by (simpl; lia).
  set (i := ((length L - 1) / 2)%nat) in *.
  pose proof (mid_index_lt _ HL) as Hi. fold i in Hi.
  destruct (lookup_lt_is_Some_2 L i) as [mid Hmid]; [lia|].
  eapply ensures_bind; [apply (q_mid_ensures _ _ _ _ fuel R Hmid)| |lia].
  intros ? ->. unfold LIST_HEAD. cbn beta iota zeta.
  destruct (fresh_loc_spec h) as (Nn & Ln & _).
  set (new := fresh_loc h) in *.
  set (h1 := Heap (<[new := ListHead new new]> (links h)) (vals h)).
  assert (Hnew : new ∉ head :: L).
  { intros Hin. by apply (ring_not_fresh _ _ _ _ R Hin). }
  clearbody new.
  assert (A1 : alive h1 new).
  { unfold alive, h1. simpl. rewrite lookup_insert_eq. eauto. }
  destruct (ring_INIT _ _ A1 Nn) as (h2 & E2 & Rn2 & F2).
  rewrite E2. cbn [mbind option_bind].
  pose proof (take_drop_middle L i mid Hmid) as EL.
  rewrite (take_S_r _ _ _ Hmid) in Estep.
  set (l1 := take i L) in *. set (l2 := drop (S i) L) in *.
  assert (Hl1 : length l1 = i) by (subst l1; rewrite length_take; lia).
  assert (Hlen : length L = (length l1 + 1 + length l2)%nat).
  { rewrite <- EL, length_app. simpl. lia. }
  clearbody l1 l2. clearbody i. clearbody L. subst L.
  rewrite Estep. clear Estep.
  assert (R2 : ring h2 head (l1 ++ mid :: l2)).
  { apply (ring_frame [new] h1); [by apply ring_alloc|done|].
    clear -Hnew. set_solver. }
  destruct (ring_list_cut_position _ _ _ _ _ _ R2 Rn2 Hnew)
    as (h3 & E3 & Rn3 & Rh3 & F3).
  rewrite E3. cbn [mbind option_bind].
  assert (V3 : vals h3 = vals h).
  { destruct F3 as [-> _], F2 as [-> _]. done. }
  apply ring_NoDup in R as NDh.
  (* the second half, left in [head] *)
  eapply ensures_bind; [apply (IH h3 head l2 Rh3)| |lia].
  { intros z Hz. rewrite V3. apply V. set_solver. }
  intros h4 (Rh4 & F4).
  rewrite (cmpk_vals_eq _ _ V3) in Rh4.
  pose proof (sort_list_perm (cmpk h) fuel l2) as P2.
  set (l2' := sort_list (cmpk h) fuel l2) in *. clearbody l2'.
  assert (V4 : vals h4 = vals h) by (destruct F4 as [-> _]; done).
  assert (Rn4 : ring h4 new (l1 ++ [mid])).
  { apply (ring_frame _ _ _ _ _ Rn3 F4).
    clear -NDh Hnew. nodup_split. set_solver. }
  (* the first half, cut into [new_head] *)
  eapply ensures_bind; [apply (IH h4 new (l1 ++ [mid]) Rn4)| |].
  { intros z Hz. rewrite V4. apply V. set_solver. }
  2:{ rewrite length_app. simpl. lia. }
  intros h5 (Rn5 & F5).
  rewrite (cmpk_vals_eq _ _ V4) in Rn5.
  pose proof (sort_list_perm (cmpk h) fuel (l1 ++ [mid])) as P1.
  set (l1' := sort_list (cmpk h) fuel (l1 ++ [mid])) in *. clearbody l1'.
  assert (V5 : vals h5 = vals h) by (destruct F5 as [-> _]; done).
  assert (H2' : ∀ z, z ∈ l2' ↔ z ∈ l2) by (intros z; by rewrite P2).
  assert (H1' : ∀ z, z ∈ l1' ↔ z ∈ l1 ++ [mid]) by (intros z; by rewrite P1).
  assert (Rh5 : ring h5 head l2').
  { apply (ring_frame _ _ _ _ _ Rh4 F5).
    clear -NDh Hnew H2'. nodup_split. zsolve. }
  eapply ensures_bind; [apply (merge_spec h5 head new l2' l1' fuel Rh5 Rn5)| |].
  { clear -NDh Hnew H1' H2'. nodup_split. zsolve. }
  { intros z Hz. rewrite V5. apply V.
    clear -Hz H1' H2'. specialize (H1' z). specialize (H2' z). set_solver. }
  2:{ rewrite P1, P2, length_app. simpl. lia. }
  intros h6 (Rh6 & Rn6 & F6). apply ensures_Some.
  rewrite (cmpk_vals_eq _ _ V5) in *.
  split.
  - apply ring_free_head; [done|].
    clear -Hnew H1' H2'. intros Hin. apply elem_of_cons in Hin as [->|Hin].
    + set_solver.
    + rewrite merge_list_perm in Hin. specialize (H1' new).
      specialize (H2' new). set_solver.
  - apply (frame_scoped _ h h1); [done|done|].
    eapply frame_trans; [eapply frame_weaken; [exact F2|clear; set_solver]|].
    eapply frame_trans; [eapply frame_weaken; [exact F3|clear; set_solver]|].
    eapply frame_trans; [eapply frame_weaken; [exact F4|clear; set_solver]|].
    eapply frame_trans; [eapply frame_weaken; [exact F5|clear; set_solver]|].
    eapply frame_weaken; [exact F6|]. clear -H1' H2'. zsolve.
Qed.

Lemma before_app_inv (l1 l2 : list loc) x y :
  before (l1 ++ l2) x y →
  before l1 x y ∨ before l2 x y ∨ (x ∈ l1 ∧ y ∈ l2).
Proof.
  induction l1 as [|z l1 IH]; simpl; [by auto|].
  intros [[-> Hy]|H].
  - apply elem_of_app in Hy as [Hy|Hy].
    + left. by left.
    + right. right. split; [by left|done].
  - destruct (IH H) as [?|[?|[? ?]]]; [by left; right|by right; left|].
    right. right. split; [by right|done].
Qed.

Lemma before_sublist (r r' : list loc) x y :
  sublist r r' → before r x y → before r' x y.
Proof.
  induction 1 as [|z r r' S IH|z r r' S IH]; simpl; [done| |by right; auto].
  intros [[-> Hy]|H]; [|by right; auto].
  left. split; [done|]. by apply (elem_of_sublist r r').
Qed.

Lemma before_total (r : list loc) x y :
  x ∈ r → y ∈ r → x ≠ y → before r x y ∨ before r y x.
Proof.
  induction r as [|z r IH]; [by intros ?%elem_of_nil|].
  intros [->|Hx]%elem_of_cons [->|Hy]%elem_of_cons Hne; simpl.
  - done.
  - left. by left.
  - right. by left.
  - destruct (IH Hx Hy Hne); [left|right]; by right.
Qed.

Section sort_facts.
Variable c : loc → loc → Z.
Hypothesis Hc : order c.

Lemma merge_list_ordered la lb :
  (∀ x y, x ∈ la → y ∈ lb → c y x ≤ 0) → merge_list c la lb = lb ++ la.
Proof.
  induction lb as [|y lb IH]; intros H.
  { by rewrite merge_list_nil_r. }
  destruct la as [|x la].
  { by rewrite merge_list_nil_l, app_nil_r. }
  rewrite merge_list_cons.
  assert (Hxy : c y x ≤ 0) by (apply H; set_solver).
  rewrite (order_antisym c Hc x y) in Hxy.
  destruct (Z.ltb_spec (c x y) 0); [lia|]. simpl. f_equal.
  apply IH. intros a b Ha Hb. apply H; set_solver.
Qed.

Lemma adj_sorted_app l1 l2 :
  adj_sorted c (l1 ++ l2) →
  adj_sorted c l1 ∧ adj_sorted c l2 ∧
  ∀ x y, x ∈ l1 → y ∈ l2 → c x y ≤ 0.
Proof.
  induction l1 as [|z l1 IH]; intros S.
  { split; [done|]. split; [done|]. by intros x y ?%elem_of_nil. }
  pose proof S as [Hz S']. destruct (IH S') as (S1 & S2 & H12).
  split; [|split; [done|]].
  - split; [|done]. destruct l1; [done|]. exact Hz.
  - intros x y [->|Hx]%elem_of_cons Hy; [|by apply H12].
    apply (adj_sorted_hd_le c Hc _ _ _ S). set_solver.
Qed.

Lemma sort_list_sorted_id fuel :
  ∀ l, adj_sorted c l → sort_list c fuel l = l.
Proof.
  induction fuel as [|fuel IH]; intros l Srt; [done|].
  destruct l as [|x [|y l]]; [done..|].
  rewrite sort_list_step.
  set (L := x :: y :: l) in *. set (i := ((length L - 1) / 2)%nat).
  clearbody L. rewrite <- (take_drop (S i) L) in Srt.
  destruct (adj_sorted_app _ _ Srt) as (S1 & S2 & H12).
  rewrite (IH _ S1), (IH _ S2), merge_list_ordered; [apply take_drop|].
  intros a b Ha Hb. by apply H12.
Qed.

Lemma sort_list_sorted fuel :
  ∀ l, (length l ≤ S fuel)%nat → adj_sorted c (sort_list c fuel l).
Proof.
  induction fuel as [|fuel IH]; intros l Hl.
  { destruct l as [|x [|y l]]; simpl in *; [done|done|lia]. }
  destruct l as [|x [|y l]]; [done..|].
  rewrite sort_list_step.
  set (L := x :: y :: l) in *.
  assert (HL : (2 ≤ length L)%nat) by (simpl; lia).
  set (i := ((length L - 1) / 2)%nat).
  pose proof (mid_index_lt _ HL) as Hi. fold i in Hi. clearbody L.
  apply merge_list_sorted.
  - intros a b Hab. rewrite (order_antisym c Hc a b). lia.
  - apply IH. rewrite length_drop. lia.
  - apply IH. rewrite length_take. lia.
Qed.

Lemma sort_list_stable fuel :
  ∀ l, NoDup l → (length l ≤ S fuel)%nat →
       ∀ x y, before l x y → c x y = 0 → before (sort_list c fuel l) x y.
Proof.
  induction fuel as [|fuel IH]; intros l ND Hl x y B E; [done|].
  destruct l as [|a [|b l]]; [done..|].
  rewrite sort_list_step.
  set (L := a :: b :: l) in *.
  assert (HL : (2 ≤ length L)%nat) by (simpl; lia).
  set (i := ((length L - 1) / 2)%nat).
  pose proof (mid_index_lt _ HL) as Hi. fold i in Hi. clearbody L.
  rewrite <- (take_drop (S i) L) in B, ND.
  set (l1 := take (S i) L) in *. set (l2 := drop (S i) L) in *.
  assert (H1 : (length l1 ≤ S fuel)%nat)
    by (unfold l1; rewrite length_take; lia).
  assert (H2 : (length l2 ≤ S fuel)%nat)
    by (unfold l2; rewrite length_drop; lia).
  clearbody l1 l2. apply NoDup_app in ND as (ND1 & D12 & ND2).
  apply before_app_inv in B as [B|[B|[Hx Hy]]].
  - apply (before_sublist (sort_list c fuel l1));
      [apply merge_list_sublist_r|by apply IH].
  - apply (before_sublist (sort_list c fuel l2));
      [apply merge_list_sublist_l|by apply IH].
  - set (s1 := sort_list c fuel l1). set (s2 := sort_list c fuel l2).
    assert (P1 : s1 ≡ₚ l1) by apply sort_list_perm.
    assert (P2 : s2 ≡ₚ l2) by apply sort_list_perm.
    assert (NDs : NoDup (s2 ++ s1)).
    { rewrite P1, P2. apply NoDup_app. split; [done|]. split; [|done].
      intros z Hz2 Hz1. by apply (D12 z). }
    assert (Hne : x ≠ y) by (intros ->; by apply (D12 y)).
    assert (T : before (merge_list c s2 s1) x y ∨
                before (merge_list c s2 s1) y x).
    { apply before_total; [| |done].
      - rewrite merge_list_perm, P1, P2. set_solver.
      - rewrite merge_list_perm, P1, P2. set_solver. }
    destruct T as [?|B]; [done|].
    apply (merge_list_before c Hc s2 s1) in B.
    + rewrite (order_antisym c Hc x y) in B. lia.
    + by apply sort_list_sorted.
    + by apply sort_list_sorted.
    + done.
    + by rewrite P2.
    + by rewrite P1.
Qed.

End sort_facts.

Lemma ring_determined h h' head l :
  ring h head l → ring h' head l →
  ∀ q, q ∈ head :: l → nxt h' q = nxt h q ∧ prv h' q = prv h q.
Proof.
  intros R R' q [->|Hq]%elem_of_cons.
  - by rewrite (ring_nxt_head _ _ _ R), (ring_nxt_head _ _ _ R'),
      (ring_prv_head _ _ _ R), (ring_prv_head _ _ _ R').
  - apply list_elem_of_split in Hq as (l1 & l2 & ->).
    destruct (ring_mid_links _ _ _ _ _ R) as [-> ->].
    by destruct (ring_mid_links _ _ _ _ _ R') as [-> ->].
Qed.

Lemma q_sort_sorted_id h head l fuel :
  ring h head l → has_vals h l → adj_sorted (cmpk h) l →
  (length l + 2 ≤ fuel)%nat → q_sort fuel head h = Some h.
Proof.
  intros R V S Hf.
  destruct (ensures_total _ _ _ (q_sort_exact fuel h head l R V))
    as (h' & -> & R' & [Fv Fl]); [lia|].
  rewrite (sort_list_sorted_id _ (cmpk_order h) _ _ S) in R'.
  f_equal. apply (links_ext h h' Fv). intros q.
  destruct (decide (q ∈ head :: l)) as [Hq|Hq]; [|by apply Fl].
  by apply (ring_determined h h' head l).
Qed.

(** X17.  [q_sort] is stable: it returns a ring of the same elements in
    ascending order in which elements with equal strings stand in the order
    they had before. *)
Theorem q_sort_stable h head l fuel :
  ring h head l → has_vals h l → (length l + 2 ≤ fuel)%nat →
  ∃ h' l', q_sort fuel head h = Some h' ∧ ring h' head l' ∧
           l' ≡ₚ l ∧ adj_sorted (cmpk h) l' ∧
           ∀ x y, before l x y → cstr (key h x) = cstr (key h y) →
                  before l' x y.
Proof.
  intros R V Hf.
  destruct (ensures_total _ _ _ (q_sort_exact fuel h head l R V))
    as (h' & E & R' & _); [lia|].
  exists h', (sort_list (cmpk h) fuel l). split; [done|]. split; [done|].
  split; [apply sort_list_perm|].
  split; [apply sort_list_sorted; [apply cmpk_order|lia]|].
  intros x y B Hk.
  apply (sort_list_stable _ (cmpk_order h)); [|lia|done|by apply cmpk_zero].
  pose proof (ring_NoDup _ _ _ R) as ND. by apply NoDup_cons in ND as [_ ?].
Qed.

Lemma q_sort_stable_witness :
  let h := mk_queue (cbuf <$> ["b"; "a"; "b"; "a"]) in
  let l := [2; 3; 4; 5] in
  ring h 1 l ∧ has_vals h l ∧ (length l + 2 ≤ 6)%nat ∧
  ∃ h' l', q_sort 6 1 h = Some h' ∧ ring h' 1 l' ∧
           l' ≡ₚ l ∧ adj_sorted (cmpk h) l' ∧
           ∀ x y, before l x y → cstr (key h x) = cstr (key h y) →
                  before l' x y.
Proof.
  cbv zeta. split; [compute_done|]. split; [compute_done|].
  split; [compute_done|].
  apply (q_sort_stable _ 1 [2; 3; 4; 5] 6); compute_done.
Defined.

(** X18.  [q_sort] changes nothing in a store whose ring is in ascending
    order already; so a second [q_sort] gives back the store the first one
    left. *)
Theorem q_sort_idempotent h head l fuel :
  ring h head l → has_vals h l → (length l + 2 ≤ fuel)%nat →
  (adj_sorted (cmpk h) l → q_sort fuel head h = Some h) ∧
  ∃ h1, q_sort fuel head h = Some h1 ∧ q_sort fuel head h1 = Some h1.
Proof.
  intros R V Hf. split; [intros S; by apply (q_sort_sorted_id h head l)|].
  destruct (ensures_total _ _ _ (q_sort_spec fuel h head l R V))
    as (h1 & E & l' & R' & P & S & [Fv _]); [lia|].
  exists h1. split; [done|].
  apply (q_sort_sorted_id h1 head l'); [done| |by rewrite (cmpk_vals_eq _ _ Fv)
                                       |rewrite P; lia].
  intros z Hz. rewrite Fv. apply V. by rewrite <- P.
Qed.

Lemma q_sort_idempotent_witness :
  let h := mk_queue (cbuf <$> ["b"; "a"; "c"]) in
  let l := [2; 3; 4] in
  ring h 1 l ∧ has_vals h l ∧ (length l + 2 ≤ 5)%nat ∧
  (adj_sorted (cmpk h) l → q_sort 5 1 h = Some h) ∧
  ∃ h1, q_sort 5 1 h = Some h1 ∧ q_sort 5 1 h1 = Some h1.
Proof.
  cbv zeta. split; [compute_done|]. split; [compute_done|].
  split; [compute_done|].
  apply (q_sort_idempotent _ 1 [2; 3; 4] 5); compute_done.
Defined.

(** ** Deleting duplicates in a ring that is not sorted *)

Lemma dedup_from_ext c c' cur l :
  (∀ x y, x ∈ cur :: l → y ∈ cur :: l → c x y = c' x y) →
  dedup_from c cur l = dedup_from c' cur l.
Proof.
  revert cur. induction l as [|x l IH]; intros cur H; [done|]. simpl.
  rewrite <- (H cur x) by set_solver. destruct (c cur x =? 0).
  - apply IH. intros a b Ha Hb. apply H; set_solver.
  - f_equal. apply IH. intros a b Ha Hb. apply H; set_solver.
Qed.

Lemma dedup_from_idem c cur l :
  dedup_from c cur (dedup_from c cur l) = dedup_from c cur l.
Proof.
  revert cur. induction l as [|x l IH]; intros cur; [done|]. simpl.
  destruct (c cur x =? 0) eqn:E; [apply IH|]. simpl. rewrite E.
  f_equal. apply IH.
Qed.

Lemma dedup_adj_sublist c l : sublist (dedup_adj c l) l.
Proof.
  destruct l as [|x l]; [done|]. simpl. constructor.
  generalize x. induction l as [|y l IH]; intros cur; [done|].
  simpl. destruct (c cur y =? 0);
    [by apply sublist_cons|by apply sublist_skip].
Qed.

(** An element stays exactly when it does not compare equal to the element
    just before it: [cur], the last element kept, compares equal to that
    one. *)
Lemma dedup_from_keeps c (Hc : order c) :
  ∀ l cur p i q x,
    c cur p = 0 → NoDup l →
    (p :: l) !! i = Some q → l !! i = Some x →
    (x ∈ dedup_from c cur l ↔ c q x ≠ 0).
Proof.
  assert (Heq : ∀ a b z, c a b = 0 → (c a z = 0 ↔ c b z = 0)).
  { intros a b z Hab.
    pose proof (order_antisym c Hc a b). pose proof (order_antisym c Hc a z).
    pose proof (order_antisym c Hc b z).
    pose proof (order_le_le c Hc a b z). pose proof (order_le_le c Hc b a z).
    pose proof (order_le_le c Hc z a b). pose proof (order_le_le c Hc z b a).
    lia. }
  induction l as [|y l IH]; intros cur p i q x Hcp ND Hq Hx; [done|].
  apply NoDup_cons in ND as [Hy ND]. cbn [dedup_from].
  destruct i as [|i]; simpl in Hq, Hx.
  - injection Hq as <-. injection Hx as <-.
    destruct (Z.eqb_spec (c cur y) 0) as [E|E].
    + split; [|by rewrite <- (Heq cur p y Hcp)].
      intros Hin%dedup_from_elem_of. done.
    + split; [by rewrite <- (Heq cur p y Hcp)|]. intros _. set_solver.
  - assert (Hxy : x ≠ y).
    { intros ->. apply Hy. by apply list_elem_of_lookup_2 in Hx. }
    destruct (Z.eqb_spec (c cur y) 0) as [E|E].
    + by apply (IH cur y i q x).
    + rewrite elem_of_cons.
      rewrite <- (IH y y i q x (order_refl c Hc y) ND Hq Hx). tauto.
Qed.

Lemma path_unique h head :
  ∀ l l' x, path h x (l ++ [head]) → path h x (l' ++ [head]) →
            head ∉ l → head ∉ l' → l = l'.
Proof.
  induction l as [|a l IH]; intros [|b l'] x P P' Hl Hl'; simpl in P, P'.
  - done.
  - destruct P as [[E _] _], P' as [[E' _] _]. set_solver.
  - destruct P as [[E _] _], P' as [[E' _] _]. set_solver.
  - destruct P as [[E _] P], P' as [[E' _] P'].
    assert (a = b) as -> by congruence.
    f_equal. apply (IH l' b); [done|done|set_solver|set_solver].
Qed.

Lemma ring_unique h head l l' : ring h head l → ring h head l' → l = l'.
Proof.
  intros (_ & ND & P) (_ & ND' & P').
  apply NoDup_cons in ND as [? _]. apply NoDup_cons in ND' as [? _].
  by apply (path_unique h head l l' head).
Qed.

(** X16.  On any ring, sorted or not, [q_delete_dup] keeps the first
    element of every run of neighbours with equal strings and releases the
    rest of the run.  The ring it leaves is the list that the loop of the
    code keeps ([dedup_adj]); it is a subsequence of the old one that holds
    the old first element and, of the others, exactly those whose string
    differs from the string of the element just before them; the elements
    kept hold their payloads, the others and their payloads are no longer
    allocated.  A second [q_delete_dup] changes nothing any more. *)
Theorem q_delete_dup_runs h head l fuel :
  ring h head l → has_vals h l → (length l < fuel)%nat →
  ∃ h1 r,
    q_delete_dup fuel head h = Some (true, h1) ∧ ring h1 head r ∧
    r = dedup_adj (cmpk h) l ∧ sublist r l ∧
    (∀ i x, l !! i = Some x →
            (x ∈ r ↔ i = 0%nat ∨
                     ∃ p, l !! (i - 1)%nat = Some p ∧
                          cstr (key h p) ≠ cstr (key h x))) ∧
    (∀ z, z ∈ r → vals h1 !! z = vals h !! z) ∧
    (∀ z, z ∈ l → z ∉ r → links h1 !! z = None ∧ vals h1 !! z = None) ∧
    q_delete_dup fuel head h1 = Some (true, h1).
Proof.
  intros R V Hf.
  destruct (ensures_total _ _ _ (q_delete_dup_spec h head l fuel R V))
    as ([b h1] & E1 & Eb & R1 & V1); [lia|].
  cbn [fst snd] in Eb, R1, V1. subst b.
  set (r := dedup_adj (cmpk h) l) in *.
  pose proof (dedup_adj_sublist (cmpk h) l) as Sub. fold r in Sub.
  assert (Hr : (length r ≤ length l)%nat) by by apply sublist_length.
  pose proof (ring_NoDup _ _ _ R) as ND. apply NoDup_cons in ND as [Hh ND].
  (* the store without the queue, and what is left of the queue in it *)
  destruct (q_free_ring h head l (S (length l)) R V ltac:(lia))
    as (h0 & _ & L0 & W0).
  assert (O : owns h0 h head l).
  { split; [done|]. split; [done|]. split; intros q; by rewrite ?L0, ?W0. }
  destruct (owns_delete_dup h0 h head l fuel _ O E1) as (l' & O1 & _).
  cbn [snd] in O1.
  assert (l' = r) as -> by (destruct O1 as [R1' _]; by apply (ring_unique h1 head)).
  (* the second run *)
  assert (Vr : has_vals h1 r) by apply O1.
  destruct (ensures_total _ _ _ (q_delete_dup_spec h1 head r fuel R1 Vr))
    as ([b h2] & E2 & Eb & R2 & V2); [lia|].
  cbn [fst snd] in Eb, R2, V2. subst b.
  assert (Er : dedup_adj (cmpk h1) r = r).
  { unfold r. destruct l as [|x l]; [done|]. simpl.
    rewrite (dedup_from_ext (cmpk h1) (cmpk h)).
    - by rewrite dedup_from_idem.
    - intros a b Ha Hb. unfold cmpk, key. by rewrite !V1. }
  rewrite Er in R2, V2.
  destruct (owns_delete_dup h0 h1 head r fuel _ O1 E2) as (l'' & O2 & _).
  cbn [snd] in O2.
  assert (l'' = r) as -> by (destruct O2 as [R2' _]; by apply (ring_unique h2 head)).
  assert (h2 = h1) as ->.
  { destruct O1 as (_ & _ & L1 & W1), O2 as (_ & _ & L2 & W2).
    apply (links_ext h1 h2).
    - destruct h1 as [lk1 vl1], h2 as [lk2 vl2]. simpl in *.
      apply map_eq. intros q. specialize (W1 q). specialize (W2 q).
      destruct (decide (q ∈ r)); [by apply V2|congruence].
    - intros q. destruct (decide (q ∈ head :: r)) as [Hq|Hq].
      + by apply (ring_determined h1 h2 head r).
      + specialize (L1 q). specialize (L2 q).
        rewrite decide_False in L1, L2 by done.
        unfold nxt, prv. by rewrite <- L2, L1. }
  exists h1, r. split; [done|]. split; [done|]. split; [done|].
  split; [done|]. split; [|split; [done|split; [|done]]].
  - intros i x Hx. unfold r. destruct l as [|x0 l0]; [done|].
    apply NoDup_cons in ND as [Hx0 ND]. cbn [dedup_adj].
    destruct i as [|i]; simpl in Hx.
    { injection Hx as <-. split; [by left|]. intros _. set_solver. }
    assert (Hne : x ≠ x0).
    { intros ->. apply Hx0. by apply list_elem_of_lookup_2 in Hx. }
    destruct (lookup_lt_is_Some_2 (x0 :: l0) i) as [q Hq].
    { apply lookup_lt_Some in Hx. simpl. lia. }
    rewrite elem_of_cons.
    rewrite (dedup_from_keeps (cmpk h) (cmpk_order h) l0 x0 x0 i q x
               (order_refl _ (cmpk_order h) x0) ND Hq Hx).
    replace (S i - 1)%nat with i by lia. rewrite cmpk_zero. split.
    + intros [?|Hk]; [done|]. right. by exists q.
    + intros [?|(p & Hp & Hk)]; [done|]. right. congruence.
  - intros z Hz Hzr. destruct O as (_ & _ & L & W).
    destruct O1 as (_ & _ & L1 & W1).
    specialize (L z). specialize (W z). specialize (L1 z). specialize (W1 z).
    assert (Hzh : z ∉ head :: r) by (intros [->|?]%elem_of_cons; done).
    rewrite decide_True in L by set_solver. rewrite decide_True in W by done.
    rewrite decide_False in L1 by done. rewrite decide_False in W1 by done.
    split; congruence.
Qed.

Lemma q_delete_dup_runs_witness :
  let h := mk_queue (cbuf <$> ["a"; "a"; "b"; "a"; "a"]) in
  let l := [2; 3; 4; 5; 6] in
  ring h 1 l ∧ has_vals h l ∧ (length l < 6)%nat ∧
  ∃ h1 r,
    q_delete_dup 6 1 h = Some (true, h1) ∧ ring h1 1 r ∧
    r = dedup_adj (cmpk h) l ∧ sublist r l ∧
    (∀ i x, l !! i = Some x →
            (x ∈ r ↔ i = 0%nat ∨
                     ∃ p, l !! (i - 1)%nat = Some p ∧
                          cstr (key h p) ≠ cstr (key h x))) ∧
    (∀ z, z ∈ r → vals h1 !! z = vals h !! z) ∧
    (∀ z, z ∈ l → z ∉ r → links h1 !! z = None ∧ vals h1 !! z = None) ∧
    q_delete_dup 6 1 h1 = Some (true, h1).
Proof.
  cbv zeta. split; [compute_done|]. split; [compute_done|].
  split; [compute_done|].
  apply (q_delete_dup_runs _ 1 [2; 3; 4; 5; 6] 6); compute_done.
Defined.
